(** * rpc/rawtransaction_util.cpp: transaction construction and peg-in inputs

    A shallow embedding of the functions of [src/rpc/rawtransaction_util.cpp]:
    [GetPeginTxnOutputIndex], [CreatePegInInputInner], [ConstructTransaction],
    [ParsePrevouts], [ValidateTransactionPeginInputs], [SignTransaction] and
    [SignTransactionResultToJSON].

    Conventions.
    - C++ exceptions are values of [exn]; a function that can throw while it
      mutates an argument passed by reference is a computation of the
      state-and-exception monad [M St]: the state reached when the exception
      is thrown is kept, as in C++ (nothing is rolled back).
    - Collaborators that live in other files of the repository (decoders,
      script templates, the peg-in witness verifier, the signer, the JSON
      value parsers) are fields of the interfaces [ScriptServices],
      [ParentChain], [ParentChains], [ChainServices], [RpcServices] and
      [SigningServices].
    - Vector positions are [nat]; sequence numbers, amounts and lock-times are
      [Z]. *)

From Stdlib Require Import ZArith Lia.
From Stdlib.Strings Require Import Byte Ascii.
From stdpp Require Import base option list strings gmap sorting.

Local Open Scope Z_scope.

(** ** Basic data *)

Definition bytes := list byte.          (* std::vector<unsigned char> *)
Definition CScript := list byte.        (* CScript: a byte vector *)
Definition uint256 := N.
Definition CAmount := Z.
Definition CAsset := uint256.
Definition CPubKey := bytes.            (* CPubKey(): the empty key *)
Definition CScriptWitness := list bytes. (* the witness stack *)

#[global] Instance byte_eq_decision : EqDecision byte := Byte.byte_eq_dec.

(** ** Exceptions *)

Inductive RPCErrorCode :=
| RPC_INVALID_PARAMETER
| RPC_TYPE_ERROR
| RPC_INVALID_ADDRESS_OR_KEY
| RPC_DESERIALIZATION_ERROR
| RPC_MISC_ERROR.

Inductive exn :=
| JSONRPCError (code : RPCErrorCode) (msg : string)
| runtime_error (msg : string)          (* std::runtime_error *)
| NonFatalCheckError                    (* CHECK_NONFATAL failed *)
| out_of_range                          (* std::out_of_range of at() *)
| undefined_behaviour.                  (* no exception: operator[] past the end of a
                                           vector, from where C++ defines nothing *)

Inductive result (A : Type) :=
| Ok (a : A)
| Throw (e : exn).
Arguments Ok {A} a.
Arguments Throw {A} e.

(** [is_invalid_parameter r]: [r] is a thrown JSON-RPC error of category
    RPC_INVALID_PARAMETER. *)
Definition is_invalid_parameter {A} (r : result A) : Prop :=
  match r with
  | Throw (JSONRPCError RPC_INVALID_PARAMETER _) => True
  | _ => False
  end.

Definition is_error {A} (r : result A) : Prop :=
  match r with Throw _ => True | Ok _ => False end.

(** ** The state-and-exception monad *)

Definition M (St A : Type) : Type := St -> result A * St.

Definition ret {St A} (a : A) : M St A := fun s => (Ok a, s).
Definition throw {St A} (e : exn) : M St A := fun s => (Throw e, s).
Definition bind {St A B} (c : M St A) (k : A -> M St B) : M St B :=
  fun s => match c s with
           | (Ok a, s') => k a s'
           | (Throw e, s') => (Throw e, s')
           end.
Definition get {St} : M St St := fun s => (Ok s, s).
Definition put {St} (s : St) : M St unit := fun _ => (Ok tt, s).
Definition modify {St} (f : St -> St) : M St unit := fun s => (Ok tt, f s).
Definition lift {St A} (r : result A) : M St A := fun s => (r, s).

Notation "x <- c1 ;; c2" := (bind c1 (fun x => c2))
  (at level 100, c1 at next level, right associativity).
Notation "c1 ;;; c2" := (bind c1 (fun _ => c2))
  (at level 100, right associativity).

(** Monadic iteration over a vector, left to right. *)
Fixpoint forM_ {St A} (f : A -> M St unit) (l : list A) : M St unit :=
  match l with
  | [] => ret tt
  | x :: l' => f x ;;; forM_ f l'
  end.

(** ** Transactions (primitives/transaction.h) *)

Record COutPoint := mkOutPoint { hash : uint256; n : Z }.

Inductive CConfidentialValue :=
| ValueExplicit (a : CAmount)            (* CConfidentialValue(CAmount) *)
| ValueCommitment (vchCommitment : bytes). (* raw bytes; empty = null *)

Definition CConfidentialValue_null : CConfidentialValue := ValueCommitment [].

Definition value_IsNull (v : CConfidentialValue) : bool :=
  match v with ValueCommitment [] => true | _ => false end.

(** [GetAmount] is only called on explicit values in this file. *)
Definition value_GetAmount (v : CConfidentialValue) : CAmount :=
  match v with ValueExplicit a => a | ValueCommitment _ => 0 end.

Record CTxOut := mkTxOut {
  nAsset : option CAsset;               (* None: null asset *)
  nValue : CConfidentialValue;
  nNonce : bytes;                       (* nNonce.vchCommitment *)
  scriptPubKey : CScript
}.

(** CTxOut(): everything null. *)
Definition CTxOut_null : CTxOut := mkTxOut None CConfidentialValue_null [] [].

(** CTxOut(asset, amount, script): explicit asset and amount, null nonce. *)
Definition CTxOut_new (asset : CAsset) (amount : CAmount) (script : CScript) : CTxOut :=
  mkTxOut (Some asset) (ValueExplicit amount) [] script.

(** Constants of primitives/transaction.h, util/rbf.h, script/script.h and
    amount.h; line 191 gives MAX_BIP125_RBF_SEQUENCE as SEQUENCE_FINAL - 2. *)
Definition SEQUENCE_FINAL : Z := 0xffffffff.          (* CTxIn::SEQUENCE_FINAL *)
Definition MAX_BIP125_RBF_SEQUENCE : Z := SEQUENCE_FINAL - 2.
Definition LOCKTIME_MAX : Z := 0xffffffff.
Definition MAX_MONEY : CAmount := 21000000 * 100000000.

Record CTxIn := mkTxIn {
  prevout : COutPoint;
  scriptSig : CScript;
  nSequence : Z;
  m_is_pegin : bool
}.

(** CTxIn(prevout, scriptSig, nSequence): not a peg-in. *)
Definition CTxIn_new (p : COutPoint) (sig : CScript) (seq : Z) : CTxIn :=
  mkTxIn p sig seq false.

(** CTxIn(): null outpoint, empty script, final sequence. *)
Definition CTxIn_default : CTxIn :=
  CTxIn_new (mkOutPoint 0%N 0xffffffff) [] SEQUENCE_FINAL.

Record CTxInWitness := mkTxInWitness {
  vchIssuanceAmountRangeproof : bytes;
  vchInflationKeysRangeproof : bytes;
  scriptWitness : CScriptWitness;
  m_pegin_witness : CScriptWitness
}.

Definition CTxInWitness_default : CTxInWitness := mkTxInWitness [] [] [] [].

Definition is_empty {A} (l : list A) : bool :=
  match l with [] => true | _ => false end.

Record CMutableTransaction := mkTx {
  vin : list CTxIn;
  vout : list CTxOut;
  vtxinwit : list CTxInWitness;         (* witness.vtxinwit *)
  nLockTime : Z
}.

Definition CMutableTransaction_default : CMutableTransaction := mkTx [] [] [] 0.

Definition set_vin (f : list CTxIn -> list CTxIn) (tx : CMutableTransaction) :=
  mkTx (f (vin tx)) (vout tx) (vtxinwit tx) (nLockTime tx).
Definition set_vout (f : list CTxOut -> list CTxOut) (tx : CMutableTransaction) :=
  mkTx (vin tx) (f (vout tx)) (vtxinwit tx) (nLockTime tx).
Definition set_vtxinwit (f : list CTxInWitness -> list CTxInWitness) (tx : CMutableTransaction) :=
  mkTx (vin tx) (vout tx) (f (vtxinwit tx)) (nLockTime tx).
Definition set_nLockTime (t : Z) (tx : CMutableTransaction) :=
  mkTx (vin tx) (vout tx) (vtxinwit tx) t.

(** UINT32_MAX: the largest [uint32_t]. *)
Definition UINT32_MAX : Z := 0xffffffff.

(** [idx + 1] computed in [uint32_t]: 0 after 0xffffffff. *)
Definition uint32_succ (idx : nat) : nat := Z.to_nat ((Z.of_nat idx + 1) mod 2 ^ 32).

(** [if (v.size() <= idx) v.resize(idx + 1)] for a [uint32_t idx]: the vector
    grows to hold position [idx], except at 0xffffffff, where [idx + 1] is 0
    and a vector of at most 0xffffffff members is emptied. *)
Definition grow {A} (idx : nat) (d : A) (v : list A) : list A :=
  if (length v <=? idx)%nat then resize (uint32_succ idx) d v else v.

(** ** JSON values (univalue.h)

    A JSON object keeps its keys in insertion order and may hold a key more
    than once ([pushKVs] does not deduplicate), so it is an association
    list. *)

#[warnings="-register-all"]
Inductive UniValue :=
| VNULL
| VOBJ (kvs : list (string * UniValue))
| VARR (vs : list UniValue)
| VSTR (s : string)
| VNUM (s : string)                     (* the number as written *)
| VBOOL (b : bool).

Inductive VType := T_VNULL | T_VOBJ | T_VARR | T_VSTR | T_VNUM | T_VBOOL.

Definition isNull (v : UniValue) : bool := match v with VNULL => true | _ => false end.
Definition isNum (v : UniValue) : bool := match v with VNUM _ => true | _ => false end.
Definition isObject (v : UniValue) : bool := match v with VOBJ _ => true | _ => false end.

(** findKey: the first entry with the key. *)
Fixpoint findKey (kvs : list (string * UniValue)) (key : string) : option UniValue :=
  match kvs with
  | [] => None
  | (k, v) :: rest => if decide (k = key) then Some v else findKey rest key
  end.

(** find_value(obj, name) and obj[name]: NullUniValue unless [obj] is an
    object holding the key. *)
Definition find_value (obj : UniValue) (name : string) : UniValue :=
  match obj with
  | VOBJ kvs => default VNULL (findKey kvs name)
  | _ => VNULL
  end.

Definition exists_key (obj : UniValue) (key : string) : bool :=
  match obj with
  | VOBJ kvs => bool_decide (is_Some (findKey kvs key))
  | _ => false
  end.

Definition get_obj (v : UniValue) : result UniValue :=
  match v with
  | VOBJ _ => Ok v
  | _ => Throw (runtime_error "JSON value is not an object as expected")
  end.

Definition get_array (v : UniValue) : result UniValue :=
  match v with
  | VARR _ => Ok v
  | _ => Throw (runtime_error "JSON value is not an array as expected")
  end.

Definition get_str (v : UniValue) : result string :=
  match v with
  | VSTR s => Ok s
  | _ => Throw (runtime_error "JSON value is not a string as expected")
  end.

Definition getValStr (v : UniValue) : string :=
  match v with
  | VSTR s | VNUM s => s
  | VBOOL true => "1"
  | _ => ""
  end.

(** The members of an array or object, in order; size() and operator[](i). *)
Definition values (v : UniValue) : list UniValue :=
  match v with
  | VOBJ kvs => kvs.*2
  | VARR vs => vs
  | _ => []
  end.

Definition getKeys (v : UniValue) : result (list string) :=
  match v with
  | VOBJ kvs => Ok (kvs.*1)
  | _ => Throw (runtime_error "JSON value is not an object as expected")
  end.

Definition getValues (v : UniValue) : result (list UniValue) :=
  match v with
  | VOBJ _ | VARR _ => Ok (values v)
  | _ => Throw (runtime_error "JSON value is not an object or array as expected")
  end.

(** pushKV: replaces the value of the first entry with the key, appends
    otherwise; no effect on a value that is not an object. *)
Fixpoint replace_or_append (kvs : list (string * UniValue)) (key : string) (val : UniValue) :=
  match kvs with
  | [] => [(key, val)]
  | (k, v) :: rest =>
      if decide (k = key) then (k, val) :: rest
      else (k, v) :: replace_or_append rest key val
  end.

Definition pushKV (key : string) (val : UniValue) (obj : UniValue) : UniValue :=
  match obj with
  | VOBJ kvs => VOBJ (replace_or_append kvs key val)
  | _ => obj
  end.

(** pushKVs: appends every entry of [src], whatever the keys already there. *)
Definition pushKVs (src : UniValue) (obj : UniValue) : UniValue :=
  match obj, src with
  | VOBJ kvs, VOBJ more => VOBJ (kvs ++ more)
  | _, _ => obj
  end.

Definition push_back (val : UniValue) (arr : UniValue) : UniValue :=
  match arr with
  | VARR vs => VARR (vs ++ [val])
  | _ => arr
  end.

Definition push_backV (vals : list UniValue) (arr : UniValue) : UniValue :=
  match arr with
  | VARR vs => VARR (vs ++ vals)
  | _ => arr
  end.

(** ** Collaborators *)

(** Script templates and destinations (script/standard.h, script/script.h,
    pegins.h, key_io.h, core_io.h). *)
Class ScriptServices := {
  CTxDestination : Type;
  CTxDestination_eq_dec :: EqDecision CTxDestination;
  CTxDestination_countable :: Countable CTxDestination;
  WitnessV0ScriptHash : CScript -> CTxDestination;
  ScriptHash : CScript -> CTxDestination;
  GetScriptForDestination : CTxDestination -> CScript;
  calculate_contract : CScript -> CScript -> CScript;
  IsPayToScriptHash : CScript -> bool;
  IsPayToWitnessScriptHash : CScript -> bool;
  (* IsWitnessProgram(version, program): the out-parameters when it holds *)
  IsWitnessProgram : CScript -> option (Z * bytes);
  ScriptToAsmStr : CScript -> string;
  (* CScript() << OP_RETURN, and script << data *)
  OP_RETURN_script : CScript;
  push_data : CScript -> bytes -> CScript;
  DecodeDestination : string -> CTxDestination;
  IsValidDestination : CTxDestination -> bool;
  IsBlindDestination : CTxDestination -> bool;
  GetDestinationBlindingKey : CTxDestination -> CPubKey;
  (* operator< of CScript, the order of std::set<CScript> *)
  CScript_lt : CScript -> CScript -> bool
}.

(** One parent-chain format: the template parameters [T_tx_ref] and
    [T_merkle_block] of [CreatePegInInputInner] with the operations used on
    them (primitives/bitcoin/, primitives/, pegins.h). *)
Class ParentChain := {
  T_tx : Type;
  T_merkle_block : Type;
  (* scriptPubKey of each member of txn.vout *)
  tx_vout : T_tx -> list CScript;
  tx_GetHash : T_tx -> uint256;
  (* ssTx >> txBTCRef; None when it throws *)
  decode_tx : bytes -> option T_tx;
  (* ssTxOutProof >> merkleBlock, with the bytes left in the stream *)
  decode_merkle_block : bytes -> option (T_merkle_block * bytes);
  (* merkleBlock.txn.ExtractMatches(txHashes, txIndices) *)
  ExtractMatches : T_merkle_block -> uint256 * list uint256 * list nat;
  hashMerkleRoot : T_merkle_block -> uint256;
  GetAmountFromParentChainPegin : T_tx -> nat -> option CAmount;
  CreatePeginWitness :
    CAmount -> CAsset -> uint256 -> CScript -> T_tx -> T_merkle_block -> CScriptWitness
}.

(** Chain state and consensus parameters (chainparams, pegins.h,
    validation.h), read once per call. *)
Class ChainServices := {
  (* GetValidFedpegScripts(tip, params, nextblock_validation) *)
  GetValidFedpegScripts : bool -> list (CScript * CScript);
  (* IsValidPeginWitness(witness, fedpegscripts, prevout, err, check_depth):
     the returned flag and the message left in [err] *)
  IsValidPeginWitness :
    CScriptWitness -> list (CScript * CScript) -> COutPoint -> bool -> bool * string;
  CTxInWitness_IsNull : CTxInWitness -> bool;
  pegged_asset : CAsset;
  parent_pegged_asset_hex : string;     (* parent_pegged_asset.GetHex() *)
  ParentGenesisBlockHash : uint256;
  ParentChainHasPow : bool;
  policyAsset : CAsset
}.

(** Parsers and printers of the RPC layer (rpc/util.h, core_io.h,
    util/strencodings.h). *)
Class RpcServices := {
  ParseInt32 : string -> option Z;
  ParseInt64 : string -> option Z;
  ParseHashO : UniValue -> string -> result uint256;
  ParseHexV : UniValue -> string -> result bytes;
  ParseHexO : UniValue -> string -> result bytes;
  ParseHex : string -> bytes;
  IsHex : string -> bool;
  AmountFromValue : UniValue -> result CAmount;
  RPCTypeCheckObj : UniValue -> list (string * VType) -> bool -> result unit;
  ParseSighashString : UniValue -> result Z;
  EncodeHexTx : CMutableTransaction -> string;
  HexStr : bytes -> string;
  uint256_ToString : uint256 -> string;
  CTxOut_ToString : CTxOut -> string;
  itostr : Z -> string
}.

(** get_int / get_int64: the value must be a number that parses. *)
Definition get_int `{RpcServices} (v : UniValue) : result Z :=
  match v with
  | VNUM s =>
      match ParseInt32 s with
      | Some i => Ok i
      | None => Throw (runtime_error "JSON integer out of range")
      end
  | _ => Throw (runtime_error "JSON value is not an integer as expected")
  end.

Definition get_int64 `{RpcServices} (v : UniValue) : result Z :=
  match v with
  | VNUM s =>
      match ParseInt64 s with
      | Some i => Ok i
      | None => Throw (runtime_error "JSON integer out of range")
      end
  | _ => Throw (runtime_error "JSON value is not an integer as expected")
  end.

(** ** std::set<CScript>

    The set is the list of its members in iteration order, which is the
    ascending order of [CScript_lt]; [insert] keeps that order and drops a
    script already present. *)

Fixpoint std_set_insert `{ScriptServices} (x : CScript) (s : list CScript) : list CScript :=
  match s with
  | [] => [x]
  | y :: rest =>
      if CScript_lt x y then x :: y :: rest
      else if CScript_lt y x then y :: std_set_insert x rest
      else y :: rest
  end.

(** The set a caller obtains by inserting [scripts] one after the other. *)
Definition std_set_of `{ScriptServices} (scripts : list CScript) : list CScript :=
  foldl (fun s x => std_set_insert x s) [] scripts.

(** ** The claim matcher *)

Section ClaimMatcher.
Context `{SS : ScriptServices} `{PC : ParentChain}.

(** Lines 31-34: the script a configuration expects on the parent chain. *)
Definition mainchain_script_of (scripts : CScript * CScript) (witnessProgram : CScript) : CScript :=
  let mainchain_script :=
    GetScriptForDestination (WitnessV0ScriptHash (calculate_contract (snd scripts) witnessProgram)) in
  if IsPayToScriptHash (fst scripts)
  then GetScriptForDestination (ScriptHash mainchain_script)
  else mainchain_script.

(** Lines 35-39: the inner scan, [nOut] counting up from its start value;
    [None] when the scan falls through. *)
Fixpoint scan_outputs (spks : list CScript) (mainchain_script : CScript) (nOut : nat) : option nat :=
  match spks with
  | [] => None
  | spk :: rest =>
      if decide (spk = mainchain_script) then Some nOut
      else scan_outputs rest mainchain_script (S nOut)
  end.

(** [GetPeginTxnOutputIndex]: the loop over the configurations, the
    output count when it falls through. *)
Fixpoint GetPeginTxnOutputIndex (txn : T_tx) (witnessProgram : CScript)
    (fedpegscripts : list (CScript * CScript)) : nat :=
  match fedpegscripts with
  | [] => length (tx_vout txn)
  | scripts :: rest =>
      match scan_outputs (tx_vout txn) (mainchain_script_of scripts witnessProgram) 0 with
      | Some nOut => nOut
      | None => GetPeginTxnOutputIndex txn witnessProgram rest
      end
  end.

End ClaimMatcher.

(** ** The peg-in input builder *)

Definition throw_if {St} (b : bool) (e : exn) : M St unit :=
  if b then throw e else ret tt.

Definition unwrap {St A} (o : option A) (e : exn) : M St A :=
  match o with Some a => ret a | None => throw e end.

(** [~(uint32_t)0] *)
Definition uint32_all_ones : Z := Z.lnot 0 mod 2 ^ 32.

(** The check that [v[idx]] is a member of the vector [v] of the state:
    [operator[]] does not check, and past the end nothing is defined. *)
Definition check_index {St A} (v : St -> list A) (idx : nat) : M St unit :=
  s <- get ;;
  throw_if (length (v s) <=? idx)%nat undefined_behaviour.

Section PegInInput.
Context `{SS : ScriptServices} `{PC : ParentChain} `{CS : ChainServices}.

(** Line 48: the target input already carries a scriptSig or a witness. *)
Definition input_in_use (mtx : CMutableTransaction) (input_idx : nat) : bool :=
  match vin mtx !! input_idx with
  | Some txin => negb (is_empty (scriptSig txin))
  | None => false
  end
  || match vtxinwit mtx !! input_idx with
     | Some txinwit => negb (CTxInWitness_IsNull txinwit)
     | None => false
     end.

(** Lines 83-89: the loop over [claim_scripts] in the set's iteration order,
    returning the final [nOut] and [witness_script]. *)
Fixpoint claim_loop (txn : T_tx) (fedpegscripts : list (CScript * CScript))
    (claim_scripts : list CScript) (nOut : nat) (witness_script : CScript) : nat * CScript :=
  match claim_scripts with
  | [] => (nOut, witness_script)
  | script :: rest =>
      let nOut' := GetPeginTxnOutputIndex txn script fedpegscripts in
      if decide (nOut' ≠ length (tx_vout txn)) then (nOut', script)
      else claim_loop txn fedpegscripts rest nOut' witness_script
  end.

Definition set_is_pegin (b : bool) (txin : CTxIn) : CTxIn :=
  mkTxIn (prevout txin) (scriptSig txin) (nSequence txin) b.

(** [CreatePegInInputInner]: the state is [mtx]; the value returned on
    success holds the out-parameters [txBTCRef] and [merkleBlock]. The set
    [claim_scripts] is passed as the list of its members in iteration
    order. *)
Definition CreatePegInInputInner (input_idx : nat) (claim_scripts : list CScript)
    (txData txOutProofData : bytes) : M CMutableTransaction (T_tx * T_merkle_block) :=
  mtx <- get ;;
  throw_if (input_in_use mtx input_idx)
    (JSONRPCError RPC_INVALID_PARAMETER
       "Attempting to add a peg-in to an input that already has a scriptSig or witness") ;;;
  txBTCRef <- unwrap (decode_tx txData)
    (JSONRPCError RPC_TYPE_ERROR
       "The included bitcoinTx is malformed. Are you sure that is the whole string?") ;;
  decoded <- unwrap (decode_merkle_block txOutProofData)
    (JSONRPCError RPC_TYPE_ERROR
       "The included txoutproof is malformed. Are you sure that is the whole string?") ;;
  let merkleBlock := fst decoded in
  let ssTxOutProof := snd decoded in
  throw_if (negb (is_empty ssTxOutProof))
    (JSONRPCError RPC_INVALID_PARAMETER "Invalid tx out proof") ;;;
  let root := fst (fst (ExtractMatches merkleBlock)) in
  let txHashes := snd (fst (ExtractMatches merkleBlock)) in
  throw_if (bool_decide (root ≠ hashMerkleRoot merkleBlock))
    (JSONRPCError RPC_INVALID_PARAMETER "Invalid tx out proof") ;;;
  throw_if (bool_decide (length txHashes ≠ 1%nat)
            || bool_decide (head txHashes ≠ Some (tx_GetHash txBTCRef)))
    (JSONRPCError RPC_INVALID_PARAMETER
       "The txoutproof must contain bitcoinTx and only bitcoinTx") ;;;
  let fedpegscripts := GetValidFedpegScripts true in
  let found := claim_loop txBTCRef fedpegscripts claim_scripts (length (tx_vout txBTCRef)) [] in
  let nOut := fst found in
  let witness_script := snd found in
  throw_if (bool_decide (nOut = length (tx_vout txBTCRef)))
    (if bool_decide (length claim_scripts = 1%nat)
     then JSONRPCError RPC_INVALID_PARAMETER
            "Given claim_script does not match the given Bitcoin transaction."
     else JSONRPCError RPC_INVALID_PARAMETER
            "Failed to find output in bitcoinTx to the mainchain_address from getpeginaddress") ;;;
  throw_if (bool_decide (witness_script = [])) NonFatalCheckError ;;;
  throw_if (match IsWitnessProgram witness_script with
            | Some (version, _) => bool_decide (version ≠ 0)
            | None => true
            end)
    (JSONRPCError RPC_INVALID_PARAMETER "Given or recovered script is not a v0 witness program.") ;;;
  value <- unwrap (GetAmountFromParentChainPegin txBTCRef nOut)
    (JSONRPCError RPC_INVALID_PARAMETER
       ("Amounts to pegin must be explicit and asset must be " +:+ parent_pegged_asset_hex)) ;;
  (* Add/replace input in mtx *)
  let new_prevout := mkOutPoint (default 0%N (head txHashes)) (Z.of_nat nOut) in
  modify (set_vin (grow input_idx CTxIn_default)) ;;;
  check_index vin input_idx ;;;
  modify (set_vin (<[input_idx := CTxIn_new new_prevout [] uint32_all_ones]>)) ;;;
  (* Construct pegin proof *)
  let pegin_witness :=
    CreatePeginWitness value pegged_asset ParentGenesisBlockHash witness_script txBTCRef merkleBlock in
  let checked := IsValidPeginWitness pegin_witness fedpegscripts new_prevout false in
  throw_if (negb (fst checked))
    (JSONRPCError RPC_INVALID_PARAMETER
       ("Constructed peg-in witness is invalid: " +:+ snd checked)) ;;;
  (* Put input witness in transaction *)
  modify (set_vin (alter (set_is_pegin true) input_idx)) ;;;
  let txinwit := mkTxInWitness [] [] [] pegin_witness in
  modify (set_vtxinwit (grow input_idx CTxInWitness_default)) ;;;
  check_index vtxinwit input_idx ;;;
  modify (set_vtxinwit (<[input_idx := txinwit]>)) ;;;
  ret (txBTCRef, merkleBlock).

(** Both overloads of [CreatePegInInput] forward to the template, one per
    parent-chain format. *)
Definition CreatePegInInput := CreatePegInInputInner.

End PegInInput.

(** ** The transaction constructor *)

(** Modelled from the spec: [SignalsOptInRBF] (util/rbf.h) is not under src/.
    The spec has the final check "verify that the final sequence numbers
    actually signal opt-in replaceability", with "all sequence numbers at
    final is rejected" and "any sequence number below final-minus-one is
    accepted": some input has a sequence number of at most
    [MAX_BIP125_RBF_SEQUENCE], which line 191 gives as SEQUENCE_FINAL - 2. *)
Definition SignalsOptInRBF (tx : CMutableTransaction) : bool :=
  existsb (fun txin => nSequence txin <=? MAX_BIP125_RBF_SEQUENCE) (vin tx).

(** The two instantiations of the peg-in builder and the header check that
    follows each (block_proof.h, pegins.h). *)
Class ParentChains := {
  bitcoin_chain : ParentChain;  (* Sidechain::Bitcoin::CTransactionRef, CMerkleBlock *)
  native_chain : ParentChain;   (* CTransactionRef, CMerkleBlock *)
  (* CheckParentProofOfWork(header.GetHash(), header.nBits, params) *)
  CheckParentProofOfWork : @T_merkle_block bitcoin_chain -> bool;
  (* CheckProofSignedParent(header, params) *)
  CheckProofSignedParent : @T_merkle_block native_chain -> bool
}.

(** Monadic iteration with the position, as [for (idx = 0; idx < size; idx++)]. *)
Fixpoint for_idx {St A} (f : nat -> A -> M St unit) (idx : nat) (l : list A) : M St unit :=
  match l with
  | [] => ret tt
  | x :: l' => f idx x ;;; for_idx f (S idx) l'
  end.

Section Constructor.
Context `{SS : ScriptServices} `{CS : ChainServices} `{RS : RpcServices} `{PCS : ParentChains}.

(** The locals of [ConstructTransaction] that its loops update, with the
    caller's vector behind [output_pubkeys_out] ([None]: a null pointer). *)
Record CtState := mkCt {
  rawTx : CMutableTransaction;
  output_pubkeys_out : option (list CPubKey);
  fee_out : CTxOut;
  destinations : gset CTxDestination;
  has_data : bool
}.

Definition set_rawTx (f : CMutableTransaction -> CMutableTransaction) (s : CtState) : CtState :=
  mkCt (f (rawTx s)) (output_pubkeys_out s) (fee_out s) (destinations s) (has_data s).
Definition set_fee_out (o : CTxOut) (s : CtState) : CtState :=
  mkCt (rawTx s) (output_pubkeys_out s) o (destinations s) (has_data s).
Definition set_destinations (d : gset CTxDestination) (s : CtState) : CtState :=
  mkCt (rawTx s) (output_pubkeys_out s) (fee_out s) d (has_data s).
Definition set_has_data (b : bool) (s : CtState) : CtState :=
  mkCt (rawTx s) (output_pubkeys_out s) (fee_out s) (destinations s) b.

(** rawTx.vout.push_back(out) *)
Definition push_vout (out : CTxOut) : M CtState unit :=
  modify (set_rawTx (set_vout (fun v => v ++ [out]))).

(** if (output_pubkeys_out) output_pubkeys_out->push_back(key) *)
Definition push_pubkey (key : CPubKey) : M CtState unit :=
  modify (fun s => mkCt (rawTx s) ((fun v => v ++ [key]) <$> output_pubkeys_out s)
                     (fee_out s) (destinations s) (has_data s)).

(** Runs a computation on [rawTx] (passed by reference to the callee). *)
Definition on_rawTx {A} (c : M CMutableTransaction A) : M CtState A :=
  fun s => let r := c (rawTx s) in (fst r, set_rawTx (fun _ => snd r) s).

(** Lines 189-196. *)
Definition default_nSequence (rbf : bool) (nLockTime : Z) : Z :=
  if rbf then MAX_BIP125_RBF_SEQUENCE
  else if bool_decide (nLockTime ≠ 0) then SEQUENCE_FINAL - 1
  else SEQUENCE_FINAL.

(** Lines 189-207: the sequence number of the input described by [o]. *)
Definition input_nSequence (rbf : bool) (nLockTime : Z) (o : UniValue) : result Z :=
  let nSequence := default_nSequence rbf nLockTime in
  let sequenceObj := find_value o "sequence" in
  if isNum sequenceObj then
    match get_int64 sequenceObj with
    | Ok seqNr64 =>
        if (seqNr64 <? 0) || (SEQUENCE_FINAL <? seqNr64)
        then Throw (JSONRPCError RPC_INVALID_PARAMETER
                      "Invalid parameter, sequence number is out of range")
        else Ok (seqNr64 mod 2 ^ 32)     (* (uint32_t)seqNr64 *)
    | Throw e => Throw e
    end
  else Ok nSequence.

(** Lines 212-246: the peg-in fields of input [idx]. *)
Definition ConstructTransaction_pegin (allow_peg_in : bool) (idx : nat) (o : UniValue)
    : M CMutableTransaction unit :=
  let pegin_tx := find_value o "pegin_bitcoin_tx" in
  let pegin_tx_proof := find_value o "pegin_txout_proof" in
  let pegin_script := find_value o "pegin_claim_script" in
  if negb (isNull pegin_tx) && negb (isNull pegin_tx_proof) && negb (isNull pegin_script)
     && allow_peg_in then
    script_hex <- lift (get_str pegin_script) ;;
    throw_if (negb (IsHex script_hex))
      (JSONRPCError RPC_INVALID_PARAMETER "Given claim_script is not hex.") ;;;
    let claim_script : CScript := ParseHex script_hex in
    let claim_scripts := std_set_insert claim_script [] in
    if ParentChainHasPow then
      tx_hex <- lift (get_str pegin_tx) ;;
      proof_hex <- lift (get_str pegin_tx_proof) ;;
      decoded <- CreatePegInInput (PC := bitcoin_chain) idx claim_scripts
                   (ParseHex tx_hex) (ParseHex proof_hex) ;;
      throw_if (negb (CheckParentProofOfWork (snd decoded)))
        (JSONRPCError RPC_INVALID_PARAMETER "Invalid tx out proof")
    else
      tx_hex <- lift (get_str pegin_tx) ;;
      proof_hex <- lift (get_str pegin_tx_proof) ;;
      decoded <- CreatePegInInput (PC := native_chain) idx claim_scripts
                   (ParseHex tx_hex) (ParseHex proof_hex) ;;
      throw_if (negb (CheckProofSignedParent (snd decoded)))
        (JSONRPCError RPC_INVALID_PARAMETER "Invalid tx out proof")
  else if negb (isNull pegin_tx) || negb (isNull pegin_tx_proof) || negb (isNull pegin_script) then
    if allow_peg_in
    then throw (JSONRPCError RPC_INVALID_PARAMETER "Some but not all pegin_ arguments provided")
    else throw (JSONRPCError RPC_INVALID_PARAMETER
                  "pegin_ arguments provided but this command does not support peg-ins")
  else ret tt.

(** Lines 177-246: one turn of the loop over the inputs. *)
Definition ConstructTransaction_input (rbf allow_peg_in : bool) (idx : nat) (input : UniValue)
    : M CMutableTransaction unit :=
  o <- lift (get_obj input) ;;
  txid <- lift (ParseHashO o "txid") ;;
  let vout_v := find_value o "vout" in
  throw_if (negb (isNum vout_v))
    (JSONRPCError RPC_INVALID_PARAMETER "Invalid parameter, missing vout key") ;;;
  nOutput <- lift (get_int vout_v) ;;
  throw_if (nOutput <? 0)
    (JSONRPCError RPC_INVALID_PARAMETER "Invalid parameter, vout cannot be negative") ;;;
  rawTx <- get ;;
  nSequence <- lift (input_nSequence rbf (nLockTime rawTx) o) ;;
  let txin := CTxIn_new (mkOutPoint txid nOutput) [] nSequence in
  modify (set_vin (fun v => v ++ [txin])) ;;;
  (* Get the pegin stuff if it's there *)
  ConstructTransaction_pegin allow_peg_in idx o.

(** Lines 249-263: an array of single-key objects becomes one object. *)
Fixpoint translate_outputs (outputs : list UniValue) (outputs_dict : UniValue) : result UniValue :=
  match outputs with
  | [] => Ok outputs_dict
  | output :: rest =>
      if negb (isObject output) then
        Throw (JSONRPCError RPC_INVALID_PARAMETER
                 "Invalid parameter, key-value pair not an object as expected")
      else if bool_decide (length (values output) ≠ 1%nat) then
        Throw (JSONRPCError RPC_INVALID_PARAMETER
                 "Invalid parameter, key-value pair must contain exactly one key")
      else translate_outputs rest (pushKVs output outputs_dict)
  end.

(** Lines 274-279: the asset of the output named [name_]. *)
Definition output_asset (assets : UniValue) (name_ : string) : result CAsset :=
  if negb (isNull assets) && negb (isNull (find_value assets name_))
  then ParseHashO assets name_
  else Ok policyAsset.

(** Lines 296-300: the pushes of a vdata script. *)
Fixpoint vdata_pushes (vdata : list UniValue) (datascript : CScript) : result CScript :=
  match vdata with
  | [] => Ok datascript
  | v :: rest =>
      match get_str v with
      | Ok s =>
          match ParseHexV (VSTR s) "Data" with
          | Ok data => vdata_pushes rest (push_data datascript data)
          | Throw e => Throw e
          end
      | Throw e => Throw e
      end
  end.

(** Lines 271-346: one turn of the loop over the output keys. *)
Definition ConstructTransaction_output (outputs assets : UniValue) (name_ : string)
    : M CtState unit :=
  asset <- lift (output_asset assets name_) ;;
  if decide (name_ = "data") then
    s <- get ;;
    throw_if (has_data s)
      (JSONRPCError RPC_INVALID_PARAMETER "Invalid parameter, duplicate key: data") ;;;
    modify (set_has_data true) ;;;
    data <- lift (ParseHexV (VSTR (getValStr (find_value outputs name_))) "Data") ;;
    push_vout (CTxOut_new asset 0 (push_data OP_RETURN_script data)) ;;;
    push_pubkey []
  else if decide (name_ = "vdata") then
    vdata <- lift (get_array (find_value outputs name_)) ;;
    datascript <- lift (vdata_pushes (values vdata) OP_RETURN_script) ;;
    push_vout (CTxOut_new asset 0 datascript) ;;;
    push_pubkey []
  else if decide (name_ = "fee") then
    nAmount <- lift (AmountFromValue (find_value outputs name_)) ;;
    modify (set_fee_out (CTxOut_new asset nAmount []))
  else if decide (name_ = "burn") then
    nAmount <- lift (AmountFromValue (find_value outputs name_)) ;;
    push_vout (CTxOut_new asset nAmount OP_RETURN_script) ;;;
    push_pubkey []
  else
    let destination := DecodeDestination name_ in
    throw_if (negb (IsValidDestination destination))
      (JSONRPCError RPC_INVALID_ADDRESS_OR_KEY ("Invalid Bitcoin address: " +:+ name_)) ;;;
    s <- get ;;
    throw_if (bool_decide (destination ∈ destinations s))
      (JSONRPCError RPC_INVALID_PARAMETER ("Invalid parameter, duplicated address: " +:+ name_)) ;;;
    modify (set_destinations ({[destination]} ∪ destinations s)) ;;;
    let scriptPubKey := GetScriptForDestination destination in
    nAmount <- lift (AmountFromValue (find_value outputs name_)) ;;
    let out := CTxOut_new asset nAmount scriptPubKey in
    let blind := IsBlindDestination destination in
    let blind_pub : CPubKey := if blind then GetDestinationBlindingKey destination else [] in
    let out :=
      if blind && bool_decide (output_pubkeys_out s = None)
      then mkTxOut (nAsset out) (nValue out) blind_pub (scriptPubKey)
      else out in
    push_vout out ;;;
    push_pubkey blind_pub.

(** Lines 348-354. *)
Definition append_fee_output : M CtState unit :=
  s <- get ;;
  if negb (value_IsNull (nValue (fee_out s))) && (0 <? value_GetAmount (nValue (fee_out s))) then
    push_vout (fee_out s) ;;;
    push_pubkey []
  else ret tt.

(** Lines 148-354: everything before the replaceability check. *)
Definition ConstructTransaction_build (inputs_in outputs_in locktime : UniValue) (rbf : bool)
    (assets_in : UniValue) (allow_peg_in : bool) : M CtState unit :=
  throw_if (isNull outputs_in)
    (JSONRPCError RPC_INVALID_PARAMETER "Invalid parameter, output argument must be non-null") ;;;
  inputs <- lift (if isNull inputs_in then Ok (VARR []) else get_array inputs_in) ;;
  let outputs_is_obj := isObject outputs_in in
  outputs <- lift (if outputs_is_obj then get_obj outputs_in else get_array outputs_in) ;;
  (if negb (isNull locktime) then
     nLockTime <- lift (get_int64 locktime) ;;
     throw_if ((nLockTime <? 0) || (LOCKTIME_MAX <? nLockTime))
       (JSONRPCError RPC_INVALID_PARAMETER "Invalid parameter, locktime out of range") ;;;
     modify (set_rawTx (set_nLockTime (nLockTime mod 2 ^ 32)))
   else ret tt) ;;;
  assets <- lift (if negb (isNull assets_in) then get_obj assets_in else Ok VNULL) ;;
  on_rawTx (for_idx (ConstructTransaction_input rbf allow_peg_in) 0 (values inputs)) ;;;
  outputs <- lift (if outputs_is_obj then Ok outputs
                   else translate_outputs (values outputs) (VOBJ [])) ;;
  keys <- lift (getKeys outputs) ;;
  forM_ (ConstructTransaction_output outputs assets) keys ;;;
  (* Add fee output in the end. *)
  append_fee_output.

(** Lines 356-360. *)
Definition ConstructTransaction_finish (rbf : bool) : M CtState CMutableTransaction :=
  s <- get ;;
  throw_if (rbf && (0 <? length (vin (rawTx s)))%nat && negb (SignalsOptInRBF (rawTx s)))
    (JSONRPCError RPC_INVALID_PARAMETER
       "Invalid parameter combination: Sequence number(s) contradict replaceable option") ;;;
  ret (rawTx s).

Definition CtState_init (output_pubkeys_out : option (list CPubKey)) : CtState :=
  mkCt CMutableTransaction_default output_pubkeys_out CTxOut_null ∅ false.

(** [ConstructTransaction]: the returned transaction or the exception, and
    the caller's vector behind the pointer [output_pubkeys_out] afterwards. *)
Definition ConstructTransaction (inputs_in outputs_in locktime : UniValue) (rbf : bool)
    (assets_in : UniValue) (pubkeys_out : option (list CPubKey)) (allow_peg_in : bool)
    : result CMutableTransaction * option (list CPubKey) :=
  let r := (ConstructTransaction_build inputs_in outputs_in locktime rbf assets_in allow_peg_in ;;;
            ConstructTransaction_finish rbf) (CtState_init pubkeys_out) in
  (fst r, output_pubkeys_out (snd r)).

End Constructor.

(** ** Coins and signing (coins.h, script/sign.h, script/signingprovider.h) *)

Record Coin := mkCoin { out : CTxOut; fCoinBase : bool; nHeight : Z }.

#[global] Instance COutPoint_eq_decision : EqDecision COutPoint.
Proof. solve_decision. Defined.

#[global] Instance COutPoint_countable : Countable COutPoint :=
  inj_countable' (fun p => (hash p, n p)) (fun '(h, i) => mkOutPoint h i)
    (fun p => match p with mkOutPoint _ _ => eq_refl end).

Class SigningServices := {
  Keystore : Type;                      (* FillableSigningProvider *)
  AddCScript : Keystore -> CScript -> Keystore;
  Coin_IsSpent : Coin -> bool;
  (* SignTransaction(mtx, keystore, coins, nHashType, input_errors): the
     completeness flag, with [mtx] and [input_errors] afterwards *)
  SignTransaction_sign :
    CMutableTransaction -> option Keystore -> gmap COutPoint Coin -> Z -> gmap Z string ->
    bool * CMutableTransaction * gmap Z string
}.

(** coin.out.scriptPubKey *)
Definition coin_scriptPubKey (coin : Coin) : CScript := scriptPubKey (out coin).

Definition newline : string := String (Ascii.ascii_of_nat 10) EmptyString.
Definition dquote : string := String (Ascii.ascii_of_nat 34) EmptyString.

Section Prevouts.
Context `{SS : ScriptServices} `{RS : RpcServices} `{SG : SigningServices}.

(** Lines 411-430: the coin of [out] is checked against [scriptPubKey], then
    recorded. *)
Definition ParsePrevouts_coin (out : COutPoint) (scriptPubKey : CScript) (prevOut : UniValue)
    : M (gmap COutPoint Coin) unit :=
  coins <- get ;;
  match coins !! out with
  | Some coin =>
      throw_if (negb (Coin_IsSpent coin)
                && bool_decide (coin_scriptPubKey coin ≠ scriptPubKey))
        (JSONRPCError RPC_DESERIALIZATION_ERROR
           ("Previous output scriptPubKey mismatch:" +:+ newline
            +:+ ScriptToAsmStr (coin_scriptPubKey coin)
            +:+ newline +:+ "vs:" +:+ newline +:+ ScriptToAsmStr scriptPubKey))
  | None => ret tt
  end ;;;
  nValue <- lift (if exists_key prevOut "amount" then
                    match AmountFromValue (find_value prevOut "amount") with
                    | Ok a => Ok (ValueExplicit a)
                    | Throw e => Throw e
                    end
                  else if exists_key prevOut "amountcommitment" then
                    (* Segwit sigs require the amount commitment to be sighashed *)
                    match ParseHexO prevOut "amountcommitment" with
                    | Ok c => Ok (ValueCommitment c)
                    | Throw e => Throw e
                    end
                  else Ok (ValueExplicit MAX_MONEY)) ;;
  let newcoin := mkCoin (mkTxOut None nValue [] scriptPubKey) false 1 in
  modify (<[out := newcoin]>).

Record PrevoutsState := mkPrevouts {
  keystore : option Keystore;           (* None: a null pointer *)
  coins : gmap COutPoint Coin
}.

Definition on_coins {A} (c : M (gmap COutPoint Coin) A) : M PrevoutsState A :=
  fun s => let r := c (coins s) in (fst r, mkPrevouts (keystore s) (snd r)).

(** keystore->AddCScript(script) *)
Definition add_script (script : CScript) : M PrevoutsState unit :=
  modify (fun s => mkPrevouts ((fun k => AddCScript k script) <$> keystore s) (coins s)).

(** Lines 436-499: redeemScript and witnessScript of a script-hash output. *)
Definition ParsePrevouts_scripts (scriptPubKey : CScript) (is_p2sh is_p2wsh : bool) (prevOut : UniValue)
    : M PrevoutsState unit :=
  lift (RPCTypeCheckObj prevOut [("redeemScript"%string, T_VSTR); ("witnessScript"%string, T_VSTR)] true) ;;;
  let rs := find_value prevOut "redeemScript" in
  let ws := find_value prevOut "witnessScript" in
  throw_if (isNull rs && isNull ws)
    (JSONRPCError RPC_INVALID_PARAMETER "Missing redeemScript/witnessScript") ;;;
  (* work from witnessScript when possible *)
  script <- lift (if negb (isNull ws) then ParseHexV ws "witnessScript"
                  else ParseHexV rs "redeemScript") ;;
  add_script script ;;;
  let witness_output_script := GetScriptForDestination (WitnessV0ScriptHash script) in
  add_script witness_output_script ;;;
  (if negb (isNull ws) && negb (isNull rs) then
     ws_str <- lift (get_str ws) ;;
     rs_str <- lift (get_str rs) ;;
     if bool_decide (ws_str ≠ rs_str) then
       redeemScript <- lift (ParseHexV rs "redeemScript") ;;
       throw_if (bool_decide (redeemScript ≠ witness_output_script))
         (JSONRPCError RPC_INVALID_PARAMETER "redeemScript does not correspond to witnessScript")
     else ret tt
   else ret tt) ;;;
  if is_p2sh then
    if decide (scriptPubKey = GetScriptForDestination (ScriptHash script)) then ret tt
    else if decide (scriptPubKey = GetScriptForDestination (ScriptHash witness_output_script))
    then ret tt
    else throw (JSONRPCError RPC_INVALID_PARAMETER
                  "redeemScript/witnessScript does not match scriptPubKey")
  else if is_p2wsh then
    throw_if (bool_decide (scriptPubKey ≠ GetScriptForDestination (WitnessV0ScriptHash script)))
      (JSONRPCError RPC_INVALID_PARAMETER
         "redeemScript/witnessScript does not match scriptPubKey")
  else ret tt.

(** Lines 386-500: one previous-output record. *)
Definition ParsePrevouts_record (p : UniValue) : M PrevoutsState unit :=
  throw_if (negb (isObject p))
    (JSONRPCError RPC_DESERIALIZATION_ERROR
       ("expected object with {" +:+ dquote +:+ "txid'" +:+ dquote +:+ "," +:+ dquote +:+ "vout"
        +:+ dquote +:+ "," +:+ dquote +:+ "scriptPubKey" +:+ dquote +:+ "}")) ;;;
  prevOut <- lift (get_obj p) ;;
  lift (RPCTypeCheckObj prevOut
          [("txid"%string, T_VSTR); ("vout"%string, T_VNUM); ("scriptPubKey"%string, T_VSTR)]
          false) ;;;
  txid <- lift (ParseHashO prevOut "txid") ;;
  nOut <- lift (get_int (find_value prevOut "vout")) ;;
  throw_if (nOut <? 0) (JSONRPCError RPC_DESERIALIZATION_ERROR "vout cannot be negative") ;;;
  let out := mkOutPoint txid nOut in
  scriptPubKey <- lift (ParseHexO prevOut "scriptPubKey") ;;
  on_coins (ParsePrevouts_coin out scriptPubKey prevOut) ;;;
  (* if redeemScript and private keys were given, add redeemScript to the keystore *)
  let is_p2sh := IsPayToScriptHash scriptPubKey in
  let is_p2wsh := IsPayToWitnessScriptHash scriptPubKey in
  s <- get ;;
  if bool_decide (is_Some (keystore s)) && (is_p2sh || is_p2wsh)
  then ParsePrevouts_scripts scriptPubKey is_p2sh is_p2wsh prevOut
  else ret tt.

Definition ParsePrevouts (prevTxsUnival : UniValue) : M PrevoutsState unit :=
  if negb (isNull prevTxsUnival) then
    prevTxs <- lift (get_array prevTxsUnival) ;;
    forM_ ParsePrevouts_record (values prevTxs)
  else ret tt.

End Prevouts.

(** ** The signing orchestrator *)

(** v.at(idx) with an [int] index: a negative one converts to a position
    past the end. *)
Definition vector_at {A} (v : list A) (idx : Z) : option A :=
  if idx <? 0 then None else v !! Z.to_nat idx.

(** The entries of a std::map<int, std::string> in iteration order:
    ascending keys. *)
Definition entry_le (a b : Z * string) : Prop := a.1 ≤ b.1.

#[global] Instance entry_le_dec : RelDecision entry_le.
Proof. intros a b. unfold entry_le. apply _. Defined.

Definition map_entries (m : gmap Z string) : list (Z * string) :=
  merge_sort entry_le (map_to_list m).

Section Signing.
Context `{SS : ScriptServices} `{CS : ChainServices} `{RS : RpcServices} `{SG : SigningServices}.

(** Lines 512-524: the loop of [ValidateTransactionPeginInputs] from input
    [i] on; the state is [input_errors]. *)
Fixpoint validate_pegin_loop (mtx : CMutableTransaction) (fedpegscripts : list (CScript * CScript))
    (i : nat) (ins : list CTxIn) (immature_pegin : bool) : M (gmap Z string) bool :=
  match ins with
  | [] => ret immature_pegin
  | txin :: rest =>
      if m_is_pegin txin then
        match vtxinwit mtx !! i with
        | None =>
            modify (<[Z.of_nat i := "Peg-in input has invalid proof."%string]>) ;;;
            validate_pegin_loop mtx fedpegscripts (S i) rest immature_pegin
        | Some txinwit =>
            if negb (fst (IsValidPeginWitness (m_pegin_witness txinwit) fedpegscripts
                            (prevout txin) false)) then
              modify (<[Z.of_nat i := "Peg-in input has invalid proof."%string]>) ;;;
              validate_pegin_loop mtx fedpegscripts (S i) rest immature_pegin
            else
              (* Report warning about immature peg-in though *)
              let checked := IsValidPeginWitness (m_pegin_witness txinwit) fedpegscripts
                               (prevout txin) true in
              if negb (fst checked) then
                throw_if (bool_decide (snd checked ≠ "Needs more confirmations."%string))
                  NonFatalCheckError ;;;
                validate_pegin_loop mtx fedpegscripts (S i) rest true
              else validate_pegin_loop mtx fedpegscripts (S i) rest immature_pegin
        end
      else validate_pegin_loop mtx fedpegscripts (S i) rest immature_pegin
  end.

Definition ValidateTransactionPeginInputs (mtx : CMutableTransaction) : M (gmap Z string) bool :=
  validate_pegin_loop mtx (GetValidFedpegScripts true) 0 (vin mtx) false.

(** [TxInErrorToJSON]: the array [vErrorsRet] with one more entry. *)
Definition TxInErrorToJSON (txin : CTxIn) (txinwit : CTxInWitness) (vErrorsRet : UniValue)
    (strMessage : string) : UniValue :=
  let entry := VOBJ [] in
  let entry := pushKV "txid" (VSTR (uint256_ToString (hash (prevout txin)))) entry in
  let entry := pushKV "vout" (VNUM (itostr (n (prevout txin)))) entry in
  let witness :=
    foldl (fun w item => push_back (VSTR (HexStr item)) w) (VARR []) (scriptWitness txinwit) in
  let entry := pushKV "witness" witness entry in
  let entry := pushKV "scriptSig" (VSTR (HexStr (scriptSig txin))) entry in
  let entry := pushKV "sequence" (VNUM (itostr (nSequence txin))) entry in
  let entry := pushKV "error" (VSTR strMessage) entry in
  push_back entry vErrorsRet.

(** Lines 544-550: the loop over [input_errors]. *)
Fixpoint errors_to_json (mtx : CMutableTransaction) (coins : gmap COutPoint Coin)
    (input_errors : list (Z * string)) (vErrors : UniValue) : result UniValue :=
  match input_errors with
  | [] => Ok vErrors
  | err_pair :: rest =>
      if decide (err_pair.2 = "Missing amount"%string) then
        (* This particular error needs to be an exception for some reason *)
        match vector_at (vin mtx) err_pair.1 with
        | None => Throw out_of_range
        | Some txin =>
            match coins !! prevout txin with
            | None => Throw out_of_range
            | Some coin =>
                Throw (JSONRPCError RPC_TYPE_ERROR
                         ("Missing amount for " +:+ CTxOut_ToString (out coin)))
            end
        end
      else
        match vector_at (vin mtx) err_pair.1, vector_at (vtxinwit mtx) err_pair.1 with
        | Some txin, Some txinwit =>
            errors_to_json mtx coins rest (TxInErrorToJSON txin txinwit vErrors err_pair.2)
        | _, _ => Throw out_of_range
        end
  end.

(** Lines 554-559: the errors are put into [result], after those already
    there. *)
Definition push_errors (vErrors : UniValue) : M UniValue unit :=
  if negb (is_empty (values vErrors)) then
    result <- get ;;
    vErrors <- (if exists_key result "errors" then
                  more <- lift (getValues (find_value result "errors")) ;;
                  ret (push_backV more vErrors)
                else ret vErrors) ;;
    modify (pushKV "errors" vErrors)
  else ret tt.

(** [SignTransactionResultToJSON]: the state is the object [result]. *)
Definition SignTransactionResultToJSON (mtx : CMutableTransaction) (complete : bool)
    (coins : gmap COutPoint Coin) (input_errors : gmap Z string) (immature_pegin : bool)
    : M UniValue unit :=
  (* Make errors UniValue *)
  vErrors <- lift (errors_to_json mtx coins (map_entries input_errors) (VARR [])) ;;
  modify (pushKV "hex" (VSTR (EncodeHexTx mtx))) ;;;
  modify (pushKV "complete" (VBOOL complete)) ;;;
  push_errors vErrors ;;;
  if immature_pegin then
    modify (pushKV "warning"
              (VSTR "Possibly immature peg-in input(s) detected, signed anyways."))
  else ret tt.

(** [SignTransaction] (line 528): the state is [mtx] with [result]. *)
Definition SignTransaction (keystore : option Keystore) (coins : gmap COutPoint Coin)
    (hashType : UniValue) : M (CMutableTransaction * UniValue) unit :=
  fun st =>
    match ParseSighashString hashType with
    | Throw e => (Throw e, st)
    | Ok nHashType =>
        (* Script verification errors *)
        match ValidateTransactionPeginInputs (fst st) ∅ with
        | (Throw e, _) => (Throw e, st)
        | (Ok immature_pegin, input_errors) =>
            let signed := SignTransaction_sign (fst st) keystore coins nHashType input_errors in
            let complete := signed.1.1 in
            let mtx := signed.1.2 in
            let r := SignTransactionResultToJSON mtx complete coins signed.2 immature_pegin (snd st) in
            (fst r, (mtx, snd r))
        end
    end.

End Signing.

(** ** A small chain

    One concrete instantiation of the interfaces, on which the statements
    below are exercised: scripts are short byte strings, a script hash is
    the script behind a tag byte, and the decoders read fixed test
    buffers. *)

(** operator< of prevector (prevector.h): the shorter vector first, vectors
    of one size byte by byte. *)
Fixpoint bytes_lex_lt (a b : list byte) : bool :=
  match a, b with
  | x :: a', y :: b' =>
      if (Byte.to_N x <? Byte.to_N y)%N then true
      else if (Byte.to_N y <? Byte.to_N x)%N then false
      else bytes_lex_lt a' b'
  | _, _ => false
  end.

Definition prevector_lt (a b : list byte) : bool :=
  if (length a <? length b)%nat then true
  else if (length b <? length a)%nat then false
  else bytes_lex_lt a b.

#[global] Instance byte_countable : Countable byte :=
  inj_countable Byte.to_N Byte.of_N Byte.of_to_N.

Module Sample.

Definition scripts : ScriptServices := {|
  CTxDestination := list byte;
  WitnessV0ScriptHash := fun s => x00 :: s;
  ScriptHash := fun s => xa9 :: s;
  GetScriptForDestination := fun d => d;
  calculate_contract := fun fedpegscript claim => fedpegscript ++ claim;
  IsPayToScriptHash := fun s => match s with xa9 :: _ => true | _ => false end;
  IsPayToWitnessScriptHash := fun s => match s with x00 :: _ => true | _ => false end;
  IsWitnessProgram := fun s =>
    match s with
    | x00 :: program => Some (0, program)
    | x51 :: program => Some (1, program)
    | _ => None
    end;
  ScriptToAsmStr := String.string_of_list_byte;
  OP_RETURN_script := [x6a];
  push_data := fun s data => s ++ data;
  DecodeDestination := String.list_byte_of_string;
  IsValidDestination := fun d => negb (is_empty d);
  IsBlindDestination := fun _ => false;
  GetDestinationBlindingKey := fun _ => [];
  CScript_lt := prevector_lt
|}.

(** A parent transaction: its hash and, per output, the locking script with
    the explicit amount if there is one. *)
Record tx := mkSampleTx { tx_hash : uint256; tx_outs : list (CScript * option CAmount) }.

(** A Merkle block: the header's root, the root and the matches that the
    partial tree yields. *)
Record merkle_block := mkSampleBlock {
  header_root : uint256;
  tree_root : uint256;
  tree_matches : list uint256
}.

Definition fedpegscript : CScript := [x51].
Definition claim_a : CScript := [x00; x0a].
Definition claim_b : CScript := [x00; x0b; x0b].

(** The parent-chain script paying to [claim] under the federation script. *)
Definition pays_to (claim : CScript) : CScript := x00 :: fedpegscript ++ claim.

Definition tx1 : tx :=
  mkSampleTx 7%N [([x76], Some 5); (pays_to claim_b, Some 40); (pays_to claim_a, Some 30)].

Definition block1 : merkle_block := mkSampleBlock 99%N 99%N [7%N].
Definition block_bad_root : merkle_block := mkSampleBlock 99%N 98%N [7%N].
Definition block_two : merkle_block := mkSampleBlock 99%N 99%N [7%N; 8%N].
Definition block_other : merkle_block := mkSampleBlock 99%N 99%N [8%N].

(** The test buffers: a one-byte tag selects the object, the bytes after it
    are left in the stream. *)
Definition chain : ParentChain := {|
  T_tx := tx;
  T_merkle_block := merkle_block;
  tx_vout := fun t => (tx_outs t).*1;
  tx_GetHash := tx_hash;
  decode_tx := fun data => match data with [x01] => Some tx1 | _ => None end;
  decode_merkle_block := fun data =>
    match data with
    | x01 :: rest => Some (block1, rest)
    | x02 :: rest => Some (block_bad_root, rest)
    | x03 :: rest => Some (block_two, rest)
    | x04 :: rest => Some (block_other, rest)
    | _ => None
    end;
  ExtractMatches := fun b => (tree_root b, tree_matches b, seq 0 (length (tree_matches b)));
  hashMerkleRoot := header_root;
  GetAmountFromParentChainPegin := fun t nOut => (tx_outs t !! nOut) ≫= snd;
  CreatePeginWitness := fun value asset genesis claim t b => [claim]
|}.

Definition chains : ParentChains := {|
  bitcoin_chain := chain;
  native_chain := chain;
  CheckParentProofOfWork := fun _ => true;
  CheckProofSignedParent := fun _ => true
|}.

(** The verifier accepts every witness but reports any of them as too
    shallow when the depth is checked. *)
Definition services : ChainServices := {|
  GetValidFedpegScripts := fun _ => [(pays_to [], fedpegscript)];
  IsValidPeginWitness := fun _ _ _ check_depth =>
    if check_depth then (false, "Needs more confirmations."%string) else (true, ""%string);
  CTxInWitness_IsNull := fun w =>
    is_empty (vchIssuanceAmountRangeproof w) && is_empty (vchInflationKeysRangeproof w)
    && is_empty (scriptWitness w) && is_empty (m_pegin_witness w);
  pegged_asset := 1%N;
  parent_pegged_asset_hex := "01";
  ParentGenesisBlockHash := 2%N;
  ParentChainHasPow := true;
  policyAsset := 1%N
|}.

(** Decimal integers, with an optional sign. *)
Fixpoint parse_digits (s : string) (acc : Z) : option Z :=
  match s with
  | EmptyString => Some acc
  | String c rest =>
      let d := Z.of_nat (Ascii.nat_of_ascii c) - 48 in
      if (0 <=? d) && (d <=? 9) then parse_digits rest (10 * acc + d) else None
  end.

Definition parse_int (s : string) : option Z :=
  match s with
  | EmptyString => None
  | String "-"%char rest =>
      match rest with EmptyString => None | _ => Z.opp <$> parse_digits rest 0 end
  | _ => parse_digits s 0
  end.

Definition parse_int_in (lo hi : Z) (s : string) : option Z :=
  match parse_int s with
  | Some z => if (lo <=? z) && (z <=? hi) then Some z else None
  | None => None
  end.

Definition rpc : RpcServices := {|
  ParseInt32 := parse_int_in (- 2 ^ 31) (2 ^ 31 - 1);
  ParseInt64 := parse_int_in (- 2 ^ 63) (2 ^ 63 - 1);
  ParseHashO := fun o key =>
    match find_value o key with
    | VSTR s =>
        match parse_int s with
        | Some z => Ok (Z.to_N z)
        | None => Throw (JSONRPCError RPC_INVALID_PARAMETER (key +:+ " must be hexadecimal string"))
        end
    | _ => Throw (JSONRPCError RPC_INVALID_PARAMETER (key +:+ " must be hexadecimal string"))
    end;
  ParseHexV := fun v name =>
    match v with
    | VSTR s => Ok (String.list_byte_of_string s)
    | _ => Throw (JSONRPCError RPC_INVALID_PARAMETER (name +:+ " must be hexadecimal string"))
    end;
  ParseHexO := fun o key =>
    match find_value o key with
    | VSTR s => Ok (String.list_byte_of_string s)
    | _ => Throw (JSONRPCError RPC_INVALID_PARAMETER (key +:+ " must be hexadecimal string"))
    end;
  ParseHex := String.list_byte_of_string;
  IsHex := fun _ => true;
  AmountFromValue := fun v =>
    match v with
    | VNUM s | VSTR s =>
        match parse_int_in 0 MAX_MONEY s with
        | Some a => Ok a
        | None => Throw (JSONRPCError RPC_TYPE_ERROR "Invalid amount")
        end
    | _ => Throw (JSONRPCError RPC_TYPE_ERROR "Amount is not a number or string")
    end;
  RPCTypeCheckObj := fun _ _ _ => Ok tt;
  ParseSighashString := fun _ => Ok 1;
  EncodeHexTx := fun mtx => "tx";
  HexStr := String.string_of_list_byte;
  uint256_ToString := fun _ => "hash";
  CTxOut_ToString := fun _ => "txout";
  itostr := fun _ => "0"
|}.

(** A signer that signs everything and reports no error of its own. *)
Definition signing : SigningServices := {|
  Keystore := list CScript;
  AddCScript := fun k s => k ++ [s];
  Coin_IsSpent := fun c =>
    bool_decide (nAsset (out c) = None) && value_IsNull (nValue (out c))
    && is_empty (nNonce (out c)) && is_empty (scriptPubKey (out c));
  SignTransaction_sign := fun mtx _ _ _ input_errors => (true, mtx, input_errors)
|}.

End Sample.

(** * Properties *)

(** ** The claim matcher *)

Section ClaimMatcherFacts.
Context `{SS : ScriptServices} `{PC : ParentChain}.

(** The configuration [scripts] matches some output of the transaction. *)
Definition config_matches (txn : T_tx) (witnessProgram : CScript) (scripts : CScript * CScript) : Prop :=
  mainchain_script_of scripts witnessProgram ∈ tx_vout txn.

(** [nOut] is the first position of [spks] that holds the script [s]. *)
Definition first_index_of (spks : list CScript) (s : CScript) (nOut : nat) : Prop :=
  spks !! nOut = Some s ∧ ∀ j spk, (j < nOut)%nat → spks !! j = Some spk → spk ≠ s.

Lemma scan_outputs_None spks s k :
  scan_outputs spks s k = None ↔ s ∉ spks.
Proof.
  revert k. induction spks as [|spk rest IH]; intros k; simpl.
  - split; [intros _; apply not_elem_of_nil | done].
  - destruct (decide (spk = s)) as [->|Hne].
    + split; [done | intros H; exfalso; apply H; left].
    + rewrite IH, not_elem_of_cons. split; [intros ?; split; congruence | tauto].
Qed.

Lemma scan_outputs_Some spks s k r :
  scan_outputs spks s k = Some r →
  (k ≤ r)%nat ∧ first_index_of spks s (r - k).
Proof.
  revert k. induction spks as [|spk rest IH]; intros k; simpl; [done|].
  destruct (decide (spk = s)) as [->|Hne].
  - intros Hr. injection Hr as <-. split; [lia|].
    replace (k - k)%nat with 0%nat by lia.
    split; [done | intros j spk Hj; lia].
  - intros H. apply IH in H as [Hle [Hat Hbefore]].
    split; [lia|]. replace (r - k)%nat with (S (r - S k)) by lia.
    split; [done|].
    intros [|j] spk' Hj Hl; simpl in Hl.
    + injection Hl as <-. done.
    + apply (Hbefore j); [lia | done].
Qed.

Lemma first_index_of_lt spks s nOut :
  first_index_of spks s nOut → (nOut < length spks)%nat.
Proof. intros [Hat _]. by apply lookup_lt_Some in Hat. Qed.

Lemma GetPeginTxnOutputIndex_le txn wp feds :
  (GetPeginTxnOutputIndex txn wp feds ≤ length (tx_vout txn))%nat.
Proof.
  induction feds as [|scripts rest IH]; simpl; [lia|].
  destruct (scan_outputs _ _ 0) as [r|] eqn:Hscan; [|done].
  apply scan_outputs_Some in Hscan as [_ Hfirst].
  apply first_index_of_lt in Hfirst. lia.
Qed.

Lemma GetPeginTxnOutputIndex_none txn wp feds :
  (∀ scripts, scripts ∈ feds → ¬ config_matches txn wp scripts) →
  GetPeginTxnOutputIndex txn wp feds = length (tx_vout txn).
Proof.
  induction feds as [|scripts rest IH]; simpl; intros Hnone; [done|].
  destruct (scan_outputs _ _ 0) as [r|] eqn:Hscan.
  - exfalso. apply (Hnone scripts); [left|].
    unfold config_matches. apply dec_stable. intros Hnot.
    apply scan_outputs_None with (k := 0%nat) in Hnot. congruence.
  - apply IH. intros s Hs. apply Hnone. by right.
Qed.

Lemma GetPeginTxnOutputIndex_found txn wp before scripts after :
  (∀ s, s ∈ before → ¬ config_matches txn wp s) →
  config_matches txn wp scripts →
  first_index_of (tx_vout txn) (mainchain_script_of scripts wp)
    (GetPeginTxnOutputIndex txn wp (before ++ scripts :: after)).
Proof.
  induction before as [|b before IH]; simpl; intros Hbefore Hmatch.
  - destruct (scan_outputs _ _ 0) as [r|] eqn:Hscan.
    + apply scan_outputs_Some in Hscan as [_ Hfirst].
      by replace (r - 0)%nat with r in Hfirst by lia.
    + apply scan_outputs_None in Hscan. done.
  - destruct (scan_outputs _ (mainchain_script_of b wp) 0) as [r|] eqn:Hscan.
    + exfalso. apply (Hbefore b); [left|].
      apply scan_outputs_Some in Hscan as [_ [Hat _]].
      unfold config_matches. eapply list_elem_of_lookup_2. exact Hat.
    + apply IH; [|done]. intros s Hs. apply Hbefore. by right.
Qed.

(** C2. [GetPeginTxnOutputIndex] derives for each configuration the
    version-0 witness-script-hash script of the contract of the federation
    script with the claim script, re-wrapped as a script-hash script when
    the configuration's first script is pay-to-script-hash; it tries the
    configurations in list order and returns the first output position
    matching the first configuration that matches any output, and the
    output count when no configuration matches any output. *)
Theorem GetPeginTxnOutputIndex_first_match (txn : T_tx) (witnessProgram : CScript)
    (fedpegscripts : list (CScript * CScript)) :
  (∀ scripts,
     mainchain_script_of scripts witnessProgram =
       let p2wsh := GetScriptForDestination
                      (WitnessV0ScriptHash (calculate_contract scripts.2 witnessProgram)) in
       if IsPayToScriptHash scripts.1 then GetScriptForDestination (ScriptHash p2wsh) else p2wsh)
  ∧ (∀ before scripts after,
       fedpegscripts = before ++ scripts :: after →
       (∀ s, s ∈ before → ¬ config_matches txn witnessProgram s) →
       config_matches txn witnessProgram scripts →
       first_index_of (tx_vout txn) (mainchain_script_of scripts witnessProgram)
         (GetPeginTxnOutputIndex txn witnessProgram fedpegscripts))
  ∧ ((∀ scripts, scripts ∈ fedpegscripts → ¬ config_matches txn witnessProgram scripts) →
     GetPeginTxnOutputIndex txn witnessProgram fedpegscripts = length (tx_vout txn)).
Proof.
  split; [done|]. split.
  - intros before scripts after -> Hbefore Hmatch.
    by apply GetPeginTxnOutputIndex_found.
  - apply GetPeginTxnOutputIndex_none.
Qed.

End ClaimMatcherFacts.

(** ** The peg-in input builder *)

(** Unfolds the monad's operations in the goal. *)
Ltac monad_unfold :=
  unfold throw_if, unwrap, lift, modify, put, get, bind, ret, throw in *.

Section PegInInputFacts.
Context `{SS : ScriptServices} `{PC : ParentChain} `{CS : ChainServices}.

Lemma input_in_use_true mtx input_idx :
  (∃ txin, vin mtx !! input_idx = Some txin ∧ scriptSig txin ≠ [])
  ∨ (∃ txinwit, vtxinwit mtx !! input_idx = Some txinwit ∧ CTxInWitness_IsNull txinwit = false) →
  input_in_use mtx input_idx = true.
Proof.
  unfold input_in_use. intros [(txin & -> & Hsig)|(txinwit & -> & Hnull)].
  - destruct (scriptSig txin); [done|]. done.
  - rewrite Hnull. simpl. apply orb_true_r.
Qed.

(** What the builder returns when the input-reuse guard fires. *)
Definition input_in_use_error : exn :=
  JSONRPCError RPC_INVALID_PARAMETER
    "Attempting to add a peg-in to an input that already has a scriptSig or witness".

(** C4. If the input at [input_idx] already carries a non-empty scriptSig
    or a non-null witness, [CreatePegInInput] throws the invalid-parameter
    error of the input-reuse guard whatever the buffers and the decoders
    are, and the transaction is left as it was. *)
Theorem CreatePegInInput_rejects_used_input (mtx : CMutableTransaction) (input_idx : nat)
    (claim_scripts : list CScript) (txData txOutProofData : bytes) :
  (∃ txin, vin mtx !! input_idx = Some txin ∧ scriptSig txin ≠ [])
  ∨ (∃ txinwit, vtxinwit mtx !! input_idx = Some txinwit ∧ CTxInWitness_IsNull txinwit = false) →
  CreatePegInInput input_idx claim_scripts txData txOutProofData mtx
  = (Throw input_in_use_error, mtx).
Proof.
  intros Hused. apply input_in_use_true in Hused.
  unfold CreatePegInInput, CreatePegInInputInner. monad_unfold.
  by rewrite Hused.
Qed.

(** The proof buffer decodes to [merkleBlock] with [rest] left over, and is
    not a proof of exactly the transaction in [txData]. *)
Definition bad_proof (txData : bytes) (merkleBlock : T_merkle_block) (rest : bytes) : Prop :=
  rest ≠ []
  ∨ (ExtractMatches merkleBlock).1.1 ≠ hashMerkleRoot merkleBlock
  ∨ length (ExtractMatches merkleBlock).1.2 ≠ 1%nat
  ∨ ∃ txBTCRef h, decode_tx txData = Some txBTCRef
                  ∧ (ExtractMatches merkleBlock).1.2 = [h] ∧ h ≠ tx_GetHash txBTCRef.

(** C1. When the proof buffer decodes with bytes left over, or the matches
    do not reproduce the header's Merkle root, or the number of extracted
    hashes is not one, or the one hash is not the hash of the decoded parent
    transaction, [CreatePegInInput] throws, and [mtx] (its inputs and
    witnesses) is left as it was; the error is an invalid-parameter error
    when the parent transaction decodes. *)
Theorem CreatePegInInput_rejects_bad_proof (mtx : CMutableTransaction) (input_idx : nat)
    (claim_scripts : list CScript) (txData txOutProofData : bytes)
    (merkleBlock : T_merkle_block) (rest : bytes) :
  decode_merkle_block txOutProofData = Some (merkleBlock, rest) →
  bad_proof txData merkleBlock rest →
  let r := CreatePegInInput input_idx claim_scripts txData txOutProofData mtx in
  is_error r.1 ∧ r.2 = mtx
  ∧ (is_Some (decode_tx txData) → is_invalid_parameter r.1).
Proof.
  intros Hproof Hbad.
  unfold CreatePegInInput, CreatePegInInputInner. monad_unfold.
  destruct (input_in_use mtx input_idx); simpl; [done|].
  destruct (decode_tx txData) as [txBTCRef|] eqn:Htx; simpl;
    [|split; [done|]; split; [done|]; by intros [? ?]].
  rewrite Hproof. simpl.
  destruct rest as [|b rest]; simpl; [|done].
  destruct Hbad as [Hrest|[Hroot|Hhashes]]; [done| |].
  { rewrite bool_decide_eq_true_2 by done. done. }
  destruct (bool_decide (_ ≠ hashMerkleRoot merkleBlock)); simpl; [done|].
  assert (bool_decide (length (ExtractMatches merkleBlock).1.2 ≠ 1%nat)
          || bool_decide (head (ExtractMatches merkleBlock).1.2 ≠ Some (tx_GetHash txBTCRef))
          = true) as ->; [|done].
  destruct Hhashes as [Hlen|(tx' & h & Htx' & Hh & Hne)].
  - by rewrite bool_decide_eq_true_2.
  - rewrite Hh. simpl. rewrite (bool_decide_eq_true_2 (Some h ≠ _)); [done|].
    intros [= ->]. congruence.
Qed.

End PegInInputFacts.

Section PegInInputSuccess.
Context `{SS : ScriptServices} `{PC : ParentChain} `{CS : ChainServices}.

(** The input that a successful peg-in construction installs. *)
Definition pegin_txin (h : uint256) (nOut : nat) : CTxIn :=
  mkTxIn (mkOutPoint h (Z.of_nat nOut)) [] SEQUENCE_FINAL true.

Lemma uint32_all_ones_final : uint32_all_ones = SEQUENCE_FINAL.
Proof. reflexivity. Qed.

Lemma uint32_succ_le idx : (uint32_succ idx ≤ S idx)%nat.
Proof.
  unfold uint32_succ.
  pose proof (Z.mod_le (Z.of_nat idx + 1) (2 ^ 32) ltac:(lia) ltac:(lia)). lia.
Qed.

Lemma uint32_succ_small idx : Z.of_nat idx < UINT32_MAX → uint32_succ idx = S idx.
Proof.
  unfold uint32_succ, UINT32_MAX. intros Hlt. rewrite Z.mod_small by lia. lia.
Qed.

(** Where position [idx] exists afterwards, the vector was not cut. *)
Lemma grow_in_bounds {A} idx (d : A) v :
  (idx < length (grow idx d v))%nat →
  grow idx d v = if (length v <=? idx)%nat then resize (S idx) d v else v.
Proof.
  unfold grow. destruct (length v <=? idx)%nat eqn:Hle; [|done].
  rewrite length_resize. intros Hlt. pose proof (uint32_succ_le idx).
  by replace (uint32_succ idx) with (S idx) by lia.
Qed.

Lemma grow_length {A} idx (d : A) v :
  Z.of_nat idx < UINT32_MAX → (idx < length (grow idx d v))%nat.
Proof.
  intros Hlt. unfold grow. destruct (length v <=? idx)%nat eqn:Hle.
  - rewrite length_resize, uint32_succ_small by done. lia.
  - apply Nat.leb_gt in Hle. done.
Qed.

Lemma grow_length_max {A} idx (d : A) v :
  (idx < length (grow idx d v))%nat →
  length (grow idx d v) = (length v `max` S idx)%nat.
Proof.
  intros Hlt. rewrite grow_in_bounds by done.
  destruct (length v <=? idx)%nat eqn:Hle.
  - apply Nat.leb_le in Hle. rewrite length_resize. lia.
  - apply Nat.leb_gt in Hle. lia.
Qed.

Lemma grow_lookup_old {A} idx (d : A) v j :
  (idx < length (grow idx d v))%nat →
  (j < length v)%nat → grow idx d v !! j = v !! j.
Proof.
  intros Hlt Hj. rewrite grow_in_bounds by done.
  destruct (length v <=? idx)%nat eqn:Hle; [|done].
  apply Nat.leb_le in Hle. apply lookup_resize; lia.
Qed.

Lemma grow_in_range {A} idx (d : A) v : (idx < length v)%nat → grow idx d v = v.
Proof.
  intros Hlt. unfold grow. destruct (length v <=? idx)%nat eqn:Hle; [|done].
  apply Nat.leb_le in Hle. lia.
Qed.

(** At 0xffffffff (and for an index no [uint32_t] holds) the vector is not
    grown: the position exists afterwards only if it existed before. *)
Lemma grow_at_max {A} idx (d : A) v :
  UINT32_MAX ≤ Z.of_nat idx → (idx < length (grow idx d v))%nat → (idx < length v)%nat.
Proof.
  unfold grow, uint32_succ, UINT32_MAX. intros Hmax.
  destruct (length v <=? idx)%nat eqn:Hle; [|done].
  rewrite length_resize. intros Hlt.
  pose proof (Z.mod_pos_bound (Z.of_nat idx + 1) (2 ^ 32) ltac:(lia)). lia.
Qed.

(** At 0xffffffff a vector that does not reach the position is emptied:
    [idx + 1] is 0. *)
Lemma grow_wraps {A} idx (d : A) v :
  Z.of_nat idx = UINT32_MAX → (length v ≤ idx)%nat → grow idx d v = [].
Proof.
  unfold grow, uint32_succ, UINT32_MAX. intros Hmax Hle.
  rewrite (proj2 (Nat.leb_le _ _) Hle). rewrite Hmax.
  replace ((4294967295 + 1) `mod` 2 ^ 32) with 0 by reflexivity.
  apply resize_0.
Qed.

Lemma check_index_Ok {St A} (v : St → list A) idx s u s' :
  check_index v idx s = (Ok u, s') → (idx < length (v s))%nat ∧ s' = s.
Proof.
  unfold check_index, bind, get, throw_if.
  destruct (length (v s) <=? idx)%nat eqn:Hle; [done|].
  apply Nat.leb_gt in Hle. by intros [= _ <-].
Qed.

(** The success path of [CreatePegInInputInner], read backwards. *)
Lemma CreatePegInInputInner_Ok input_idx claim_scripts txData txOutProofData mtx tx mb mtx' :
  CreatePegInInputInner input_idx claim_scripts txData txOutProofData mtx = (Ok (tx, mb), mtx') →
  let fedpegscripts := GetValidFedpegScripts true in
  let found := claim_loop tx fedpegscripts claim_scripts (length (tx_vout tx)) [] in
  input_in_use mtx input_idx = false
  ∧ decode_tx txData = Some tx
  ∧ decode_merkle_block txOutProofData = Some (mb, [])
  ∧ (ExtractMatches mb).1.2 = [tx_GetHash tx]
  ∧ found.1 ≠ length (tx_vout tx)
  ∧ ∃ value,
      GetAmountFromParentChainPegin tx found.1 = Some value
      ∧ mtx' =
        set_vtxinwit (fun w =>
            <[input_idx := mkTxInWitness [] [] []
                (CreatePeginWitness value pegged_asset ParentGenesisBlockHash found.2 tx mb)]>
              (grow input_idx CTxInWitness_default w))
          (set_vin (fun v =>
             alter (set_is_pegin true) input_idx
               (<[input_idx := CTxIn_new (mkOutPoint (tx_GetHash tx) (Z.of_nat found.1)) []
                                 uint32_all_ones]> (grow input_idx CTxIn_default v))) mtx)
      ∧ (input_idx < length (grow input_idx CTxIn_default (vin mtx)))%nat
      ∧ (input_idx < length (grow input_idx CTxInWitness_default (vtxinwit mtx)))%nat.
Proof.
  unfold CreatePegInInputInner, check_index. monad_unfold.
  destruct (input_in_use mtx input_idx) eqn:Huse; simpl; [done|].
  destruct (decode_tx txData) as [txBTCRef|] eqn:Htx; simpl; [|done].
  destruct (decode_merkle_block txOutProofData) as [[merkleBlock rest]|] eqn:Hmb; simpl; [|done].
  destruct rest; simpl; [|done].
  destruct (bool_decide (_ ≠ hashMerkleRoot merkleBlock)); simpl; [done|].
  destruct (bool_decide (length _ ≠ 1%nat)) eqn:Hlen; simpl; [done|].
  destruct (bool_decide (head _ ≠ _)) eqn:Hhead; simpl; [done|].
  apply bool_decide_eq_false in Hlen, Hhead.
  apply dec_stable in Hlen, Hhead.
  destruct (bool_decide (_ = length (tx_vout txBTCRef))) eqn:Hfound; simpl; [done|].
  apply bool_decide_eq_false in Hfound.
  destruct (bool_decide ((claim_loop _ _ _ _ _).2 = [])); simpl; [done|].
  destruct (match IsWitnessProgram _ with Some _ => _ | None => _ end); simpl; [done|].
  destruct (GetAmountFromParentChainPegin _ _) as [value|] eqn:Hvalue; simpl; [|done].
  destruct (length (grow input_idx CTxIn_default (vin mtx)) <=? input_idx)%nat eqn:Hvin;
    simpl; [done|].
  destruct (negb _); simpl; [done|].
  destruct (length (grow input_idx CTxInWitness_default (vtxinwit mtx)) <=? input_idx)%nat
    eqn:Hwit; simpl; [done|].
  intros [= <- <- <-].
  apply Nat.leb_gt in Hvin, Hwit.
  assert ((ExtractMatches merkleBlock).1.2 = [tx_GetHash txBTCRef]) as Hhashes.
  { destruct (ExtractMatches merkleBlock).1.2 as [|h [|h' l]]; simpl in *; [done| |done].
    by injection Hhead as ->. }
  repeat (split; [done|]). exists value. split; [done|].
  split; [by rewrite Hhashes|]. done.
Qed.

(** What a successful construction leaves at [input_idx]. *)
Lemma CreatePegInInputInner_Ok_slot input_idx claim_scripts txData txOutProofData mtx tx mb mtx' :
  CreatePegInInputInner input_idx claim_scripts txData txOutProofData mtx = (Ok (tx, mb), mtx') →
  let found := claim_loop tx (GetValidFedpegScripts true) claim_scripts (length (tx_vout tx)) [] in
  ∃ value,
    GetAmountFromParentChainPegin tx found.1 = Some value
    ∧ vin mtx' !! input_idx = Some (pegin_txin (tx_GetHash tx) found.1)
    ∧ vtxinwit mtx' !! input_idx =
        Some (mkTxInWitness [] [] []
                (CreatePeginWitness value pegged_asset ParentGenesisBlockHash found.2 tx mb)).
Proof.
  intros Hok. apply CreatePegInInputInner_Ok in Hok
    as (_ & _ & _ & _ & _ & value & Hvalue & -> & Hvin & Hwit).
  exists value. split; [done|]. simpl. split.
  - rewrite list_lookup_alter_eq, list_lookup_insert_eq by done. done.
  - rewrite list_lookup_insert_eq by done. done.
Qed.

(** The loop over the claim scripts stops at the first script, in the order
    of the list, that matches. *)
Lemma claim_loop_first txn feds before script after nOut witness_script :
  (∀ s, s ∈ before → GetPeginTxnOutputIndex txn s feds = length (tx_vout txn)) →
  GetPeginTxnOutputIndex txn script feds ≠ length (tx_vout txn) →
  claim_loop txn feds (before ++ script :: after) nOut witness_script
  = (GetPeginTxnOutputIndex txn script feds, script).
Proof.
  intros Hbefore Hmatch. revert nOut.
  induction before as [|b before IH]; intros nOut; simpl.
  - by rewrite decide_True.
  - rewrite decide_False.
    + apply IH. intros s Hs. apply Hbefore. by right.
    + intros Hne. apply Hne, Hbefore. left.
Qed.

(** The claim as the specification words it: of the scripts in the order
    the caller supplied them, the first that matches is the one the loop
    selects from the set built from them. *)
Definition tried_in_supplied_order (txn : T_tx) (feds : list (CScript * CScript))
    (supplied : list CScript) : Prop :=
  ∀ before script after,
    supplied = before ++ script :: after →
    (∀ s, s ∈ before → GetPeginTxnOutputIndex txn s feds = length (tx_vout txn)) →
    GetPeginTxnOutputIndex txn script feds ≠ length (tx_vout txn) →
    claim_loop txn feds (std_set_of supplied) (length (tx_vout txn)) []
    = (GetPeginTxnOutputIndex txn script feds, script).

(** C3, amended. The claim scripts are tried in the iteration order of the
    std::set that holds them (ascending script order, whatever the order in
    which the caller inserted them): when [claim_scripts] lists the set in
    that order, the first script of the list that matches any configuration
    and output is selected, and the outpoint and the peg-in witness of the
    constructed input are built from the output index and the script of
    that first match. *)
Theorem CreatePegInInput_first_claim_script_in_set_order (mtx : CMutableTransaction)
    (input_idx : nat) (before : list CScript) (script : CScript) (after : list CScript)
    (txData txOutProofData : bytes) (tx : T_tx) (mb : T_merkle_block)
    (mtx' : CMutableTransaction) :
  CreatePegInInput input_idx (before ++ script :: after) txData txOutProofData mtx
    = (Ok (tx, mb), mtx') →
  (∀ s, s ∈ before →
     GetPeginTxnOutputIndex tx s (GetValidFedpegScripts true) = length (tx_vout tx)) →
  GetPeginTxnOutputIndex tx script (GetValidFedpegScripts true) ≠ length (tx_vout tx) →
  let nOut := GetPeginTxnOutputIndex tx script (GetValidFedpegScripts true) in
  ∃ value,
    GetAmountFromParentChainPegin tx nOut = Some value
    ∧ vin mtx' !! input_idx = Some (pegin_txin (tx_GetHash tx) nOut)
    ∧ vtxinwit mtx' !! input_idx =
        Some (mkTxInWitness [] [] []
                (CreatePeginWitness value pegged_asset ParentGenesisBlockHash script tx mb)).
Proof.
  intros Hok Hbefore Hmatch nOut.
  apply CreatePegInInputInner_Ok_slot in Hok as (value & Hvalue & Hvin & Hwit).
  rewrite (claim_loop_first _ _ _ _ _ _ _ Hbefore Hmatch) in Hvalue, Hvin, Hwit.
  by exists value.
Qed.

End PegInInputSuccess.

(** ** The transaction constructor: inputs *)

Section ConstructorInputs.
Context `{SS : ScriptServices} `{CS : ChainServices} `{RS : RpcServices} `{PCS : ParentChains}.


(** None of the three peg-in fields is present in the input object [o]. *)
Definition no_pegin_fields (o : UniValue) : Prop :=
  find_value o "pegin_bitcoin_tx" = VNULL
  ∧ find_value o "pegin_txout_proof" = VNULL
  ∧ find_value o "pegin_claim_script" = VNULL.

(** One turn of the input loop, once txid and vout are read: the input is
    pushed with the sequence number of lines 189-207, or the turn throws
    what those lines throw. *)
Lemma ConstructTransaction_input_pushes rbf allow_peg_in idx input o txid nOutput tx :
  get_obj input = Ok o →
  ParseHashO o "txid" = Ok txid →
  isNum (find_value o "vout") = true →
  get_int (find_value o "vout") = Ok nOutput →
  0 ≤ nOutput →
  ConstructTransaction_input rbf allow_peg_in idx input tx =
    match input_nSequence rbf (nLockTime tx) o with
    | Throw e => (Throw e, tx)
    | Ok seq =>
        ConstructTransaction_pegin allow_peg_in idx o
          (set_vin (fun v => v ++ [CTxIn_new (mkOutPoint txid nOutput) [] seq]) tx)
    end.
Proof.
  intros Hobj Htxid Hnum Hvout Hpos.
  unfold ConstructTransaction_input. monad_unfold.
  rewrite Hobj, Htxid, Hnum, Hvout. simpl.
  destruct (nOutput <? 0) eqn:Hneg; [apply Z.ltb_lt in Hneg; lia|].
  destruct (input_nSequence rbf (nLockTime tx) o); done.
Qed.





End ConstructorInputs.

(** ** The transaction constructor: the replaceability check *)

Section ConstructorFinish.
Context `{SS : ScriptServices} `{CS : ChainServices} `{RS : RpcServices} `{PCS : ParentChains}.

(** The error of line 357. *)
Definition rbf_contradiction : exn :=
  JSONRPCError RPC_INVALID_PARAMETER
    "Invalid parameter combination: Sequence number(s) contradict replaceable option".

Lemma ConstructTransaction_after_build inputs_in outputs_in locktime rbf assets_in pubkeys_out
    allow_peg_in r s :
  ConstructTransaction_build inputs_in outputs_in locktime rbf assets_in allow_peg_in
    (CtState_init pubkeys_out) = (r, s) →
  ConstructTransaction inputs_in outputs_in locktime rbf assets_in pubkeys_out allow_peg_in =
    match r with
    | Throw e => (Throw e, output_pubkeys_out s)
    | Ok _ =>
        if rbf && (0 <? length (vin (rawTx s)))%nat && negb (SignalsOptInRBF (rawTx s))
        then (Throw rbf_contradiction, output_pubkeys_out s)
        else (Ok (rawTx s), output_pubkeys_out s)
    end.
Proof.
  intros Hbuild. unfold ConstructTransaction. cbv zeta. unfold bind. rewrite Hbuild.
  destruct r as [[]|e]; [|done].
  unfold ConstructTransaction_finish. monad_unfold.
  by destruct (rbf && _ && _).
Qed.

(** C7. Once the inputs and outputs are built: with the RBF flag set and at
    least one input, construction throws an invalid-parameter error
    whenever the sequence numbers of the built transaction do not signal
    opt-in replaceability; with the flag unset, or without inputs, the
    check is skipped and the built transaction is returned (as it is when
    the sequence numbers do signal). *)
Theorem ConstructTransaction_rbf_check (inputs_in outputs_in locktime : UniValue) (rbf : bool)
    (assets_in : UniValue) (pubkeys_out : option (list CPubKey)) (allow_peg_in : bool) :
  let built := ConstructTransaction_build inputs_in outputs_in locktime rbf assets_in
                 allow_peg_in (CtState_init pubkeys_out) in
  let r := ConstructTransaction inputs_in outputs_in locktime rbf assets_in pubkeys_out
             allow_peg_in in
  built.1 = Ok tt →
  (rbf = true → vin (rawTx built.2) ≠ [] → SignalsOptInRBF (rawTx built.2) = false →
   r.1 = Throw rbf_contradiction ∧ is_invalid_parameter r.1)
  ∧ (rbf = false ∨ vin (rawTx built.2) = [] ∨ SignalsOptInRBF (rawTx built.2) = true →
     r.1 = Ok (rawTx built.2)).
Proof.
  intros built r Hbuilt. subst r.
  destruct built as [r s] eqn:Hbuild. simpl in Hbuilt. subst r.
  rewrite (ConstructTransaction_after_build _ _ _ _ _ _ _ _ _ Hbuild). simpl.
  split.
  - intros -> Hvin Hsig. rewrite Hsig.
    destruct (vin (rawTx s)); [done|]. done.
  - intros [->|[Hvin|Hsig]].
    + done.
    + rewrite Hvin. simpl. by rewrite andb_false_r.
    + rewrite Hsig. simpl. by rewrite andb_false_r.
Qed.

End ConstructorFinish.

(** ** The previous-output reconciler *)

Section PrevoutsFacts.
Context `{SS : ScriptServices} `{RS : RpcServices} `{SG : SigningServices}.

(** The error of lines 414-417: both scripts, disassembled. *)
Definition scriptPubKey_mismatch (recorded supplied : CScript) : exn :=
  JSONRPCError RPC_DESERIALIZATION_ERROR
    ("Previous output scriptPubKey mismatch:" +:+ newline +:+ ScriptToAsmStr recorded
     +:+ newline +:+ "vs:" +:+ newline +:+ ScriptToAsmStr supplied).

(** The amount a record supplies: the explicit amount if given, else the
    amount commitment if given, else MAX_MONEY. *)
Inductive supplied_amount (prevOut : UniValue) : CConfidentialValue → Prop :=
| supplied_explicit a :
    exists_key prevOut "amount" = true →
    AmountFromValue (find_value prevOut "amount") = Ok a →
    supplied_amount prevOut (ValueExplicit a)
| supplied_commitment c :
    exists_key prevOut "amount" = false →
    exists_key prevOut "amountcommitment" = true →
    ParseHexO prevOut "amountcommitment" = Ok c →
    supplied_amount prevOut (ValueCommitment c)
| supplied_default :
    exists_key prevOut "amount" = false →
    exists_key prevOut "amountcommitment" = false →
    supplied_amount prevOut (ValueExplicit MAX_MONEY).

(** A coin is recorded for [out], unspent, with a script other than
    [scriptPubKey]. *)
Definition conflicting_coin (coins : gmap COutPoint Coin) (out : COutPoint) (scriptPubKey : CScript)
    (coin : Coin) : Prop :=
  coins !! out = Some coin ∧ Coin_IsSpent coin = false ∧ coin_scriptPubKey coin ≠ scriptPubKey.

(** No prior coin, or the prior coin is spent, or it has the same script. *)
Definition recordable (coins : gmap COutPoint Coin) (out : COutPoint) (scriptPubKey : CScript) : Prop :=
  coins !! out = None
  ∨ ∃ coin, coins !! out = Some coin
            ∧ (Coin_IsSpent coin = true ∨ coin_scriptPubKey coin = scriptPubKey).

(** The record [p] is an object whose txid, vout and scriptPubKey parse. *)
Definition record_header (p : UniValue) (out : COutPoint) (scriptPubKey : CScript) : Prop :=
  isObject p = true
  ∧ RPCTypeCheckObj p [("txid"%string, T_VSTR); ("vout"%string, T_VNUM);
                       ("scriptPubKey"%string, T_VSTR)] false = Ok tt
  ∧ ParseHashO p "txid" = Ok (hash out)
  ∧ get_int (find_value p "vout") = Ok (n out)
  ∧ 0 ≤ n out
  ∧ ParseHexO p "scriptPubKey" = Ok scriptPubKey.

Lemma ParsePrevouts_coin_conflict coins out scriptPubKey prevOut coin :
  conflicting_coin coins out scriptPubKey coin →
  ParsePrevouts_coin out scriptPubKey prevOut coins
  = (Throw (scriptPubKey_mismatch (coin_scriptPubKey coin) scriptPubKey), coins).
Proof.
  intros (Hcoin & Hspent & Hne).
  unfold ParsePrevouts_coin. monad_unfold. rewrite Hcoin, Hspent.
  by rewrite bool_decide_eq_true_2.
Qed.

Lemma ParsePrevouts_coin_records coins out scriptPubKey prevOut nValue :
  recordable coins out scriptPubKey →
  supplied_amount prevOut nValue →
  ParsePrevouts_coin out scriptPubKey prevOut coins
  = (Ok tt, <[out := mkCoin (mkTxOut None nValue [] scriptPubKey) false 1]> coins).
Proof.
  intros Hrec Hamount.
  unfold ParsePrevouts_coin. monad_unfold.
  destruct Hrec as [->|(coin & -> & [Hspent|Hsame])].
  2: rewrite Hspent.
  3: rewrite (bool_decide_eq_false_2 (_ ≠ _)) by (intros Hne; by apply Hne);
     rewrite andb_false_r.
  all: simpl.
  all: destruct Hamount as [a Hex Ha|c Hex Hcm Hc|Hex Hcm].
  all: rewrite ?Hex, ?Hcm, ?Ha, ?Hc; done.
Qed.
(** A record whose header parses runs the coin block on the parsed
    outpoint and script, then the script block. *)
Lemma ParsePrevouts_record_header p out scriptPubKey st :
  record_header p out scriptPubKey →
  ParsePrevouts_record p st =
    let r := ParsePrevouts_coin out scriptPubKey p (coins st) in
    match r.1 with
    | Ok _ =>
        (if bool_decide (is_Some (keystore st))
            && (IsPayToScriptHash scriptPubKey || IsPayToWitnessScriptHash scriptPubKey)
         then ParsePrevouts_scripts scriptPubKey (IsPayToScriptHash scriptPubKey)
                (IsPayToWitnessScriptHash scriptPubKey) p
         else ret tt) (mkPrevouts (keystore st) r.2)
    | Throw e => (Throw e, mkPrevouts (keystore st) r.2)
    end.
Proof.
  intros (Hobj & Hcheck & Htxid & Hvout & Hpos & Hspk).
  unfold ParsePrevouts_record, on_coins. monad_unfold.
  destruct p; try discriminate Hobj. simpl get_obj. cbv iota.
  rewrite Hcheck, Htxid, Hvout. simpl.
  destruct (n out <? 0) eqn:Hneg; [apply Z.ltb_lt in Hneg; lia|].
  rewrite Hspk. cbv iota. destruct out as [h i]. simpl.
  by destruct (ParsePrevouts_coin _ _ _ _).1.
Qed.









End PrevoutsFacts.

(** ** Frames

    [frame R c]: whatever [c] returns or throws, the state it leaves is
    related by [R] to the state it started from. *)

Definition frame {St A} (R : St → St → Prop) (c : M St A) : Prop :=
  ∀ s r s', c s = (r, s') → R s s'.

(** The states agree on the component [f]. *)
Definition same {St B} (f : St → B) : St → St → Prop := fun s s' => f s' = f s.

Section Frames.
Context {St : Type} (R : St → St → Prop) `{!Reflexive R} `{!Transitive R}.

Lemma frame_ret {A} (a : A) : frame R (ret a).
Proof. intros s r s' [= _ <-]. reflexivity. Qed.

Lemma frame_throw {A} e : frame R (throw (A := A) e).
Proof. intros s r s' [= _ <-]. reflexivity. Qed.

Lemma frame_lift {A} (x : result A) : frame R (lift x).
Proof. intros s r s' [= _ <-]. reflexivity. Qed.

Lemma frame_get : frame R get.
Proof. intros s r s' [= _ <-]. reflexivity. Qed.

Lemma frame_throw_if b e : frame R (throw_if b e).
Proof. destruct b; [apply frame_throw | apply frame_ret]. Qed.

Lemma frame_unwrap {A} (o : option A) e : frame R (unwrap o e).
Proof. destruct o; [apply frame_ret | apply frame_throw]. Qed.

Lemma frame_modify f : (∀ s, R s (f s)) → frame R (modify f).
Proof. intros Hf s r s' [= _ <-]. apply Hf. Qed.

Lemma frame_bind {A B} (c : M St A) (k : A → M St B) :
  frame R c → (∀ a, frame R (k a)) → frame R (bind c k).
Proof.
  intros Hc Hk s r s'. unfold bind.
  destruct (c s) as [[a|e] s1] eqn:Hcs.
  - intros Hks. transitivity s1; [by eapply Hc | by eapply Hk].
  - intros [= _ <-]. by eapply Hc.
Qed.

End Frames.

#[global] Instance same_reflexive {St B} (f : St → B) : Reflexive (same f).
Proof. by intros s. Qed.

#[global] Instance same_transitive {St B} (f : St → B) : Transitive (same f).
Proof. intros s1 s2 s3 H12 H23. unfold same in *. congruence. Qed.

(** Walks through a computation built from the monad's operations. *)
Ltac frame_steps :=
  repeat first
    [ apply frame_bind; [apply _ | | intros ?]
    | apply frame_ret; apply _
    | apply frame_throw; apply _
    | apply frame_lift; apply _
    | apply frame_get; apply _
    | apply frame_throw_if; apply _
    | apply frame_unwrap; apply _
    | apply frame_modify; intros ?
    | match goal with
      | |- frame _ (if ?b then _ else _) => destruct b
      | |- frame _ (match ?x with _ => _ end) => destruct x
      | |- frame _ (let _ := _ in _) => cbv zeta
      end ].

(** ** The transaction constructor: outputs *)

Section ConstructorOutputs.
Context `{SS : ScriptServices} `{CS : ChainServices} `{RS : RpcServices} `{PCS : ParentChains}.

(** [out] is the output that the key [name_] of [outputs] describes: the
    script and the amount of its kind of entry. *)
Definition output_for_key (outputs : UniValue) (name_ : string) (out : CTxOut) : Prop :=
  if decide (name_ = "data"%string) then
    ∃ data, ParseHexV (VSTR (getValStr (find_value outputs name_))) "Data" = Ok data
            ∧ scriptPubKey out = push_data OP_RETURN_script data
            ∧ nValue out = ValueExplicit 0
  else if decide (name_ = "vdata"%string) then
    ∃ datascript, vdata_pushes (values (find_value outputs name_)) OP_RETURN_script = Ok datascript
                  ∧ scriptPubKey out = datascript
                  ∧ nValue out = ValueExplicit 0
  else if decide (name_ = "burn"%string) then
    ∃ nAmount, AmountFromValue (find_value outputs name_) = Ok nAmount
               ∧ scriptPubKey out = OP_RETURN_script
               ∧ nValue out = ValueExplicit nAmount
  else
    ∃ nAmount, AmountFromValue (find_value outputs name_) = Ok nAmount
               ∧ scriptPubKey out = GetScriptForDestination (DecodeDestination name_)
               ∧ nValue out = ValueExplicit nAmount.

Lemma ConstructTransaction_output_step outputs assets name_ s s' :
  ConstructTransaction_output outputs assets name_ s = (Ok tt, s') →
  vin (rawTx s') = vin (rawTx s)
  ∧ if decide (name_ = "fee"%string) then
      vout (rawTx s') = vout (rawTx s)
      ∧ ∃ asset nAmount,
          output_asset assets name_ = Ok asset
          ∧ AmountFromValue (find_value outputs name_) = Ok nAmount
          ∧ fee_out s' = CTxOut_new asset nAmount []
    else
      ∃ out, vout (rawTx s') = vout (rawTx s) ++ [out]
             ∧ fee_out s' = fee_out s
             ∧ output_for_key outputs name_ out.
Proof.
  unfold ConstructTransaction_output, output_for_key, push_vout, push_pubkey. monad_unfold.
  destruct (output_asset assets name_) as [asset|e] eqn:Hasset; [|done].
  destruct (decide (name_ = "data"%string)) as [->|Hdata].
  { destruct (has_data s); [done|]. simpl.
    destruct (ParseHexV _ _) as [data|] eqn:Hdata; [|done].
    intros [= <-]. simpl. split; [done|]. eexists. split; [done|]. split; [done|]. 
    by exists data. }
  destruct (decide (name_ = "vdata"%string)) as [->|Hvdata].
  { destruct (get_array _) as [vdata|] eqn:Harr; [|done].
    destruct (vdata_pushes _ _) as [ds|] eqn:Hds; [|done].
    intros [= <-]. simpl. split; [done|]. eexists. split; [done|]. split; [done|].
    exists ds. split; [|done].
    destruct (find_value outputs "vdata"); try discriminate Harr. by injection Harr as <-. }
  destruct (decide (name_ = "fee"%string)) as [->|Hfee].
  { destruct (AmountFromValue _) as [a|] eqn:Ha; [|done].
    intros [= <-]. simpl. split; [done|]. split; [done|]. by exists asset, a. }
  destruct (decide (name_ = "burn"%string)) as [->|Hburn].
  { destruct (AmountFromValue _) as [a|] eqn:Ha; [|done].
    intros [= <-]. simpl. split; [done|]. eexists. split; [done|]. split; [done|].
    by exists a. }
  destruct (negb (IsValidDestination _)); [done|].
  destruct (bool_decide (_ ∈ _)); [done|]. simpl.
  destruct (AmountFromValue _) as [a|] eqn:Ha; [|done].
  intros [= <-]. simpl. split; [done|]. eexists. split; [done|]. split; [done|].
  exists a. split; [done|]. by destruct (IsBlindDestination _ && _).
Qed.

Lemma output_loop_spec outputs assets keys s s' :
  forM_ (ConstructTransaction_output outputs assets) keys s = (Ok tt, s') →
  vin (rawTx s') = vin (rawTx s)
  ∧ ∃ outs,
      vout (rawTx s') = vout (rawTx s) ++ outs
      ∧ Forall2 (output_for_key outputs) (filter (fun k => k ≠ "fee"%string) keys) outs
      ∧ ((¬ ("fee"%string ∈ keys) ∧ fee_out s' = fee_out s)
         ∨ ("fee"%string ∈ keys
            ∧ ∃ asset nAmount,
                output_asset assets "fee" = Ok asset
                ∧ AmountFromValue (find_value outputs "fee") = Ok nAmount
                ∧ fee_out s' = CTxOut_new asset nAmount [])).
Proof.
  revert s. induction keys as [|name_ keys IH]; intros s; simpl.
  - intros [= <-]. split; [done|]. exists []. rewrite app_nil_r.
    split; [done|]. split; [constructor|]. left. split; [apply not_elem_of_nil | done].
  - unfold bind at 1.
    destruct (ConstructTransaction_output outputs assets name_ s) as [[[]|e] s1] eqn:Hstep; [|done].
    intros Hrest. apply ConstructTransaction_output_step in Hstep as [Hvin1 Hstep].
    apply IH in Hrest as (Hvin & outs & Hvout & Houts & Hfee).
    split; [congruence|].
    destruct (decide (name_ = "fee"%string)) as [->|Hne].
    + destruct Hstep as (Hvout1 & asset & nAmount & Hasset & Hamount & Hfee1).
      exists outs. split; [congruence|].
      rewrite filter_cons_False by (intros H; by apply H). split; [done|].
      right. split; [left|].
      destruct Hfee as [[_ Hsame]|[_ Hset]]; [|done].
      exists asset, nAmount. split; [done|]. split; [done|]. congruence.
    + destruct Hstep as (out & Hvout1 & Hfee1 & Hout).
      exists (out :: outs). split.
      { rewrite Hvout, Hvout1. by rewrite <- app_assoc. }
      rewrite filter_cons_True by done. split; [by constructor|].
      destruct Hfee as [[Hnotin Hsame]|[Hin Hset]].
      * left. split; [|congruence]. rewrite not_elem_of_cons. split; [congruence | done].
      * right. split; [by right | done].
Qed.

Lemma append_fee_output_spec s :
  ∃ s', append_fee_output s = (Ok tt, s')
        ∧ vin (rawTx s') = vin (rawTx s)
        ∧ vout (rawTx s') =
            vout (rawTx s)
            ++ (if negb (value_IsNull (nValue (fee_out s)))
                   && (0 <? value_GetAmount (nValue (fee_out s)))
                then [fee_out s] else []).
Proof.
  unfold append_fee_output, push_vout, push_pubkey. monad_unfold.
  destruct (negb _ && _); eexists; (split; [done|]); simpl; split; try done.
  by rewrite app_nil_r.
Qed.

(** The input loop leaves the outputs alone. *)
Lemma CreatePegInInputInner_vout `{PC : ParentChain} idx claim_scripts txData txOutProofData :
  frame (same vout) (CreatePegInInputInner idx claim_scripts txData txOutProofData).
Proof. unfold CreatePegInInputInner. frame_steps; done. Qed.

Lemma ConstructTransaction_input_vout rbf allow_peg_in idx input :
  frame (same vout) (ConstructTransaction_input rbf allow_peg_in idx input).
Proof.
  unfold ConstructTransaction_input, ConstructTransaction_pegin, CreatePegInInput.
  frame_steps; try done; apply CreatePegInInputInner_vout.
Qed.

Lemma input_loop_vout rbf allow_peg_in inputs idx :
  frame (same vout) (for_idx (ConstructTransaction_input rbf allow_peg_in) idx inputs).
Proof.
  revert idx. induction inputs as [|input inputs IH]; intros idx; simpl.
  - apply frame_ret, _.
  - apply frame_bind; [apply _ | apply ConstructTransaction_input_vout | intros _; apply IH].
Qed.

Lemma bind_Ok_inv {St A B} (c : M St A) (k : A → M St B) s b s' :
  bind c k s = (Ok b, s') → ∃ a s1, c s = (Ok a, s1) ∧ k a s1 = (Ok b, s').
Proof.
  unfold bind. destruct (c s) as [[a|e] s1]; [|done]. intros H. by exists a, s1.
Qed.

Lemma throw_if_Ok_inv {St} b e (s : St) u s' :
  throw_if b e s = (Ok u, s') → b = false ∧ s' = s.
Proof. destruct b; [done|]. by intros [= _ <-]. Qed.

Lemma lift_Ok_inv {St A} (r : result A) (s : St) a s' :
  lift r s = (Ok a, s') → r = Ok a ∧ s' = s.
Proof. by intros [= -> <-]. Qed.

(** The output specification as one object: itself, or the translation of
    the array of single-key objects. *)
Definition normalized_outputs (outputs_in : UniValue) : result UniValue :=
  if isObject outputs_in then Ok outputs_in
  else match get_array outputs_in with
       | Ok outputs => translate_outputs (values outputs) (VOBJ [])
       | Throw e => Throw e
       end.

(** The asset map the output loop consults. *)
Definition assets_object (assets_in : UniValue) : result UniValue :=
  if negb (isNull assets_in) then get_obj assets_in else Ok VNULL.

(** The outputs that the fee entry of [outputs] contributes: its output
    when the amount is positive, none when it is zero or there is no fee
    entry. *)
Definition fee_outputs (outputs assets : UniValue) (keys : list string) (outs : list CTxOut) : Prop :=
  (¬ ("fee"%string ∈ keys) ∧ outs = [])
  ∨ ("fee"%string ∈ keys
     ∧ ∃ asset nAmount,
         output_asset assets "fee" = Ok asset
         ∧ AmountFromValue (find_value outputs "fee") = Ok nAmount
         ∧ outs = if 0 <? nAmount then [CTxOut_new asset nAmount []] else []).

Lemma ConstructTransaction_build_outputs inputs_in outputs_in locktime rbf assets_in pubkeys_out
    allow_peg_in s :
  ConstructTransaction_build inputs_in outputs_in locktime rbf assets_in allow_peg_in
    (CtState_init pubkeys_out) = (Ok tt, s) →
  ∃ outputs assets keys outs fee_part,
    normalized_outputs outputs_in = Ok outputs
    ∧ assets_object assets_in = Ok assets
    ∧ getKeys outputs = Ok keys
    ∧ vout (rawTx s) = outs ++ fee_part
    ∧ Forall2 (output_for_key outputs) (filter (fun k => k ≠ "fee"%string) keys) outs
    ∧ fee_outputs outputs assets keys fee_part.
Proof.
  unfold ConstructTransaction_build. intros H.
  apply bind_Ok_inv in H as (? & s0 & H0 & H). apply throw_if_Ok_inv in H0 as [_ Hs0]; subst s0.
  apply bind_Ok_inv in H as (inputs & s0 & H0 & H). apply lift_Ok_inv in H0 as [Hinputs Hs0]; subst s0.
  apply bind_Ok_inv in H as (outputs0 & s0 & H0 & H). apply lift_Ok_inv in H0 as [Houtputs0 Hs0]; subst s0.
  apply bind_Ok_inv in H as (? & s1 & Hlock & H).
  assert (vout (rawTx s1) = [] ∧ fee_out s1 = CTxOut_null) as [Hvout1 Hfee1].
  { destruct (negb (isNull locktime)).
    - apply bind_Ok_inv in Hlock as (nLock & s0 & H0 & Hlock). apply lift_Ok_inv in H0 as [_ Hs0]; subst s0.
      apply bind_Ok_inv in Hlock as (? & s0 & H0 & Hlock). apply throw_if_Ok_inv in H0 as [_ Hs0]; subst s0.
      unfold modify in Hlock. by simplify_eq.
    - unfold ret in Hlock. by simplify_eq. }
  apply bind_Ok_inv in H as (assets & s0 & H0 & H). apply lift_Ok_inv in H0 as [Hassets Hs0]; subst s0.
  apply bind_Ok_inv in H as (? & s2 & Hin & H).
  assert (vout (rawTx s2) = [] ∧ fee_out s2 = CTxOut_null) as [Hvout2 Hfee2].
  { unfold on_rawTx in Hin. injection Hin as _ <-. simpl. split; [|done].
    destruct (for_idx _ _ _ _) as [r tx'] eqn:Hloop. apply input_loop_vout in Hloop.
    simpl. unfold same in Hloop. congruence. }
  apply bind_Ok_inv in H as (outputs & s0 & H0 & H). apply lift_Ok_inv in H0 as [Houtputs Hs0]; subst s0.
  apply bind_Ok_inv in H as (keys & s0 & H0 & H). apply lift_Ok_inv in H0 as [Hkeys Hs0]; subst s0.
  apply bind_Ok_inv in H as (u3 & s3 & Hloop & H). destruct u3.
  apply output_loop_spec in Hloop as (_ & outs & Hvout3 & Houts & Hfee3).
  destruct (append_fee_output_spec s3) as (s' & Hfee & _ & Hvout).
  rewrite Hfee in H. injection H as <-.
  rewrite Hvout2 in Hvout3. simpl in Hvout3.
  exists outputs, assets, keys, outs. eexists.
  split.
  { unfold normalized_outputs. destruct (isObject outputs_in).
    - destruct outputs_in; try discriminate Houtputs0. by injection Houtputs0 as <-.
    - rewrite Houtputs0. done. }
  split; [done|]. split; [done|]. split; [rewrite Hvout, Hvout3; reflexivity|].
  split; [done|].
  destruct Hfee3 as [[Hnotin Hsame]|(Hin3 & asset & nAmount & Hasset & Hamount & Hset)].
  - left. split; [done|]. by rewrite Hsame, Hfee2.
  - right. split; [done|]. exists asset, nAmount. split; [done|]. split; [done|].
    rewrite Hset. simpl. done.
Qed.

(** The array entry holding the single pair [p]. *)
Definition single_pair (p : string * UniValue) : UniValue := VOBJ [p].

(** The array form translates only when each entry holds one pair; the
    object is then the pairs in the order of the array. *)
Lemma translate_outputs_Ok outputs acc dict :
  translate_outputs outputs (VOBJ acc) = Ok dict →
  ∃ pairs, outputs = single_pair <$> pairs ∧ dict = VOBJ (acc ++ pairs).
Proof.
  revert acc. induction outputs as [|output outputs IH]; intros acc; simpl.
  - intros [= <-]. exists []. by rewrite app_nil_r.
  - destruct output as [|kvs| | | |]; try done. simpl.
    destruct kvs as [|p [|p' kvs]]; try done. simpl.
    intros Hrest. apply IH in Hrest as (pairs & -> & ->).
    exists (p :: pairs). by rewrite <- app_assoc.
Qed.

Lemma normalized_outputs_Ok outputs_in outputs :
  normalized_outputs outputs_in = Ok outputs →
  ∃ pairs, (outputs_in = VOBJ pairs ∨ outputs_in = VARR (single_pair <$> pairs))
           ∧ outputs = VOBJ pairs.
Proof.
  unfold normalized_outputs.
  destruct outputs_in as [|kvs|vs| | |]; try done; simpl.
  - intros [= <-]. exists kvs. split; [by left | done].
  - intros Htr. apply translate_outputs_Ok in Htr as (pairs & -> & ->).
    exists pairs. split; [by right | done].
Qed.

(** [v] is the value of the first pair of [pairs] with the key "fee". *)
Definition first_fee_entry (pairs : list (string * UniValue)) (v : UniValue) : Prop :=
  ∃ before after,
    pairs = before ++ ("fee"%string, v) :: after ∧ ¬ ("fee"%string ∈ before.*1).

Lemma findKey_first pairs key :
  key ∈ pairs.*1 →
  ∃ before v after,
    pairs = before ++ (key, v) :: after ∧ ¬ (key ∈ before.*1) ∧ findKey pairs key = Some v.
Proof.
  induction pairs as [|[k v] pairs IH]; simpl.
  - intros Hin. by apply elem_of_nil in Hin.
  - intros Hin. destruct (decide (k = key)) as [->|Hne].
    + exists [], v, pairs. split; [done|]. split; [apply not_elem_of_nil | done].
    + apply elem_of_cons in Hin as [Heq|Hin]; [congruence|].
      destruct (IH Hin) as (before & v' & after & -> & Hnot & Hfind).
      exists ((k, v) :: before), v', after. split; [done|]. split; [|done].
      simpl. rewrite not_elem_of_cons. split; [congruence | done].
Qed.

(** The claim as the specification words it: a "fee" entry of the output
    specification whose amount is not zero gives the last output of the
    transaction. *)
Definition fee_entry_gives_last_output (pairs : list (string * UniValue))
    (tx : CMutableTransaction) : Prop :=
  ∀ v nAmount,
    ("fee"%string, v) ∈ pairs →
    AmountFromValue v = Ok nAmount →
    nAmount ≠ 0 →
    ∃ asset, last (vout tx) = Some (CTxOut_new asset nAmount []).

(** C6, amended. The output specification is an object, or an array of
    single-pair objects; either way it comes down to a list of pairs, kept
    in the caller's order. When construction succeeds, the outputs of the
    transaction are the outputs of the pairs whose key is not "fee", one
    per pair and in the order of the pairs, followed by the fee output:
    wherever the "fee" key stands among the pairs its output comes last.
    The fee amount is that of the first pair with the key "fee" (a later
    pair with that key is read as the first one again): the fee output is
    there when that amount is positive, and no fee output is appended when
    it is zero or there is no fee entry. *)
Theorem ConstructTransaction_fee_output_last (inputs_in outputs_in locktime : UniValue)
    (rbf : bool) (assets_in : UniValue) (pubkeys_out : option (list CPubKey))
    (allow_peg_in : bool) (tx : CMutableTransaction) :
  (ConstructTransaction inputs_in outputs_in locktime rbf assets_in pubkeys_out allow_peg_in).1
    = Ok tx →
  ∃ pairs assets outs fee_part,
    (outputs_in = VOBJ pairs ∨ outputs_in = VARR (single_pair <$> pairs))
    ∧ assets_object assets_in = Ok assets
    ∧ vout tx = outs ++ fee_part
    ∧ Forall2 (output_for_key (VOBJ pairs)) (filter (fun k => k ≠ "fee"%string) pairs.*1) outs
    ∧ ((¬ ("fee"%string ∈ pairs.*1) ∧ fee_part = [])
       ∨ ∃ v asset nAmount,
           first_fee_entry pairs v
           ∧ output_asset assets "fee" = Ok asset
           ∧ AmountFromValue v = Ok nAmount
           ∧ fee_part = if 0 <? nAmount then [CTxOut_new asset nAmount []] else []).
Proof.
  destruct (ConstructTransaction_build inputs_in outputs_in locktime rbf assets_in allow_peg_in
              (CtState_init pubkeys_out)) as [r s] eqn:Hbuild.
  rewrite (ConstructTransaction_after_build _ _ _ _ _ _ _ _ _ Hbuild).
  destruct r as [[]|e]; [|done].
  destruct (rbf && _ && _); [done|]. simpl. intros [= <-].
  apply ConstructTransaction_build_outputs in Hbuild
    as (outputs & assets & keys & outs & fee_part & Hnorm & Hassets & Hkeys & Hvout & Houts
        & Hfee).
  apply normalized_outputs_Ok in Hnorm as (pairs & Hform & ->).
  simpl in Hkeys. injection Hkeys as <-.
  exists pairs, assets, outs, fee_part.
  split; [done|]. split; [done|]. split; [done|]. split; [done|].
  destruct Hfee as [[Hnotin ->]|(Hin & asset & nAmount & Hasset & Hamount & ->)].
  - by left.
  - right. destruct (findKey_first _ _ Hin) as (before & v & after & Hpairs & Hnot & Hfind).
    exists v, asset, nAmount. split; [by exists before, after|]. split; [done|].
    split; [|done]. simpl in Hamount. by rewrite Hfind in Hamount.
Qed.

End ConstructorOutputs.

(** ** Peg-in inputs and replaceability *)

Section ConstructorPegin.
Context `{SS : ScriptServices} `{CS : ChainServices} `{RS : RpcServices} `{PCS : ParentChains}.

(** The input object carries all three peg-in fields. *)
Definition has_pegin_fields (input : UniValue) : Prop :=
  isNull (find_value input "pegin_bitcoin_tx") = false
  ∧ isNull (find_value input "pegin_txout_proof") = false
  ∧ isNull (find_value input "pegin_claim_script") = false.

Definition final_pegin (txin : CTxIn) : Prop :=
  nSequence txin = SEQUENCE_FINAL ∧ m_is_pegin txin = true.

Lemma CreatePegInInputInner_appended `{PC : ParentChain} claim_scripts txData txOutProofData
    tx txin decoded tx' :
  CreatePegInInputInner (length (vin tx)) claim_scripts txData txOutProofData
    (set_vin (fun v => v ++ [txin]) tx) = (Ok decoded, tx') →
  ∃ txin', vin tx' = vin tx ++ [txin'] ∧ final_pegin txin'.
Proof.
  destruct decoded as [txBTCRef merkleBlock]. intros Hok.
  apply CreatePegInInputInner_Ok in Hok as (_ & _ & _ & _ & _ & value & _ & -> & _ & _).
  simpl. rewrite grow_in_range by (rewrite length_app; simpl; lia).
  replace (length (vin tx)) with (length (vin tx) + 0)%nat by lia.
  rewrite insert_app_r, alter_app_r. simpl.
  eexists. split; [done|]. done.
Qed.

(** One turn of the input loop on an input with all peg-in fields, when it
    succeeds, appends a peg-in input with the final sequence number. *)
Lemma ConstructTransaction_input_pegin rbf allow_peg_in input tx tx' :
  has_pegin_fields input →
  ConstructTransaction_input rbf allow_peg_in (length (vin tx)) input tx = (Ok tt, tx') →
  ∃ txin', vin tx' = vin tx ++ [txin'] ∧ final_pegin txin'.
Proof.
  intros (Htx & Hproof & Hscript). unfold ConstructTransaction_input. intros H.
  apply bind_Ok_inv in H as (o & s0 & H0 & H). apply lift_Ok_inv in H0 as [Hobj Hs0]; subst s0.
  assert (o = input) as -> by (destruct input; simpl in Hobj; congruence).
  apply bind_Ok_inv in H as (txid & s0 & H0 & H). apply lift_Ok_inv in H0 as [_ Hs0]; subst s0.
  apply bind_Ok_inv in H as (? & s0 & H0 & H). apply throw_if_Ok_inv in H0 as [_ Hs0]; subst s0.
  apply bind_Ok_inv in H as (nOutput & s0 & H0 & H). apply lift_Ok_inv in H0 as [_ Hs0]; subst s0.
  apply bind_Ok_inv in H as (? & s0 & H0 & H). apply throw_if_Ok_inv in H0 as [_ Hs0]; subst s0.
  apply bind_Ok_inv in H as (rawTx0 & s0 & H0 & H). unfold get in H0. simplify_eq.
  apply bind_Ok_inv in H as (seq & s0 & H0 & H). apply lift_Ok_inv in H0 as [_ Hs0]; subst s0.
  apply bind_Ok_inv in H as (? & s0 & H0 & H). unfold modify in H0. simplify_eq.
  unfold ConstructTransaction_pegin in H. rewrite Htx, Hproof, Hscript in H. simpl in H.
  destruct allow_peg_in; simpl in H; [|done].
  apply bind_Ok_inv in H as (script_hex & s0 & H0 & H). apply lift_Ok_inv in H0 as [_ Hs0]; subst s0.
  apply bind_Ok_inv in H as (? & s0 & H0 & H). apply throw_if_Ok_inv in H0 as [_ Hs0]; subst s0.
  destruct ParentChainHasPow.
  all: apply bind_Ok_inv in H as (tx_hex & s0 & H0 & H);
    apply lift_Ok_inv in H0 as [_ Hs0]; subst s0.
  all: apply bind_Ok_inv in H as (proof_hex & s0 & H0 & H);
    apply lift_Ok_inv in H0 as [_ Hs0]; subst s0.
  all: apply bind_Ok_inv in H as (decoded & s0 & H0 & H).
  all: apply throw_if_Ok_inv in H as [_ ->].
  all: by apply CreatePegInInputInner_appended in H0.
Qed.

Lemma input_loop_pegin rbf allow_peg_in inputs tx tx' :
  Forall has_pegin_fields inputs →
  Forall final_pegin (vin tx) →
  for_idx (ConstructTransaction_input rbf allow_peg_in) (length (vin tx)) inputs tx = (Ok tt, tx') →
  Forall final_pegin (vin tx') ∧ length (vin tx') = (length (vin tx) + length inputs)%nat.
Proof.
  intros Hinputs. revert tx. induction Hinputs as [|input inputs Hinput Hinputs IH]; intros tx Hvin; simpl.
  - intros [= <-]. split; [done | lia].
  - intros H. apply bind_Ok_inv in H as ([] & tx1 & Hstep & H).
    apply ConstructTransaction_input_pegin in Hstep as (txin' & Hvin1 & Hfinal); [|done].
    replace (S (length (vin tx))) with (length (vin tx1)) in H
      by (rewrite Hvin1, length_app; simpl; lia).
    apply IH in H as [Hall Hlen].
    + split; [done|]. rewrite Hlen, Hvin1, length_app. simpl. lia.
    + rewrite Hvin1. apply Forall_app. split; [done|]. by constructor.
Qed.

Lemma final_pegin_no_signal tx :
  Forall final_pegin (vin tx) → SignalsOptInRBF tx = false.
Proof.
  unfold SignalsOptInRBF. induction 1 as [|txin l [Hseq _] _ IH]; simpl; [done|].
  rewrite IH, Hseq. done.
Qed.

(** The inputs of the built transaction are those the input loop leaves,
    started from a transaction without inputs. *)
Lemma ConstructTransaction_build_inputs inputs_in outputs_in locktime rbf assets_in pubkeys_out
    allow_peg_in s :
  ConstructTransaction_build inputs_in outputs_in locktime rbf assets_in allow_peg_in
    (CtState_init pubkeys_out) = (Ok tt, s) →
  ∃ inputs tx0 tx1,
    (if isNull inputs_in then Ok (VARR []) else get_array inputs_in) = Ok inputs
    ∧ vin tx0 = []
    ∧ for_idx (ConstructTransaction_input rbf allow_peg_in) 0 (values inputs) tx0 = (Ok tt, tx1)
    ∧ vin (rawTx s) = vin tx1.
Proof.
  unfold ConstructTransaction_build. intros H.
  apply bind_Ok_inv in H as (? & s0 & H0 & H). apply throw_if_Ok_inv in H0 as [_ Hs0]; subst s0.
  apply bind_Ok_inv in H as (inputs & s0 & H0 & H). apply lift_Ok_inv in H0 as [Hinputs Hs0]; subst s0.
  apply bind_Ok_inv in H as (outputs0 & s0 & H0 & H). apply lift_Ok_inv in H0 as [_ Hs0]; subst s0.
  apply bind_Ok_inv in H as (? & s1 & Hlock & H).
  assert (vin (rawTx s1) = []) as Hvin1.
  { destruct (negb (isNull locktime)).
    - apply bind_Ok_inv in Hlock as (nLock & s0 & H0 & Hlock). apply lift_Ok_inv in H0 as [_ Hs0]; subst s0.
      apply bind_Ok_inv in Hlock as (? & s0 & H0 & Hlock). apply throw_if_Ok_inv in H0 as [_ Hs0]; subst s0.
      unfold modify in Hlock. by simplify_eq.
    - unfold ret in Hlock. by simplify_eq. }
  apply bind_Ok_inv in H as (assets & s0 & H0 & H). apply lift_Ok_inv in H0 as [_ Hs0]; subst s0.
  apply bind_Ok_inv in H as (u2 & s2 & Hin & H). destruct u2.
  unfold on_rawTx in Hin.
  destruct (for_idx _ _ _ (rawTx s1)) as [r tx1] eqn:Hloop. simpl in Hin.
  injection Hin as -> <-.
  apply bind_Ok_inv in H as (outputs & s0 & H0 & H). apply lift_Ok_inv in H0 as [_ Hs0]; subst s0.
  apply bind_Ok_inv in H as (keys & s0 & H0 & H). apply lift_Ok_inv in H0 as [_ Hs0]; subst s0.
  apply bind_Ok_inv in H as (u3 & s3 & Hout & H). destruct u3.
  apply output_loop_spec in Hout as (Hvin3 & _).
  destruct (append_fee_output_spec s3) as (s' & Hfee & Hvin & _).
  rewrite Hfee in H. injection H as <-.
  exists inputs, (rawTx s1), tx1. split; [done|]. split; [done|]. split; [done|].
  rewrite Hvin, Hvin3. done.
Qed.

(** C10. An input that peg-in construction populates ends with the
    sequence number 0xffffffff (SEQUENCE_FINAL), whatever the input slot
    held before; so does the input that one turn of the input loop of
    [ConstructTransaction] appends for an input object with the peg-in
    fields, whatever the RBF flag, the lock-time and the "sequence" field
    of the object are. Such an input does not signal opt-in replaceability
    by itself, and with the RBF flag set a construction with at least one
    input, all of them with the peg-in fields, always throws. *)
Theorem pegin_input_sequence_is_final :
  (∀ (PC : ParentChain) input_idx claim_scripts txData txOutProofData mtx decoded mtx',
     CreatePegInInput input_idx claim_scripts txData txOutProofData mtx = (Ok decoded, mtx') →
     ∃ txin, vin mtx' !! input_idx = Some txin
             ∧ nSequence txin = 0xffffffff
             ∧ SignalsOptInRBF (mkTx [txin] [] [] 0) = false)
  ∧ (∀ rbf allow_peg_in input tx tx',
       has_pegin_fields input →
       ConstructTransaction_input rbf allow_peg_in (length (vin tx)) input tx = (Ok tt, tx') →
       ∃ txin, vin tx' = vin tx ++ [txin] ∧ nSequence txin = 0xffffffff)
  ∧ (∀ inputs outputs_in locktime assets_in pubkeys_out allow_peg_in,
       inputs ≠ [] →
       Forall has_pegin_fields inputs →
       is_error (ConstructTransaction (VARR inputs) outputs_in locktime true assets_in
                   pubkeys_out allow_peg_in).1).
Proof.
  split; [|split].
  - intros PC input_idx claim_scripts txData txOutProofData mtx [tx mb] mtx' Hok.
    apply CreatePegInInputInner_Ok_slot in Hok as (value & _ & Hvin & _).
    eexists. split; [exact Hvin|]. done.
  - intros rbf allow_peg_in input tx tx' Hfields Hstep.
    apply ConstructTransaction_input_pegin in Hstep as (txin & Hvin & Hseq & _); [|done].
    by exists txin.
  - intros inputs outputs_in locktime assets_in pubkeys_out allow_peg_in Hne Hfields.
    destruct (ConstructTransaction_build (VARR inputs) outputs_in locktime true assets_in
                allow_peg_in (CtState_init pubkeys_out)) as [r s] eqn:Hbuild.
    rewrite (ConstructTransaction_after_build _ _ _ _ _ _ _ _ _ Hbuild).
    destruct r as [[]|e]; [|done].
    apply ConstructTransaction_build_inputs in Hbuild
      as (inputs' & tx0 & tx1 & Hinputs & Hvin0 & Hloop & Hvin).
    simpl in Hinputs. injection Hinputs as <-. simpl in Hloop.
    replace 0%nat with (length (vin tx0)) in Hloop by (by rewrite Hvin0).
    apply input_loop_pegin in Hloop as [Hall Hlen]; [|done|by rewrite Hvin0].
    rewrite <- Hvin in Hall, Hlen.
    rewrite (final_pegin_no_signal _ Hall).
    destruct (vin (rawTx s)) as [|txin l].
    + rewrite Hvin0 in Hlen. destruct inputs; [done | simpl in Hlen; lia].
    + done.
Qed.

End ConstructorPegin.

(** ** The signing orchestrator *)

Section SigningFacts.
Context `{SS : ScriptServices} `{CS : ChainServices} `{RS : RpcServices} `{SG : SigningServices}.

(** The message by which the verifier reports too few confirmations. *)
Definition needs_more_confirmations : string := "Needs more confirmations.".

(** The warning of line 561. *)
Definition immature_warning : UniValue :=
  VSTR "Possibly immature peg-in input(s) detected, signed anyways.".

(** Input [i] is a peg-in whose witness passes verification without the
    depth check and fails it with the depth check, the verifier reporting
    exactly [needs_more_confirmations]. *)
Definition immature_pegin_at (mtx : CMutableTransaction) (feds : list (CScript * CScript))
    (i : nat) : Prop :=
  ∃ txin txinwit,
    vin mtx !! i = Some txin ∧ m_is_pegin txin = true ∧ vtxinwit mtx !! i = Some txinwit
    ∧ (IsValidPeginWitness (m_pegin_witness txinwit) feds (prevout txin) false).1 = true
    ∧ IsValidPeginWitness (m_pegin_witness txinwit) feds (prevout txin) true
      = (false, needs_more_confirmations).

(** The assertion of line 521 holds at every input: a witness that passes
    without the depth check fails with it only by that message. *)
Definition depth_message_exact (mtx : CMutableTransaction) (feds : list (CScript * CScript)) : Prop :=
  ∀ i txin txinwit,
    vin mtx !! i = Some txin → m_is_pegin txin = true → vtxinwit mtx !! i = Some txinwit →
    (IsValidPeginWitness (m_pegin_witness txinwit) feds (prevout txin) false).1 = true →
    (IsValidPeginWitness (m_pegin_witness txinwit) feds (prevout txin) true).1 = false →
    (IsValidPeginWitness (m_pegin_witness txinwit) feds (prevout txin) true).2
    = needs_more_confirmations.

Lemma validate_pegin_loop_spec mtx feds ins i immature errs :
  (∀ k txin, ins !! k = Some txin → vin mtx !! (i + k)%nat = Some txin) →
  depth_message_exact mtx feds →
  ∃ b errs',
    validate_pegin_loop mtx feds i ins immature errs = (Ok b, errs')
    ∧ (immature = true → b = true)
    ∧ ∀ j, immature_pegin_at mtx feds j →
           errs' !! Z.of_nat j = errs !! Z.of_nat j
           ∧ ((i ≤ j < i + length ins)%nat → b = true).
Proof.
  intros Hins Hexact. revert i immature errs Hins.
  induction ins as [|txin rest IH]; intros i immature errs Hins; simpl.
  - exists immature, errs. split; [done|]. split; [done|].
    intros j _. split; [done | lia].
  - assert (vin mtx !! i = Some txin) as Hi.
    { specialize (Hins 0%nat txin eq_refl). by rewrite Nat.add_0_r in Hins. }
    assert (∀ k txin', rest !! k = Some txin' → vin mtx !! (S i + k)%nat = Some txin') as Hrest.
    { intros k txin' Hk. specialize (Hins (S k) txin' Hk).
      by replace (i + S k)%nat with (S i + k)%nat in Hins by lia. }
    (* an error written at [i] leaves the immature inputs alone *)
    assert (∀ immature0,
      (∀ j, immature_pegin_at mtx feds j → j ≠ i) →
      ∃ b errs',
        (modify (<[Z.of_nat i := "Peg-in input has invalid proof."%string]>) ;;;
         validate_pegin_loop mtx feds (S i) rest immature0) errs = (Ok b, errs')
        ∧ (immature0 = true → b = true)
        ∧ ∀ j, immature_pegin_at mtx feds j →
               errs' !! Z.of_nat j = errs !! Z.of_nat j
               ∧ ((i ≤ j < i + S (length rest))%nat → b = true)) as Hwrite.
    { intros immature0 Hnot. unfold bind, modify.
      destruct (IH (S i) immature0 (<[Z.of_nat i := "Peg-in input has invalid proof."%string]> errs) Hrest)
        as (b & errs' & Hloop & Himm & Hj).
      exists b, errs'. split; [done|]. split; [done|].
      intros j Hjimm. destruct (Hj j Hjimm) as [Hlook Hb]. split.
      - rewrite Hlook. apply lookup_insert_ne. specialize (Hnot j Hjimm). lia.
      - intros Hrange. apply Hb. specialize (Hnot j Hjimm). lia. }
    (* no error written at [i] *)
    assert (∀ immature0,
      (∀ j, immature_pegin_at mtx feds j → j = i → immature0 = true) →
      ∃ b errs',
        validate_pegin_loop mtx feds (S i) rest immature0 errs = (Ok b, errs')
        ∧ (immature0 = true → b = true)
        ∧ ∀ j, immature_pegin_at mtx feds j →
               errs' !! Z.of_nat j = errs !! Z.of_nat j
               ∧ ((i ≤ j < i + S (length rest))%nat → b = true)) as Hskip.
    { intros immature0 Hnot.
      destruct (IH (S i) immature0 errs Hrest) as (b & errs' & Hloop & Himm & Hj).
      exists b, errs'. split; [done|]. split; [done|].
      intros j Hjimm. destruct (Hj j Hjimm) as [Hlook Hb]. split; [done|].
      intros Hrange. destruct (decide (j = i)) as [->|Hne].
      - apply Himm. by apply (Hnot i).
      - apply Hb. lia. }
    destruct (m_is_pegin txin) eqn:Hpegin.
    + destruct (vtxinwit mtx !! i) as [txinwit|] eqn:Hwit.
      * destruct (IsValidPeginWitness (m_pegin_witness txinwit) feds (prevout txin) false).1
          eqn:Hshallow; simpl.
        -- destruct (IsValidPeginWitness (m_pegin_witness txinwit) feds (prevout txin) true).1
             eqn:Hdeep; simpl.
           ++ destruct (Hskip immature) as (b & errs' & Hloop & Himm & Hj).
              { intros j (txin' & w' & Hv & _ & Hw & _ & Hd) ->.
                rewrite Hi in Hv. rewrite Hwit in Hw. simplify_eq.
                rewrite Hd in Hdeep. done. }
              by exists b, errs'.
           ++ rewrite (Hexact i txin txinwit Hi Hpegin Hwit Hshallow Hdeep).
              unfold bind at 1. simpl.
              destruct (Hskip true) as (b & errs' & Hloop & Himm & Hj); [done|].
              exists b, errs'. split; [done|]. split; [|done]. intros _. by apply Himm.
        -- destruct (Hwrite immature) as (b & errs' & Hloop & Himm & Hj); [|by exists b, errs'].
           intros j (txin' & w' & Hv & _ & Hw & Hs & _) ->.
           rewrite Hi in Hv. rewrite Hwit in Hw. simplify_eq. congruence.
      * destruct (Hwrite immature) as (b & errs' & Hloop & Himm & Hj); [|by exists b, errs'].
        intros j (txin' & w' & _ & _ & Hw & _) ->. congruence.
    + destruct (Hskip immature) as (b & errs' & Hloop & Himm & Hj); [|by exists b, errs'].
      intros j (txin' & w' & Hv & Hp & _) ->. rewrite Hi in Hv. simplify_eq. congruence.
Qed.

Lemma ValidateTransactionPeginInputs_immature mtx i errs :
  depth_message_exact mtx (GetValidFedpegScripts true) →
  immature_pegin_at mtx (GetValidFedpegScripts true) i →
  ∃ errs',
    ValidateTransactionPeginInputs mtx errs = (Ok true, errs')
    ∧ errs' !! Z.of_nat i = errs !! Z.of_nat i.
Proof.
  intros Hexact Himm. unfold ValidateTransactionPeginInputs.
  destruct (validate_pegin_loop_spec mtx (GetValidFedpegScripts true) (vin mtx) 0 false errs)
    as (b & errs' & Hloop & _ & Hj); [done|done|].
  destruct (Hj i Himm) as [Hlook Hb].
  assert (b = true) as ->.
  { apply Hb. destruct Himm as (txin & _ & Hv & _). apply lookup_lt_Some in Hv. lia. }
  by exists errs'.
Qed.

Lemma findKey_replace_or_append kvs key val key' :
  findKey (replace_or_append kvs key val) key'
  = if decide (key = key') then Some val else findKey kvs key'.
Proof.
  induction kvs as [|[k v] kvs IH]; simpl.
  - by destruct (decide (key = key')).
  - destruct (decide (k = key)) as [->|Hk]; simpl.
    + by destruct (decide (key = key')).
    + destruct (decide (k = key')) as [->|Hk'].
      * by rewrite decide_False by congruence.
      * done.
Qed.

Lemma find_value_pushKV_eq key val obj :
  isObject obj = true → find_value (pushKV key val obj) key = val.
Proof.
  destruct obj; try done. intros _. simpl.
  by rewrite findKey_replace_or_append, decide_True.
Qed.

Lemma find_value_pushKV_ne key val obj key' :
  key ≠ key' → find_value (pushKV key val obj) key' = find_value obj key'.
Proof.
  intros Hne. destruct obj; try done. simpl.
  by rewrite findKey_replace_or_append, decide_False.
Qed.

Lemma exists_key_pushKV_ne key val obj key' :
  key ≠ key' → exists_key (pushKV key val obj) key' = exists_key obj key'.
Proof.
  intros Hne. destruct obj; try done. simpl.
  by rewrite findKey_replace_or_append, decide_False.
Qed.

Lemma isObject_pushKV key val obj : isObject (pushKV key val obj) = isObject obj.
Proof. by destruct obj. Qed.

(** An error entry that [SignTransactionResultToJSON] can turn into an
    object: not the "Missing amount" message, and the position of an input
    with a witness slot. *)
Definition renderable (mtx : CMutableTransaction) (err_pair : Z * string) : Prop :=
  err_pair.2 ≠ "Missing amount"%string
  ∧ is_Some (vector_at (vin mtx) err_pair.1)
  ∧ is_Some (vector_at (vtxinwit mtx) err_pair.1).

Lemma errors_to_json_renderable mtx coins0 input_errors vs :
  Forall (renderable mtx) input_errors →
  ∃ vs', errors_to_json mtx coins0 input_errors (VARR vs) = Ok (VARR vs').
Proof.
  intros Hall. revert vs. induction Hall as [|[k msg] rest (Hmsg & [txin Hin] & [w Hw]) _ IH];
    intros vs; simpl in *.
  - by exists vs.
  - rewrite decide_False by done. rewrite Hin, Hw. apply IH.
Qed.

(** The "errors" member of [result], if there is one, holds an array or an
    object. *)
Definition errors_mergeable (result : UniValue) : Prop :=
  exists_key result "errors" = true → ∃ more, getValues (find_value result "errors") = Ok more.

Lemma push_errors_spec vErrors result :
  isObject result = true →
  errors_mergeable result →
  ∃ result',
    push_errors vErrors result = (Ok tt, result')
    ∧ isObject result' = true
    ∧ ∀ key, key ≠ "errors"%string → find_value result' key = find_value result key.
Proof.
  intros Hobj Hmerge. unfold push_errors. monad_unfold.
  destruct (negb _); [|by exists result].
  destruct (exists_key result "errors") eqn:Hex.
  - destruct (Hmerge Hex) as (more & ->). eexists. split; [done|].
    rewrite isObject_pushKV. split; [done|].
    intros key Hne. by apply find_value_pushKV_ne.
  - eexists. split; [done|]. rewrite isObject_pushKV. split; [done|].
    intros key Hne. by apply find_value_pushKV_ne.
Qed.

Lemma SignTransactionResultToJSON_spec mtx complete coins0 input_errors immature_pegin result0 :
  isObject result0 = true →
  errors_mergeable result0 →
  map_Forall (fun k msg => renderable mtx (k, msg)) input_errors →
  ∃ result,
    SignTransactionResultToJSON mtx complete coins0 input_errors immature_pegin result0
    = (Ok tt, result)
    ∧ find_value result "hex" = VSTR (EncodeHexTx mtx)
    ∧ find_value result "complete" = VBOOL complete
    ∧ (immature_pegin = true → find_value result "warning" = immature_warning).
Proof.
  intros Hobj Hmerge Hrender.
  assert (Forall (renderable mtx) (map_entries input_errors)) as Hall.
  { unfold map_entries. rewrite merge_sort_Permutation.
    apply map_Forall_to_list in Hrender. eapply Forall_impl; [exact Hrender|].
    by intros [k msg]. }
  destruct (errors_to_json_renderable mtx coins0 _ [] Hall) as (vs' & Herrs).
  set (r1 := pushKV "complete" (VBOOL complete) (pushKV "hex" (VSTR (EncodeHexTx mtx)) result0)).
  destruct (push_errors_spec (VARR vs') r1) as (r2 & Hr2 & Hobj2 & Hsame).
  { unfold r1. by rewrite !isObject_pushKV. }
  { unfold errors_mergeable, r1.
    rewrite !exists_key_pushKV_ne, !find_value_pushKV_ne by done. exact Hmerge. }
  assert (find_value r2 "hex" = VSTR (EncodeHexTx mtx)) as Hhex.
  { rewrite Hsame by done. unfold r1. rewrite find_value_pushKV_ne by done.
    by apply find_value_pushKV_eq. }
  assert (find_value r2 "complete" = VBOOL complete) as Hcomplete.
  { rewrite Hsame by done. unfold r1. apply find_value_pushKV_eq. by rewrite isObject_pushKV. }
  unfold SignTransactionResultToJSON, bind, lift, modify. rewrite Herrs.
  fold r1. rewrite Hr2.
  destruct immature_pegin.
  - eexists. split; [done|]. rewrite !find_value_pushKV_ne by done.
    split; [done|]. split; [done|]. intros _. by apply find_value_pushKV_eq.
  - exists r2. by unfold ret.
Qed.

(** C5. Let input [i] be a peg-in whose witness passes verification without
    the depth check and fails it with the depth check by the message "Needs
    more confirmations." (the only message by which a witness valid without
    the depth check fails with it). Then validation records no error for
    input [i] and reports an immature peg-in; and whatever the signer
    returns, provided its errors can be rendered (none is "Missing amount",
    each is at an input with a witness slot), [SignTransaction] returns with
    the transaction hex, the signer's completeness flag (true when script
    signing succeeds) and the immaturity warning in [result]. *)
Theorem SignTransaction_immature_pegin_warns (mtx : CMutableTransaction) (i : nat)
    (keystore : option Keystore) (coins0 : gmap COutPoint Coin) (hashType : UniValue)
    (nHashType : Z) (result0 : UniValue) :
  immature_pegin_at mtx (GetValidFedpegScripts true) i →
  depth_message_exact mtx (GetValidFedpegScripts true) →
  ParseSighashString hashType = Ok nHashType →
  isObject result0 = true →
  errors_mergeable result0 →
  ∃ input_errors,
    ValidateTransactionPeginInputs mtx ∅ = (Ok true, input_errors)
    ∧ input_errors !! Z.of_nat i = None
    ∧ ∀ complete mtx' input_errors',
        SignTransaction_sign mtx keystore coins0 nHashType input_errors
          = (complete, mtx', input_errors') →
        map_Forall (fun k msg => renderable mtx' (k, msg)) input_errors' →
        ∃ result,
          SignTransaction keystore coins0 hashType (mtx, result0) = (Ok tt, (mtx', result))
          ∧ find_value result "hex" = VSTR (EncodeHexTx mtx')
          ∧ find_value result "complete" = VBOOL complete
          ∧ find_value result "warning" = immature_warning.
Proof.
  intros Himm Hexact Hhash Hobj Hmerge.
  destruct (ValidateTransactionPeginInputs_immature mtx i ∅ Hexact Himm)
    as (input_errors & Hvalidate & Hlook).
  exists input_errors. split; [done|]. split; [by rewrite Hlook, lookup_empty|].
  intros complete mtx' input_errors' Hsign Hrender.
  destruct (SignTransactionResultToJSON_spec mtx' complete coins0 input_errors' true result0
              Hobj Hmerge Hrender) as (result & Hjson & Hhex & Hcomplete & Hwarn).
  exists result. unfold SignTransaction. simpl. rewrite Hhash, Hvalidate, Hsign. simpl.
  rewrite Hjson. simpl. split; [done|]. split; [done|]. split; [done|]. by apply Hwarn.
Qed.

End SigningFacts.

(** ** The statements on the small chain *)

Section SampleChecks.
#[local] Existing Instance Sample.scripts.
#[local] Existing Instance Sample.chain.
#[local] Existing Instance Sample.services.

Definition sample_feds : list (CScript * CScript) :=
  [([xa9], [x52]); (Sample.pays_to [], Sample.fedpegscript)].


(** C2 on the small chain: the second configuration is the first that
    matches, at output 2; a claim script nobody paid to yields the output
    count. *)
Lemma GetPeginTxnOutputIndex_first_match_witness :
  first_index_of (tx_vout Sample.tx1) (mainchain_script_of (Sample.pays_to [], Sample.fedpegscript) Sample.claim_a)
    (GetPeginTxnOutputIndex Sample.tx1 Sample.claim_a sample_feds)
  ∧ GetPeginTxnOutputIndex Sample.tx1 [x00; x0c] sample_feds = 3%nat.
Proof.
  split.
  - apply (proj1 (proj2 (@GetPeginTxnOutputIndex_first_match Sample.scripts Sample.chain Sample.tx1 Sample.claim_a sample_feds))
             [([xa9], [x52])] (Sample.pays_to [], Sample.fedpegscript) []).
    + reflexivity.
    + intros s Hs. apply list_elem_of_singleton in Hs as ->.
      unfold config_matches. vm_compute. intros H. 
      repeat (apply elem_of_cons in H as [H|H]; [discriminate H|]). by apply elem_of_nil in H.
    + unfold config_matches. vm_compute. do 2 right. left.
  - apply (proj2 (proj2 (@GetPeginTxnOutputIndex_first_match Sample.scripts Sample.chain Sample.tx1 [x00; x0c] sample_feds))).
    intros s Hs. unfold config_matches.
    apply elem_of_cons in Hs as [->|Hs]; [|apply list_elem_of_singleton in Hs as ->];
    vm_compute; intros H;
      repeat (apply elem_of_cons in H as [H|H]; [discriminate H|]); by apply elem_of_nil in H.
Defined.

Definition signed_input_tx : CMutableTransaction :=
  mkTx [CTxIn_new (mkOutPoint 5%N 0) [x51] SEQUENCE_FINAL] [] [] 0.

(** C4 on the small chain: an input that carries a scriptSig. *)
Lemma CreatePegInInput_rejects_used_input_witness :
  CreatePegInInput 0 [Sample.claim_a] [x01] [x01] signed_input_tx
  = (Throw input_in_use_error, signed_input_tx).
Proof.
  apply (@CreatePegInInput_rejects_used_input Sample.scripts Sample.chain Sample.services).
  left. eexists. split; [reflexivity | discriminate].
Defined.

(** C1 on the small chain: a proof buffer with one byte left over. *)
Lemma CreatePegInInput_rejects_bad_proof_witness :
  let r := CreatePegInInput 0 [Sample.claim_a] [x01] [x01; x00] CMutableTransaction_default in
  is_error r.1 ∧ r.2 = CMutableTransaction_default
  ∧ (is_Some (decode_tx [x01]) → is_invalid_parameter r.1).
Proof.
  apply (@CreatePegInInput_rejects_bad_proof Sample.scripts Sample.chain Sample.services
           CMutableTransaction_default 0%nat [Sample.claim_a] [x01] [x01; x00] Sample.block1 [x00]).
  - reflexivity.
  - left. discriminate.
Defined.

(** C3 (amended) on the small chain: of the set built from [claim_b] then
    [claim_a], [claim_a] comes first and is selected. *)
Lemma CreatePegInInput_first_claim_script_in_set_order_witness :
  ∃ value,
    GetAmountFromParentChainPegin Sample.tx1 2 = Some value
    ∧ vin (CreatePegInInput 0 (std_set_of [Sample.claim_b; Sample.claim_a]) [x01] [x01]
             CMutableTransaction_default).2 !! 0%nat
      = Some (pegin_txin 7%N 2)
    ∧ vtxinwit (CreatePegInInput 0 (std_set_of [Sample.claim_b; Sample.claim_a]) [x01] [x01]
             CMutableTransaction_default).2 !! 0%nat
      = Some (mkTxInWitness [] [] []
                (CreatePeginWitness value pegged_asset ParentGenesisBlockHash Sample.claim_a
                   Sample.tx1 Sample.block1)).
Proof.
  apply (@CreatePegInInput_first_claim_script_in_set_order Sample.scripts Sample.chain
           Sample.services CMutableTransaction_default 0%nat [] Sample.claim_a [Sample.claim_b]
           [x01] [x01] Sample.tx1 Sample.block1).
  - reflexivity.
  - intros s Hs. by apply elem_of_nil in Hs.
  - vm_compute. discriminate.
Defined.

(** C3 as stated fails: the caller supplies [claim_b] before [claim_a], both
    are paid to by the parent transaction, and the loop selects [claim_a]
    with output 2, not [claim_b] with output 1. *)
Lemma claim_scripts_not_tried_in_supplied_order :
  ¬ tried_in_supplied_order Sample.tx1 (GetValidFedpegScripts true)
      [Sample.claim_b; Sample.claim_a].
Proof.
  intros Hclaim.
  specialize (Hclaim [] Sample.claim_b [Sample.claim_a] eq_refl).
  assert (claim_loop Sample.tx1 (GetValidFedpegScripts true)
            (std_set_of [Sample.claim_b; Sample.claim_a]) (length (tx_vout Sample.tx1)) []
          = (2%nat, Sample.claim_a)) as Hcode by reflexivity.
  rewrite Hcode in Hclaim.
  assert ((2%nat, Sample.claim_a)
          = (GetPeginTxnOutputIndex Sample.tx1 Sample.claim_b (GetValidFedpegScripts true),
             Sample.claim_b)) as Habsurd.
  { apply Hclaim.
    - intros s Hs. by apply elem_of_nil in Hs.
    - vm_compute. discriminate. }
  vm_compute in Habsurd. discriminate Habsurd.
Qed.

#[local] Existing Instance Sample.rpc.
#[local] Existing Instance Sample.signing.
#[local] Existing Instance Sample.chains.

Definition input_plain : UniValue :=
  VOBJ [("txid"%string, VSTR "5"); ("vout"%string, VNUM "0"); ("sequence"%string, VNUM "7")].


Definition input_final : UniValue :=
  VOBJ [("txid"%string, VSTR "5"); ("vout"%string, VNUM "0");
        ("sequence"%string, VNUM "4294967295")].

Definition input_pegin : UniValue :=
  VOBJ [("txid"%string, VSTR "5"); ("vout"%string, VNUM "0"); ("sequence"%string, VNUM "7");
        ("pegin_bitcoin_tx"%string, VSTR (String.string_of_list_byte [x01]));
        ("pegin_txout_proof"%string, VSTR (String.string_of_list_byte [x01]));
        ("pegin_claim_script"%string, VSTR (String.string_of_list_byte Sample.claim_a))].

Definition outputs_fee_first : UniValue :=
  VOBJ [("fee"%string, VNUM "5"); ("addr1"%string, VNUM "10"); ("data"%string, VSTR "ab")].

Definition outputs_burn : UniValue := VOBJ [("burn"%string, VNUM "2")].

Definition outputs_zero_fee : UniValue :=
  VARR [VOBJ [("addr1"%string, VNUM "10")]; VOBJ [("fee"%string, VNUM "0")];
        VOBJ [("burn"%string, VNUM "2")]].





(** C7 on the small chain: one input with the final sequence number, with
    and without the RBF flag. *)
Lemma ConstructTransaction_rbf_check_witness :
  (ConstructTransaction (VARR [input_final]) outputs_burn VNULL true VNULL None true).1
    = Throw rbf_contradiction
  ∧ (ConstructTransaction (VARR [input_final]) outputs_burn VNULL false VNULL None true).1
    = Ok (rawTx (ConstructTransaction_build (VARR [input_final]) outputs_burn VNULL false
                   VNULL true (CtState_init None)).2).
Proof.
  split.
  - destruct (ConstructTransaction_rbf_check (VARR [input_final]) outputs_burn VNULL true
                VNULL None true) as [Hthrow _]; [vm_compute; reflexivity|].
    destruct Hthrow as [Hthrow _];
      [reflexivity | vm_compute; discriminate | vm_compute; reflexivity | exact Hthrow].
  - destruct (ConstructTransaction_rbf_check (VARR [input_final]) outputs_burn VNULL false
                VNULL None true) as [_ Hok]; [vm_compute; reflexivity|].
    apply Hok. by left.
Defined.

(** C6 (amended) on the small chain: the fee key comes first in the
    specification and its output last in the transaction. *)
Lemma ConstructTransaction_fee_output_last_witness :
  ∃ pairs assets outs fee_part,
    (outputs_fee_first = VOBJ pairs ∨ outputs_fee_first = VARR (single_pair <$> pairs))
    ∧ assets_object VNULL = Ok assets
    ∧ [CTxOut_new 1%N 10 (String.list_byte_of_string "addr1");
       CTxOut_new 1%N 0 (x6a :: String.list_byte_of_string "ab");
       CTxOut_new 1%N 5 []] = outs ++ fee_part
    ∧ Forall2 (output_for_key (VOBJ pairs)) (filter (fun k => k ≠ "fee"%string) pairs.*1) outs
    ∧ ((¬ ("fee"%string ∈ pairs.*1) ∧ fee_part = [])
       ∨ ∃ v asset nAmount,
           first_fee_entry pairs v
           ∧ output_asset assets "fee" = Ok asset
           ∧ AmountFromValue v = Ok nAmount
           ∧ fee_part = if 0 <? nAmount then [CTxOut_new asset nAmount []] else []).
Proof.
  apply (ConstructTransaction_fee_output_last (VARR [input_plain]) outputs_fee_first VNULL false
           VNULL None true
           (mkTx [CTxIn_new (mkOutPoint 5%N 0) [] 7]
              [CTxOut_new 1%N 10 (String.list_byte_of_string "addr1");
               CTxOut_new 1%N 0 (x6a :: String.list_byte_of_string "ab");
               CTxOut_new 1%N 5 []] [] 0)).
  vm_compute. reflexivity.
Defined.

(** An array with two fee entries: the first is zero, the last is 5. *)
Definition pairs_two_fees : list (string * UniValue) :=
  [("fee"%string, VNUM "0"); ("addr1"%string, VNUM "10"); ("fee"%string, VNUM "5")].

Definition outputs_two_fees : UniValue := VARR (single_pair <$> pairs_two_fees).

(** C6 as stated fails: the specification holds the entry "fee": 5, the
    construction succeeds, and the transaction has the output of addr1
    only, no fee output, because the fee is read from the first fee entry,
    which is zero. *)
Lemma later_fee_entry_gives_no_output :
  ∃ tx,
    (ConstructTransaction (VARR [input_plain]) outputs_two_fees VNULL false VNULL None true).1
      = Ok tx
    ∧ vout tx = [CTxOut_new 1%N 10 (String.list_byte_of_string "addr1")]
    ∧ ¬ fee_entry_gives_last_output pairs_two_fees tx.
Proof.
  eexists. split; [vm_compute; reflexivity|]. split; [reflexivity|].
  intros Hclaim.
  destruct (Hclaim (VNUM "5") 5) as (asset & Hlast).
  - unfold pairs_two_fees. set_solver.
  - reflexivity.
  - lia.
  - vm_compute in Hlast. discriminate Hlast.
Qed.

Definition outpoint5 : COutPoint := mkOutPoint 5%N 0.

Definition prevout_record : UniValue :=
  VOBJ [("txid"%string, VSTR "5"); ("vout"%string, VNUM "0");
        ("scriptPubKey"%string, VSTR "ab"); ("amount"%string, VNUM "3")].


Definition script_ab : CScript := String.list_byte_of_string "ab".







(** C10 on the small chain: a peg-in built over an input with sequence 7,
    and a construction of one peg-in input with the RBF flag. *)
Lemma pegin_input_sequence_is_final_witness :
  (∃ txin,
     vin (CreatePegInInput 0 [Sample.claim_a] [x01] [x01]
            (mkTx [CTxIn_new outpoint5 [] 7] [] [] 0)).2 !! 0%nat = Some txin
     ∧ nSequence txin = 0xffffffff
     ∧ SignalsOptInRBF (mkTx [txin] [] [] 0) = false)
  ∧ is_error (ConstructTransaction (VARR [input_pegin]) outputs_zero_fee VNULL true VNULL
                None true).1.
Proof.
  split.
  - apply (proj1 (@pegin_input_sequence_is_final Sample.scripts Sample.services Sample.rpc
                    Sample.chains)
             Sample.chain 0%nat [Sample.claim_a] [x01] [x01]
             (mkTx [CTxIn_new outpoint5 [] 7] [] [] 0) (Sample.tx1, Sample.block1)).
    reflexivity.
  - apply (proj2 (proj2 (@pegin_input_sequence_is_final Sample.scripts Sample.services
                           Sample.rpc Sample.chains))).
    + discriminate.
    + constructor; [|constructor]. by repeat split.
Defined.

Definition pegin_tx : CMutableTransaction :=
  (CreatePegInInput 0 [Sample.claim_a] [x01] [x01] CMutableTransaction_default).2.

(** C5 on the small chain: signing the transaction with the peg-in input
    built above. *)
Lemma SignTransaction_immature_pegin_warns_witness :
  ∃ result,
    SignTransaction None ∅ VNULL (pegin_tx, VOBJ []) = (Ok tt, (pegin_tx, result))
    ∧ find_value result "hex" = VSTR (EncodeHexTx pegin_tx)
    ∧ find_value result "complete" = VBOOL true
    ∧ find_value result "warning" = immature_warning.
Proof.
  destruct (SignTransaction_immature_pegin_warns pegin_tx 0 None ∅ VNULL 1 (VOBJ []))
    as (input_errors & Hvalidate & Hnone & Hsign).
  - eexists _, _. repeat split; reflexivity.
  - intros i txin txinwit _ _ _ _ _. reflexivity.
  - reflexivity.
  - reflexivity.
  - intros Hex. discriminate Hex.
  - apply (Hsign true pegin_tx input_errors eq_refl).
    assert (input_errors = ∅) as ->.
    { vm_compute in Hvalidate. by injection Hvalidate as <-. }
    apply map_Forall_empty.
Defined.
End SampleChecks.

(** * Further properties *)

(** ** The claim matcher: what a returned position means *)

Section ClaimMatcherMore.
Context `{SS : ScriptServices} `{PC : ParentChain}.

Lemma GetPeginTxnOutputIndex_sound txn wp feds :
  (GetPeginTxnOutputIndex txn wp feds < length (tx_vout txn))%nat →
  ∃ scripts, scripts ∈ feds
             ∧ tx_vout txn !! GetPeginTxnOutputIndex txn wp feds
               = Some (mainchain_script_of scripts wp).
Proof.
  induction feds as [|scripts rest IH]; simpl; [lia|].
  destruct (scan_outputs _ _ 0) as [r|] eqn:Hscan.
  - intros _. exists scripts. split; [left|].
    apply scan_outputs_Some in Hscan as [_ [Hat _]].
    by replace (r - 0)%nat with r in Hat by lia.
  - intros Hlt. destruct (IH Hlt) as (s & Hs & Hat). exists s. split; [by right | done].
Qed.

(** X1. The position returned by [GetPeginTxnOutputIndex] is never past the
    output count; a position below the count holds the expected script of
    one of the configurations; and the output count is returned only when
    no configuration matches any output (in particular for an empty
    configuration list or a transaction without outputs). *)
Theorem GetPeginTxnOutputIndex_sentinel_iff_no_match (txn : T_tx) (witnessProgram : CScript)
    (fedpegscripts : list (CScript * CScript)) :
  let nOut := GetPeginTxnOutputIndex txn witnessProgram fedpegscripts in
  (nOut ≤ length (tx_vout txn))%nat
  ∧ ((nOut < length (tx_vout txn))%nat →
     ∃ scripts, scripts ∈ fedpegscripts
                ∧ tx_vout txn !! nOut = Some (mainchain_script_of scripts witnessProgram))
  ∧ (nOut = length (tx_vout txn) ↔
     ∀ scripts, scripts ∈ fedpegscripts → ¬ config_matches txn witnessProgram scripts).
Proof.
  intros nOut. split; [apply GetPeginTxnOutputIndex_le|].
  split; [apply GetPeginTxnOutputIndex_sound|].
  split; [|apply GetPeginTxnOutputIndex_none].
  subst nOut. induction fedpegscripts as [|cfg rest IH]; simpl.
  - intros _ scripts Hin. by apply elem_of_nil in Hin.
  - destruct (scan_outputs _ _ 0) as [r|] eqn:Hscan.
    + intros ->. apply scan_outputs_Some in Hscan as [_ Hfirst].
      apply first_index_of_lt in Hfirst. lia.
    + intros Hrest scripts Hin. apply elem_of_cons in Hin as [->|Hin].
      * unfold config_matches. by apply scan_outputs_None in Hscan.
      * by apply IH.
Qed.

End ClaimMatcherMore.

(** ** The peg-in input builder: every way out *)

Section PegInInputMore.
Context `{SS : ScriptServices} `{PC : ParentChain} `{CS : ChainServices}.

(** The guard passes, both buffers decode (the proof without bytes left
    over), and the proof is a proof of exactly the decoded transaction. *)
Definition proof_accepted (mtx : CMutableTransaction) (input_idx : nat)
    (txData txOutProofData : bytes) (tx : T_tx) (mb : T_merkle_block) : Prop :=
  input_in_use mtx input_idx = false
  ∧ decode_tx txData = Some tx
  ∧ decode_merkle_block txOutProofData = Some (mb, [])
  ∧ (ExtractMatches mb).1.1 = hashMerkleRoot mb
  ∧ (ExtractMatches mb).1.2 = [tx_GetHash tx].

(** The loop over the claim scripts stops at [script] with output [nOut]. *)
Definition selected (tx : T_tx) (claim_scripts : list CScript) (nOut : nat) (script : CScript) : Prop :=
  claim_loop tx (GetValidFedpegScripts true) claim_scripts (length (tx_vout tx)) [] = (nOut, script)
  ∧ nOut ≠ length (tx_vout tx).

Definition tx_malformed : exn :=
  JSONRPCError RPC_TYPE_ERROR
    "The included bitcoinTx is malformed. Are you sure that is the whole string?".
Definition txoutproof_malformed : exn :=
  JSONRPCError RPC_TYPE_ERROR
    "The included txoutproof is malformed. Are you sure that is the whole string?".
Definition claim_script_mismatch : exn :=
  JSONRPCError RPC_INVALID_PARAMETER
    "Given claim_script does not match the given Bitcoin transaction.".
Definition no_output_found : exn :=
  JSONRPCError RPC_INVALID_PARAMETER
    "Failed to find output in bitcoinTx to the mainchain_address from getpeginaddress".
Definition not_v0_program : exn :=
  JSONRPCError RPC_INVALID_PARAMETER "Given or recovered script is not a v0 witness program.".
Definition amount_not_explicit : exn :=
  JSONRPCError RPC_INVALID_PARAMETER
    ("Amounts to pegin must be explicit and asset must be " +:+ parent_pegged_asset_hex).
Definition witness_invalid (err : string) : exn :=
  JSONRPCError RPC_INVALID_PARAMETER ("Constructed peg-in witness is invalid: " +:+ err).

(** The transaction after lines 111-114. *)
Definition with_pegin_outpoint (mtx : CMutableTransaction) (input_idx : nat) (h : uint256)
    (nOut : nat) : CMutableTransaction :=
  set_vin (fun v => <[input_idx := CTxIn_new (mkOutPoint h (Z.of_nat nOut)) [] SEQUENCE_FINAL]>
                      (grow input_idx CTxIn_default v)) mtx.

Lemma CreatePegInInputInner_accepted mtx input_idx claim_scripts txData txOutProofData tx mb :
  proof_accepted mtx input_idx txData txOutProofData tx mb →
  CreatePegInInputInner input_idx claim_scripts txData txOutProofData mtx =
    let fedpegscripts := GetValidFedpegScripts true in
    let found := claim_loop tx fedpegscripts claim_scripts (length (tx_vout tx)) [] in
    if bool_decide (found.1 = length (tx_vout tx)) then
      (Throw (if bool_decide (length claim_scripts = 1%nat)
              then claim_script_mismatch else no_output_found), mtx)
    else if bool_decide (found.2 = []) then (Throw NonFatalCheckError, mtx)
    else if match IsWitnessProgram found.2 with
            | Some (version, _) => bool_decide (version ≠ 0)
            | None => true
            end then (Throw not_v0_program, mtx)
    else match GetAmountFromParentChainPegin tx found.1 with
         | None => (Throw amount_not_explicit, mtx)
         | Some value =>
             let pegin_witness :=
               CreatePeginWitness value pegged_asset ParentGenesisBlockHash found.2 tx mb in
             let checked :=
               IsValidPeginWitness pegin_witness fedpegscripts
                 (mkOutPoint (tx_GetHash tx) (Z.of_nat found.1)) false in
             let grown := set_vin (grow input_idx CTxIn_default) mtx in
             if (length (vin grown) <=? input_idx)%nat
             then (Throw undefined_behaviour, grown)
             else if negb checked.1
             then (Throw (witness_invalid checked.2),
                   with_pegin_outpoint mtx input_idx (tx_GetHash tx) found.1)
             else
               let marked :=
                 set_vtxinwit (grow input_idx CTxInWitness_default)
                   (set_vin (alter (set_is_pegin true) input_idx)
                      (with_pegin_outpoint mtx input_idx (tx_GetHash tx) found.1)) in
               if (length (vtxinwit marked) <=? input_idx)%nat
               then (Throw undefined_behaviour, marked)
               else (Ok (tx, mb),
                     set_vtxinwit (<[input_idx := mkTxInWitness [] [] [] pegin_witness]>)
                       marked)
         end.
Proof.
  intros (Huse & Htx & Hmb & Hroot & Hhashes).
  unfold CreatePegInInputInner, check_index. monad_unfold.
  rewrite Huse, Htx. simpl. rewrite Hmb. simpl.
  rewrite Hroot, Hhashes. simpl.
  rewrite (bool_decide_eq_false_2 (hashMerkleRoot mb ≠ _)) by (intros H; by apply H).
  rewrite (bool_decide_eq_false_2 (Some (tx_GetHash tx) ≠ _)) by (intros H; by apply H).
  simpl.
  destruct (bool_decide (_ = length (tx_vout tx))); simpl.
  { by destruct (bool_decide (length claim_scripts = 1%nat)). }
  destruct (bool_decide ((claim_loop _ _ _ _ _).2 = [])); simpl; [done|].
  destruct (match IsWitnessProgram _ with Some _ => _ | None => _ end); simpl; [done|].
  destruct (GetAmountFromParentChainPegin _ _) as [value|]; simpl; [|done].
  destruct (length (grow input_idx CTxIn_default (vin mtx)) <=? input_idx)%nat; simpl; [done|].
  destruct (negb _); simpl; [done|].
  destruct (length (grow input_idx CTxInWitness_default (vtxinwit mtx)) <=? input_idx)%nat;
    simpl; done.
Qed.

(** Closes a branch in which the builder has thrown before any write. *)
Ltac thrown_early := right; eexists; split; [|reflexivity]; discriminate.

(** Before the claim scripts are looked at, the builder has either accepted
    the buffers or thrown with [mtx] untouched. *)
Lemma CreatePegInInputInner_cases mtx input_idx claim_scripts txData txOutProofData :
  (∃ tx mb, proof_accepted mtx input_idx txData txOutProofData tx mb)
  ∨ (∃ e, e ≠ undefined_behaviour
          ∧ CreatePegInInputInner input_idx claim_scripts txData txOutProofData mtx
            = (Throw e, mtx)).
Proof.
  unfold proof_accepted, CreatePegInInputInner. monad_unfold.
  destruct (input_in_use mtx input_idx) eqn:Huse; simpl; [thrown_early|].
  destruct (decode_tx txData) as [tx|] eqn:Htx; simpl; [|thrown_early].
  destruct (decode_merkle_block txOutProofData) as [[mb rest]|] eqn:Hmb; simpl;
    [|thrown_early].
  destruct rest; simpl; [|thrown_early].
  destruct (bool_decide (_ ≠ hashMerkleRoot mb)) eqn:Hroot; simpl; [thrown_early|].
  destruct (bool_decide (length _ ≠ 1%nat)) eqn:Hlen; simpl; [thrown_early|].
  destruct (bool_decide (head _ ≠ _)) eqn:Hhead; simpl; [thrown_early|].
  apply bool_decide_eq_false in Hroot, Hlen, Hhead. apply dec_stable in Hroot, Hlen, Hhead.
  left. exists tx, mb. repeat (split; [done|]).
  destruct (ExtractMatches mb).1.2 as [|h [|h' l]]; simpl in *; [done| |done].
  by injection Hhead as ->.
Qed.

(** The script the loop returns with a position in range is one of the
    claim scripts, and the position is the one the matcher gives for it. *)
Lemma claim_loop_selected txn feds claim_scripts nOut0 w0 nOut script :
  claim_loop txn feds claim_scripts nOut0 w0 = (nOut, script) →
  nOut0 = length (tx_vout txn) →
  nOut ≠ length (tx_vout txn) →
  script ∈ claim_scripts ∧ nOut = GetPeginTxnOutputIndex txn script feds.
Proof.
  revert nOut0 w0. induction claim_scripts as [|s rest IH]; intros nOut0 w0; simpl.
  - intros [= <- <-] -> Hne. done.
  - destruct (decide (_ ≠ length (tx_vout txn))) as [Hmatch|Hnomatch].
    + intros [= <- <-] _ _. split; [left | done].
    + intros Hloop _ Hne. apply dec_stable in Hnomatch.
      destruct (IH _ _ Hloop Hnomatch Hne) as [Hin Heq]. split; [by right | done].
Qed.

Lemma claim_loop_none txn feds claim_scripts w0 :
  (∀ s, s ∈ claim_scripts → GetPeginTxnOutputIndex txn s feds = length (tx_vout txn)) →
  claim_loop txn feds claim_scripts (length (tx_vout txn)) w0 = (length (tx_vout txn), w0).
Proof.
  intros Hnone.
  assert (∀ nOut0, nOut0 = length (tx_vout txn) →
            claim_loop txn feds claim_scripts nOut0 w0 = (length (tx_vout txn), w0)) as H;
    [|by apply H].
  induction claim_scripts as [|s rest IH]; intros nOut0 ->; simpl; [done|].
  rewrite decide_False.
  - apply IH; [|by apply Hnone; left]. intros s' Hs'. apply Hnone. by right.
  - intros Hne. apply Hne, Hnone. left.
Qed.

(** X2. With the guard passed, a parent-transaction buffer that does not
    decode, and then a proof buffer that does not decode, are type errors
    with their own messages; [mtx] is untouched. *)
Theorem CreatePegInInput_malformed_buffers (mtx : CMutableTransaction) (input_idx : nat)
    (claim_scripts : list CScript) (txData txOutProofData : bytes) :
  input_in_use mtx input_idx = false →
  (decode_tx txData = None →
   CreatePegInInput input_idx claim_scripts txData txOutProofData mtx
   = (Throw tx_malformed, mtx))
  ∧ (is_Some (decode_tx txData) → decode_merkle_block txOutProofData = None →
     CreatePegInInput input_idx claim_scripts txData txOutProofData mtx
     = (Throw txoutproof_malformed, mtx)).
Proof.
  intros Huse. unfold CreatePegInInput, CreatePegInInputInner. monad_unfold.
  rewrite Huse. simpl. split.
  - by intros ->.
  - intros [tx ->] ->. done.
Qed.

(** X3. With an accepted proof, when no claim script matches any
    configuration and output the builder throws: the claim-script message
    when exactly one claim script was given, the generic not-found message
    otherwise (also for no claim script at all); [mtx] is untouched. *)
Theorem CreatePegInInput_no_claim_script_matches (mtx : CMutableTransaction)
    (input_idx : nat) (claim_scripts : list CScript) (txData txOutProofData : bytes)
    (tx : T_tx) (mb : T_merkle_block) :
  proof_accepted mtx input_idx txData txOutProofData tx mb →
  (∀ s, s ∈ claim_scripts →
     GetPeginTxnOutputIndex tx s (GetValidFedpegScripts true) = length (tx_vout tx)) →
  CreatePegInInput input_idx claim_scripts txData txOutProofData mtx
  = (Throw (match claim_scripts with [_] => claim_script_mismatch | _ => no_output_found end),
     mtx).
Proof.
  intros Hacc Hnone. unfold CreatePegInInput.
  rewrite (CreatePegInInputInner_accepted _ _ _ _ _ _ _ Hacc). cbv zeta.
  rewrite (claim_loop_none _ _ _ _ Hnone). simpl.
  rewrite bool_decide_eq_true_2 by done.
  by destruct claim_scripts as [|? [|? ?]].
Qed.

(** X4. With an accepted proof and a claim script selected: an empty
    selected script trips the non-fatal check; a script that is not a
    witness program, or one of another version than 0, is rejected; so is a
    matched output whose amount cannot be extracted, the message naming the
    parent pegged asset. In each case [mtx] is untouched. *)
Theorem CreatePegInInput_rejects_selected_script (mtx : CMutableTransaction)
    (input_idx : nat) (claim_scripts : list CScript) (txData txOutProofData : bytes)
    (tx : T_tx) (mb : T_merkle_block) (nOut : nat) (script : CScript) :
  proof_accepted mtx input_idx txData txOutProofData tx mb →
  selected tx claim_scripts nOut script →
  let r := CreatePegInInput input_idx claim_scripts txData txOutProofData mtx in
  (script = [] → r = (Throw NonFatalCheckError, mtx))
  ∧ (script ≠ [] →
     (∀ program, IsWitnessProgram script ≠ Some (0, program)) →
     r = (Throw not_v0_program, mtx))
  ∧ (script ≠ [] →
     (∃ program, IsWitnessProgram script = Some (0, program)) →
     GetAmountFromParentChainPegin tx nOut = None →
     r = (Throw amount_not_explicit, mtx)).
Proof.
  intros Hacc [Hloop Hne] r. subst r. unfold CreatePegInInput.
  rewrite (CreatePegInInputInner_accepted _ _ _ _ _ _ _ Hacc). cbv zeta.
  rewrite Hloop. simpl. rewrite (bool_decide_eq_false_2 _ Hne).
  split; [|split].
  - intros ->. done.
  - intros Hscript Hprog. rewrite (bool_decide_eq_false_2 _ Hscript).
    destruct (IsWitnessProgram script) as [[version program]|] eqn:Hwp; [|done].
    rewrite bool_decide_eq_true_2; [done|]. intros ->. by apply (Hprog program).
  - intros Hscript [program Hprog] Hamount. rewrite (bool_decide_eq_false_2 _ Hscript).
    rewrite Hprog, Hamount. done.
Qed.

(** X5. A failed construction, whenever the behaviour is defined, never
    attaches a witness and never changes the outputs or the lock-time. It
    leaves the inputs as they were too, except when the constructed witness
    fails its own verification: the proof was accepted, a claim script was
    selected and its amount extracted, the exception carries the message
    the verifier left for that witness and outpoint, and the input vector
    has already been grown and slot [input_idx] overwritten with the peg-in
    outpoint (not yet marked as a peg-in). The behaviour is undefined only
    at [input_idx] = 0xffffffff with a vector that does not reach that
    position: [input_idx + 1] is then 0 and the write of line 114 or 134
    lands past the end. *)
Theorem CreatePegInInput_failure_state (mtx : CMutableTransaction) (input_idx : nat)
    (claim_scripts : list CScript) (txData txOutProofData : bytes) (e : exn)
    (mtx' : CMutableTransaction) :
  CreatePegInInput input_idx claim_scripts txData txOutProofData mtx = (Throw e, mtx') →
  (e = undefined_behaviour →
   UINT32_MAX ≤ Z.of_nat input_idx
   ∧ ((length (vin mtx) ≤ input_idx)%nat ∨ (length (vtxinwit mtx) ≤ input_idx)%nat))
  ∧ (e ≠ undefined_behaviour →
     vtxinwit mtx' = vtxinwit mtx ∧ vout mtx' = vout mtx ∧ nLockTime mtx' = nLockTime mtx
     ∧ (mtx' = mtx
        ∨ ∃ tx mb nOut script value err,
            proof_accepted mtx input_idx txData txOutProofData tx mb
            ∧ selected tx claim_scripts nOut script
            ∧ GetAmountFromParentChainPegin tx nOut = Some value
            ∧ IsValidPeginWitness
                (CreatePeginWitness value pegged_asset ParentGenesisBlockHash script tx mb)
                (GetValidFedpegScripts true) (mkOutPoint (tx_GetHash tx) (Z.of_nat nOut)) false
              = (false, err)
            ∧ e = witness_invalid err
            ∧ mtx' = with_pegin_outpoint mtx input_idx (tx_GetHash tx) nOut
            ∧ vin mtx' !! input_idx
              = Some (CTxIn_new (mkOutPoint (tx_GetHash tx) (Z.of_nat nOut)) []
                        SEQUENCE_FINAL))).
Proof.
  assert (∀ A (d : A) v, (length (grow input_idx d v) <=? input_idx)%nat = true →
            UINT32_MAX ≤ Z.of_nat input_idx ∧ (length v ≤ input_idx)%nat) as Hwrap.
  { intros A d v Hle. apply Nat.leb_le in Hle.
    destruct (decide (Z.of_nat input_idx < UINT32_MAX)) as [Hlt|Hge].
    - pose proof (grow_length input_idx d v Hlt). lia.
    - split; [lia|]. unfold grow in Hle.
      destruct (length v <=? input_idx)%nat eqn:Hlen; [by apply Nat.leb_le in Hlen|lia]. }
  unfold CreatePegInInput.
  destruct (CreatePegInInputInner_cases mtx input_idx claim_scripts txData txOutProofData)
    as [(tx & mb & Hacc)|(e0 & He0 & ->)];
    [|by intros [= <- <-]; split; [|intros _; repeat split; try left]].
  rewrite (CreatePegInInputInner_accepted _ _ _ _ _ _ _ Hacc). cbv zeta.
  destruct (claim_loop tx _ _ _ _) as [nOut script] eqn:Hloop. simpl.
  destruct (bool_decide (nOut = length (tx_vout tx))) eqn:Hfound.
  { intros [= <- <-]. split; [destruct (bool_decide (length claim_scripts = 1%nat)); intros He; inversion He|].
    intros _. repeat split; try left; done. }
  apply bool_decide_eq_false in Hfound.
  destruct (bool_decide (script = []));
    [intros [= <- <-]; split; [intros He; inversion He|intros _; repeat split; try left; done]|].
  destruct (match IsWitnessProgram _ with Some _ => _ | None => _ end);
    [intros [= <- <-]; split; [intros He; inversion He|intros _; repeat split; try left; done]|].
  destruct (GetAmountFromParentChainPegin _ _) as [value|] eqn:Hvalue;
    [|intros [= <- <-]; split; [intros He; inversion He|intros _; repeat split; try left; done]].
  destruct (length (grow input_idx CTxIn_default (vin mtx)) <=? input_idx)%nat eqn:Hvin.
  { intros [= <- <-]. split; [|done]. intros _.
    destruct (Hwrap _ _ _ Hvin) as [Hmax Hlen]. split; [done|by left]. }
  destruct (IsValidPeginWitness _ _ _ false) as [valid err] eqn:Hchecked. simpl.
  destruct valid; simpl.
  - destruct (length (grow input_idx CTxInWitness_default (vtxinwit mtx)) <=? input_idx)%nat
      eqn:Hwit; [|done].
    intros [= <- <-]. split; [|done]. intros _.
    destruct (Hwrap _ _ _ Hwit) as [Hmax Hlen]. split; [done|by right].
  - intros [= <- <-]. split; [intros He; inversion He|]. intros _. repeat (split; [done|]). right.
    exists tx, mb, nOut, script, value, err.
    split; [done|]. split; [done|]. split; [done|]. split; [done|].
    split; [done|]. split; [done|].
    simpl. apply list_lookup_insert_eq. by apply Nat.leb_gt in Hvin.
Qed.

(** X6. A successful construction grows the input and witness vectors to
    hold position [input_idx] and never shrinks them, leaves every other
    input and witness slot that was there as it was, and leaves the outputs
    and the lock-time alone. At [input_idx] = 0xffffffff, where
    [input_idx + 1] is 0, a construction succeeds only on vectors that
    already reach that position. *)
Theorem CreatePegInInput_success_frame (mtx : CMutableTransaction) (input_idx : nat)
    (claim_scripts : list CScript) (txData txOutProofData : bytes)
    (decoded : T_tx * T_merkle_block) (mtx' : CMutableTransaction) :
  CreatePegInInput input_idx claim_scripts txData txOutProofData mtx = (Ok decoded, mtx') →
  length (vin mtx') = (length (vin mtx) `max` S input_idx)%nat
  ∧ length (vtxinwit mtx') = (length (vtxinwit mtx) `max` S input_idx)%nat
  ∧ (∀ j, j ≠ input_idx → (j < length (vin mtx))%nat → vin mtx' !! j = vin mtx !! j)
  ∧ (∀ j, j ≠ input_idx → (j < length (vtxinwit mtx))%nat →
          vtxinwit mtx' !! j = vtxinwit mtx !! j)
  ∧ vout mtx' = vout mtx ∧ nLockTime mtx' = nLockTime mtx
  ∧ (UINT32_MAX ≤ Z.of_nat input_idx →
     (input_idx < length (vin mtx))%nat ∧ (input_idx < length (vtxinwit mtx))%nat).
Proof.
  destruct decoded as [tx mb]. intros Hok.
  apply CreatePegInInputInner_Ok in Hok
    as (_ & _ & _ & _ & _ & value & _ & -> & Hvin & Hwit). simpl.
  rewrite length_alter, !length_insert, !grow_length_max by done.
  repeat split; try done.
  - intros j Hj Hlt. rewrite list_lookup_alter_ne, list_lookup_insert_ne by done.
    by apply grow_lookup_old.
  - intros j Hj Hlt. rewrite list_lookup_insert_ne by done. by apply grow_lookup_old.
  - by apply (grow_at_max input_idx CTxIn_default).
  - by apply (grow_at_max input_idx CTxInWitness_default).
Qed.

(** X7. What success guarantees: the buffers were accepted, the selected
    script is one of the claim scripts and a version-0 witness program, the
    matched position is an output of the parent transaction holding the
    expected script of some configuration, its amount was extracted, and
    the witness attached at [input_idx] passes verification without the
    depth check against the installed outpoint. *)
Theorem CreatePegInInput_success_guarantees (mtx : CMutableTransaction) (input_idx : nat)
    (claim_scripts : list CScript) (txData txOutProofData : bytes)
    (tx : T_tx) (mb : T_merkle_block) (mtx' : CMutableTransaction) :
  CreatePegInInput input_idx claim_scripts txData txOutProofData mtx = (Ok (tx, mb), mtx') →
  proof_accepted mtx input_idx txData txOutProofData tx mb
  ∧ ∃ nOut script program value scripts,
      script ∈ claim_scripts
      ∧ IsWitnessProgram script = Some (0, program)
      ∧ nOut = GetPeginTxnOutputIndex tx script (GetValidFedpegScripts true)
      ∧ scripts ∈ GetValidFedpegScripts true
      ∧ tx_vout tx !! nOut = Some (mainchain_script_of scripts script)
      ∧ GetAmountFromParentChainPegin tx nOut = Some value
      ∧ vin mtx' !! input_idx = Some (pegin_txin (tx_GetHash tx) nOut)
      ∧ ∃ txinwit,
          vtxinwit mtx' !! input_idx = Some txinwit
          ∧ m_pegin_witness txinwit
            = CreatePeginWitness value pegged_asset ParentGenesisBlockHash script tx mb
          ∧ (IsValidPeginWitness (m_pegin_witness txinwit) (GetValidFedpegScripts true)
               (mkOutPoint (tx_GetHash tx) (Z.of_nat nOut)) false).1 = true.
Proof.
  unfold CreatePegInInput. intros Hok.
  destruct (CreatePegInInputInner_cases mtx input_idx claim_scripts txData txOutProofData)
    as [(tx0 & mb0 & Hacc)|(e0 & _ & Hthrow)]; [|congruence].
  rewrite (CreatePegInInputInner_accepted _ _ _ _ _ _ _ Hacc) in Hok. cbv zeta in Hok.
  destruct (claim_loop tx0 _ _ _ _) as [nOut script] eqn:Hloop. simpl in Hok.
  destruct (bool_decide (nOut = _)) eqn:Hfound; [done|]. apply bool_decide_eq_false in Hfound.
  destruct (bool_decide (script = [])); [done|].
  destruct (IsWitnessProgram script) as [[version program]|] eqn:Hwp; [|done].
  destruct (bool_decide (version ≠ 0)) eqn:Hversion; [done|].
  apply bool_decide_eq_false in Hversion. apply dec_stable in Hversion. subst version.
  destruct (GetAmountFromParentChainPegin tx0 nOut) as [value|] eqn:Hvalue; [|done].
  destruct (length (grow input_idx CTxIn_default (vin mtx)) <=? input_idx)%nat eqn:Hvin;
    [done|].
  destruct (IsValidPeginWitness _ _ _ false).1 eqn:Hvalid; [|done]. simpl in Hok.
  destruct (length (grow input_idx CTxInWitness_default (vtxinwit mtx)) <=? input_idx)%nat
    eqn:Hwit; [done|].
  apply Nat.leb_gt in Hvin, Hwit.
  injection Hok as <- <- <-. split; [done|].
  destruct (claim_loop_selected _ _ _ _ _ _ _ Hloop eq_refl Hfound) as [Hin Hn].
  assert (nOut < length (tx_vout tx0))%nat as Hlt.
  { pose proof (GetPeginTxnOutputIndex_le tx0 script (GetValidFedpegScripts true)). lia. }
  rewrite Hn in Hlt. destruct (GetPeginTxnOutputIndex_sound _ _ _ Hlt) as (scripts & Hs & Hat).
  rewrite <- Hn in Hat.
  exists nOut, script, program, value, scripts.
  repeat (split; [done|]). simpl. split.
  - rewrite list_lookup_alter_eq, list_lookup_insert_eq by done. done.
  - eexists. rewrite list_lookup_insert_eq by done. split; [done|]. done.
Qed.

(** X29. At [input_idx] = 0xffffffff, with an input vector that does not
    reach that position: once the proof is accepted, a claim script that is
    a version-0 witness program is selected and its amount extracted,
    [input_idx + 1] is 0 in [uint32_t], line 112 resizes the input vector
    to length 0 and the write of line 114 lands past its end. The
    behaviour is undefined from there, whatever the verifier would say of
    the witness. *)
Theorem CreatePegInInput_index_wraps (mtx : CMutableTransaction) (input_idx : nat)
    (claim_scripts : list CScript) (txData txOutProofData : bytes) (tx : T_tx)
    (mb : T_merkle_block) (nOut : nat) (script program : CScript) (value : CAmount) :
  Z.of_nat input_idx = UINT32_MAX →
  (length (vin mtx) ≤ input_idx)%nat →
  proof_accepted mtx input_idx txData txOutProofData tx mb →
  selected tx claim_scripts nOut script →
  script ≠ [] →
  IsWitnessProgram script = Some (0, program) →
  GetAmountFromParentChainPegin tx nOut = Some value →
  uint32_succ input_idx = 0%nat
  ∧ CreatePegInInput input_idx claim_scripts txData txOutProofData mtx
    = (Throw undefined_behaviour, set_vin (fun _ => []) mtx).
Proof.
  intros Hmax Hlen Hacc [Hloop Hne] Hscript Hprog Hamount. split.
  { unfold uint32_succ. rewrite Hmax. unfold UINT32_MAX.
    by replace ((4294967295 + 1) `mod` 2 ^ 32) with 0 by reflexivity. }
  unfold CreatePegInInput.
  rewrite (CreatePegInInputInner_accepted _ _ _ _ _ _ _ Hacc). cbv zeta.
  rewrite Hloop. simpl. rewrite (bool_decide_eq_false_2 _ Hne).
  rewrite (bool_decide_eq_false_2 _ Hscript). rewrite Hprog, Hamount. simpl.
  rewrite (grow_wraps _ _ _ Hmax Hlen). simpl.
  unfold set_vin. by rewrite (grow_wraps _ _ _ Hmax Hlen).
Qed.

End PegInInputMore.

(** ** The transaction constructor: the phases of a successful call *)

Lemma frame_forM_ {St A} (R : St → St → Prop) `{!Reflexive R} `{!Transitive R}
    (f : A → M St unit) (l : list A) :
  (∀ x, frame R (f x)) → frame R (forM_ f l).
Proof.
  intros Hf. induction l as [|x l IH]; simpl.
  - by apply frame_ret.
  - apply frame_bind; [done|apply Hf|]. intros _. apply IH.
Qed.

Section ConstructorPhases.
Context `{SS : ScriptServices} `{CS : ChainServices} `{RS : RpcServices} `{PCS : ParentChains}.

(** Lines 164-169: the lock-time of the transaction under construction. *)
Definition locktime_value (locktime : UniValue) : result Z :=
  if isNull locktime then Ok 0
  else match get_int64 locktime with
       | Ok nLockTime =>
           if (nLockTime <? 0) || (LOCKTIME_MAX <? nLockTime)
           then Throw (JSONRPCError RPC_INVALID_PARAMETER
                         "Invalid parameter, locktime out of range")
           else Ok nLockTime
       | Throw e => Throw e
       end.

(** Lines 152-157: the array of inputs. *)
Definition inputs_array (inputs_in : UniValue) : result UniValue :=
  if isNull inputs_in then Ok (VARR []) else get_array inputs_in.

(** A successful build went through these phases. *)
Lemma ConstructTransaction_build_phases inputs_in outputs_in locktime rbf assets_in pubkeys_out
    allow_peg_in s :
  ConstructTransaction_build inputs_in outputs_in locktime rbf assets_in allow_peg_in
    (CtState_init pubkeys_out) = (Ok tt, s) →
  ∃ inputs outputs assets keys nLockTime tx1 s3,
    isNull outputs_in = false
    ∧ inputs_array inputs_in = Ok inputs
    ∧ normalized_outputs outputs_in = Ok outputs
    ∧ assets_object assets_in = Ok assets
    ∧ getKeys outputs = Ok keys
    ∧ locktime_value locktime = Ok nLockTime
    ∧ for_idx (ConstructTransaction_input rbf allow_peg_in) 0 (values inputs)
        (mkTx [] [] [] nLockTime) = (Ok tt, tx1)
    ∧ forM_ (ConstructTransaction_output outputs assets) keys
        (mkCt tx1 pubkeys_out CTxOut_null ∅ false) = (Ok tt, s3)
    ∧ append_fee_output s3 = (Ok tt, s).
Proof.
  unfold ConstructTransaction_build. intros H.
  apply bind_Ok_inv in H as (? & s0 & H0 & H). apply throw_if_Ok_inv in H0 as [Hnull Hs0]; subst s0.
  apply bind_Ok_inv in H as (inputs & s0 & H0 & H). apply lift_Ok_inv in H0 as [Hinputs Hs0]; subst s0.
  apply bind_Ok_inv in H as (outputs0 & s0 & H0 & H). apply lift_Ok_inv in H0 as [Houtputs0 Hs0]; subst s0.
  apply bind_Ok_inv in H as (? & s1 & Hlock & H).
  assert (∃ nLockTime, locktime_value locktime = Ok nLockTime
                       ∧ s1 = mkCt (mkTx [] [] [] nLockTime) pubkeys_out CTxOut_null ∅ false)
    as (nLockTime & HnLockTime & ->).
  { unfold locktime_value. destruct (isNull locktime); simpl in *.
    - exists 0. unfold ret in Hlock. by simplify_eq.
    - apply bind_Ok_inv in Hlock as (nLock & s0 & H0 & Hlock).
      apply lift_Ok_inv in H0 as [Hget Hs0]; subst s0.
      apply bind_Ok_inv in Hlock as (? & s0 & H0 & Hlock).
      apply throw_if_Ok_inv in H0 as [Hrange Hs0]; subst s0.
      unfold modify in Hlock. rewrite Hget, Hrange.
      exists nLock. split; [done|]. simplify_eq. unfold set_rawTx, set_nLockTime. simpl.
      f_equal. f_equal. apply orb_false_elim in Hrange as [Hlo Hhi].
      apply Z.ltb_ge in Hlo, Hhi. apply Z.mod_small. unfold LOCKTIME_MAX in Hhi. lia. }
  apply bind_Ok_inv in H as (assets & s0 & H0 & H). apply lift_Ok_inv in H0 as [Hassets Hs0]; subst s0.
  apply bind_Ok_inv in H as (u2 & s2 & Hin & H). destruct u2.
  unfold on_rawTx in Hin. simpl in Hin.
  destruct (for_idx _ _ _ _) as [r tx1] eqn:Hloop. simpl in Hin. injection Hin as -> <-.
  apply bind_Ok_inv in H as (outputs & s0 & H0 & H). apply lift_Ok_inv in H0 as [Houtputs Hs0]; subst s0.
  apply bind_Ok_inv in H as (keys & s0 & H0 & H). apply lift_Ok_inv in H0 as [Hkeys Hs0]; subst s0.
  apply bind_Ok_inv in H as (u3 & s3 & Hout & H). destruct u3.
  exists inputs, outputs, assets, keys, nLockTime, tx1, s3.
  split; [done|]. split; [done|]. split.
  { unfold normalized_outputs. destruct (isObject outputs_in).
    - destruct outputs_in; try discriminate Houtputs0. by injection Houtputs0 as <-.
    - by rewrite Houtputs0. }
  split; [done|]. split; [done|]. split; [done|]. split; [done|]. split; [done|].
  destruct (append_fee_output_spec s3) as (s' & Hfee & _). rewrite Hfee in H |- *. done.
Qed.

(** A successful call is a successful build whose transaction is returned. *)
Lemma ConstructTransaction_Ok_build inputs_in outputs_in locktime rbf assets_in pubkeys_out
    allow_peg_in tx pubkeys :
  ConstructTransaction inputs_in outputs_in locktime rbf assets_in pubkeys_out allow_peg_in
    = (Ok tx, pubkeys) →
  ∃ s, ConstructTransaction_build inputs_in outputs_in locktime rbf assets_in allow_peg_in
         (CtState_init pubkeys_out) = (Ok tt, s)
       ∧ rawTx s = tx ∧ output_pubkeys_out s = pubkeys.
Proof.
  destruct (ConstructTransaction_build inputs_in outputs_in locktime rbf assets_in allow_peg_in
              (CtState_init pubkeys_out)) as [r s] eqn:Hbuild.
  rewrite (ConstructTransaction_after_build _ _ _ _ _ _ _ _ _ Hbuild).
  destruct r as [[]|e]; [|done].
  destruct (rbf && _ && _); [done|]. intros [= <- <-]. by exists s.
Qed.

End ConstructorPhases.

(** ** The transaction constructor: inputs *)

Section ConstructorInputsMore.
Context `{SS : ScriptServices} `{CS : ChainServices} `{RS : RpcServices} `{PCS : ParentChains}.

(** [txin] is the input built from the input object [input]: the outpoint
    and sequence number read from it when it has no peg-in field, a peg-in
    input when it has all three and peg-ins are allowed. *)
Definition input_built (rbf : bool) (lock_time : Z) (allow_peg_in : bool) (input : UniValue)
    (txin : CTxIn) : Prop :=
  (no_pegin_fields input
   ∧ ∃ txid nOutput seq,
       ParseHashO input "txid" = Ok txid
       ∧ get_int (find_value input "vout") = Ok nOutput ∧ 0 ≤ nOutput
       ∧ input_nSequence rbf lock_time input = Ok seq
       ∧ txin = CTxIn_new (mkOutPoint txid nOutput) [] seq)
  ∨ (has_pegin_fields input ∧ allow_peg_in = true ∧ ∃ h nOut, txin = pegin_txin h nOut).

(** Every input has a witness slot if it is a peg-in, and a null slot or
    none if it is not; there are no more slots than inputs. *)
Definition witness_slots_ok (tx : CMutableTransaction) : Prop :=
  (length (vtxinwit tx) ≤ length (vin tx))%nat
  ∧ ∀ i txin, vin tx !! i = Some txin →
      if m_is_pegin txin
      then ∃ w, vtxinwit tx !! i = Some w ∧ scriptWitness w = []
      else ∀ w, vtxinwit tx !! i = Some w → w = CTxInWitness_default.

Lemma isNull_VNULL v : isNull v = true ↔ v = VNULL.
Proof. destruct v; split; done. Qed.

Lemma alter_insert_last {A} (f : A → A) (l : list A) x y :
  alter f (length l) (<[length l := x]> (l ++ [y])) = l ++ [f x].
Proof. induction l as [|a l IH]; simpl; [done|]. f_equal. apply IH. Qed.

(** One successful turn of the input loop at the end of [vin]. *)
Lemma ConstructTransaction_input_appends rbf allow_peg_in input tx tx' :
  ConstructTransaction_input rbf allow_peg_in (length (vin tx)) input tx = (Ok tt, tx') →
  ∃ txin,
    vin tx' = vin tx ++ [txin]
    ∧ input_built rbf (nLockTime tx) allow_peg_in input txin
    ∧ vout tx' = vout tx ∧ nLockTime tx' = nLockTime tx
    ∧ (if m_is_pegin txin
       then ∃ w, scriptWitness w = []
                 ∧ vtxinwit tx' = <[length (vin tx) := w]>
                                    (grow (length (vin tx)) CTxInWitness_default (vtxinwit tx))
                 ∧ (length (vin tx)
                    < length (grow (length (vin tx)) CTxInWitness_default (vtxinwit tx)))%nat
       else vtxinwit tx' = vtxinwit tx).
Proof.
  unfold ConstructTransaction_input. intros H.
  apply bind_Ok_inv in H as (o & s0 & H0 & H). apply lift_Ok_inv in H0 as [Hobj Hs0]; subst s0.
  assert (o = input) as -> by (destruct input; simpl in Hobj; congruence).
  apply bind_Ok_inv in H as (txid & s0 & H0 & H). apply lift_Ok_inv in H0 as [Htxid Hs0]; subst s0.
  apply bind_Ok_inv in H as (? & s0 & H0 & H). apply throw_if_Ok_inv in H0 as [_ Hs0]; subst s0.
  apply bind_Ok_inv in H as (nOutput & s0 & H0 & H). apply lift_Ok_inv in H0 as [Hvout Hs0]; subst s0.
  apply bind_Ok_inv in H as (? & s0 & H0 & H). apply throw_if_Ok_inv in H0 as [Hneg Hs0]; subst s0.
  apply Z.ltb_ge in Hneg.
  apply bind_Ok_inv in H as (rawTx0 & s0 & H0 & H). unfold get in H0. injection H0 as <- <-.
  apply bind_Ok_inv in H as (seq & s0 & H0 & H). apply lift_Ok_inv in H0 as [Hseq Hs0]; subst s0.
  apply bind_Ok_inv in H as (? & s0 & H0 & H). unfold modify in H0. injection H0 as _ <-.
  unfold ConstructTransaction_pegin in H.
  destruct (isNull (find_value input "pegin_bitcoin_tx")) eqn:Htx;
  destruct (isNull (find_value input "pegin_txout_proof")) eqn:Hproof;
  destruct (isNull (find_value input "pegin_claim_script")) eqn:Hscript;
  destruct allow_peg_in; simpl in H; try done.
  - (* no peg-in field *)
    unfold ret in H. simplify_eq. eexists. split; [done|]. split; [|done].
    left. split; [unfold no_pegin_fields; by rewrite <- !isNull_VNULL|]. by exists txid, nOutput, seq.
  - unfold ret in H. simplify_eq. eexists. split; [done|]. split; [|done].
    left. split; [unfold no_pegin_fields; by rewrite <- !isNull_VNULL|]. by exists txid, nOutput, seq.
  - (* all three, allowed *)
    apply bind_Ok_inv in H as (script_hex & s0 & H0 & H). apply lift_Ok_inv in H0 as [_ Hs0]; subst s0.
    apply bind_Ok_inv in H as (? & s0 & H0 & H). apply throw_if_Ok_inv in H0 as [_ Hs0]; subst s0.
    assert (∃ (PC : ParentChain) claim_scripts txData txOutProofData decoded,
              CreatePegInInputInner (length (vin tx)) claim_scripts txData txOutProofData
                (set_vin (fun v => v ++ [CTxIn_new (mkOutPoint txid nOutput) [] seq]) tx)
              = (Ok decoded, tx')) as (PC & cs & td & pd & [txB mb] & Hok).
    { destruct ParentChainHasPow.
      all: apply bind_Ok_inv in H as (tx_hex & s0 & H0 & H);
        apply lift_Ok_inv in H0 as [_ Hs0]; subst s0.
      all: apply bind_Ok_inv in H as (proof_hex & s0 & H0 & H);
        apply lift_Ok_inv in H0 as [_ Hs0]; subst s0.
      all: apply bind_Ok_inv in H as (decoded & s0 & H0 & H).
      all: apply throw_if_Ok_inv in H as [_ ->].
      all: by eexists _, _, _, _, _. }
    apply CreatePegInInputInner_Ok in Hok as (_ & _ & _ & _ & _ & value & _ & -> & _ & Hwit).
    simpl in Hwit |- *.
    rewrite grow_in_range by (rewrite length_app; simpl; lia).
    rewrite alter_insert_last.
    eexists. split; [done|]. split.
    { right. split; [done|]. split; [done|]. by eexists _, _. }
    split; [done|]. split; [done|]. simpl. eexists. split; [|done]. done.
Qed.

(** The input loop, started at the end of [vin]. *)
Lemma input_loop_appends rbf allow_peg_in inputs tx tx' :
  for_idx (ConstructTransaction_input rbf allow_peg_in) (length (vin tx)) inputs tx = (Ok tt, tx') →
  witness_slots_ok tx →
  ∃ new,
    vin tx' = vin tx ++ new
    ∧ Forall2 (input_built rbf (nLockTime tx) allow_peg_in) inputs new
    ∧ vout tx' = vout tx ∧ nLockTime tx' = nLockTime tx
    ∧ witness_slots_ok tx'.
Proof.
  revert tx. induction inputs as [|input inputs IH]; intros tx; simpl.
  - intros [= <-] Hslots. exists []. rewrite app_nil_r.
    split; [done|]. split; [constructor|]. done.
  - intros H Hslots. apply bind_Ok_inv in H as ([] & tx1 & Hstep & H).
    apply ConstructTransaction_input_appends in Hstep
      as (txin & Hvin1 & Hbuilt & Hvout1 & Hlock1 & Hwit1).
    replace (S (length (vin tx))) with (length (vin tx1)) in H
      by (rewrite Hvin1, length_app; simpl; lia).
    assert (witness_slots_ok tx1) as Hslots1.
    { destruct Hslots as [Hlen Hslots]. unfold witness_slots_ok. rewrite Hvin1.
      destruct (m_is_pegin txin) eqn:Hpegin.
      - destruct Hwit1 as (w & Hw & -> & Hgrown). split.
        { rewrite length_insert, length_app, grow_length_max by done. simpl. lia. }
        intros i txin' Hi. apply lookup_app_Some in Hi as [Hi|[Hge Hi]].
        + assert (i < length (vin tx))%nat as Hlt by (by apply lookup_lt_Some in Hi).
          rewrite list_lookup_insert_ne by lia.
          specialize (Hslots i txin' Hi). destruct (m_is_pegin txin').
          * destruct Hslots as (w' & Hw' & Hsw). exists w'. split; [|done].
            rewrite grow_lookup_old; [done|done|]. by apply lookup_lt_Some in Hw'.
          * intros w'. rewrite grow_in_bounds by done.
            destruct (length (vtxinwit tx) <=? length (vin tx))%nat eqn:Hle; [|by apply Hslots].
            destruct (decide (i < length (vtxinwit tx))%nat) as [Hin|Hout].
            -- rewrite lookup_resize by lia. apply Hslots.
            -- rewrite lookup_resize_new by lia. by intros [= <-].
        + destruct (i - length (vin tx))%nat as [|k] eqn:Hk; simpl in Hi; [|done].
          injection Hi as <-. rewrite Hpegin. exists w.
          replace i with (length (vin tx)) by lia.
          rewrite list_lookup_insert_eq by done. done.
      - rewrite Hwit1. split; [rewrite length_app; simpl; lia|].
        intros i txin' Hi. apply lookup_app_Some in Hi as [Hi|[Hge Hi]].
        + by apply Hslots.
        + destruct (i - length (vin tx))%nat as [|k] eqn:Hk; simpl in Hi; [|done].
          injection Hi as <-. rewrite Hpegin. intros w Hw.
          apply lookup_lt_Some in Hw. lia. }
    destruct (IH tx1 H Hslots1) as (new & Hvin & Hnew & Hvout & Hlock & Hslots').
    exists (txin :: new). split; [rewrite Hvin, Hvin1; by rewrite <- app_assoc|].
    split; [constructor; [done|]; by rewrite <- Hlock1|].
    split; [congruence|]. split; [congruence|]. done.
Qed.

End ConstructorInputsMore.

(** ** The transaction constructor: outputs *)

Section ConstructorOutputsMore.
Context `{SS : ScriptServices} `{CS : ChainServices} `{RS : RpcServices} `{PCS : ParentChains}.

(** The key names a destination address: it is none of the keywords. *)
Definition is_address_key (name_ : string) : Prop :=
  name_ ≠ "data"%string ∧ name_ ≠ "vdata"%string ∧ name_ ≠ "fee"%string
  ∧ name_ ≠ "burn"%string.

#[global] Instance is_address_key_dec name_ : Decision (is_address_key name_).
Proof. unfold is_address_key. apply _. Defined.

(** What one turn of the output loop does to the duplicate-checking state. *)
Definition key_effect (name_ : string) (s : CtState) (dests : gset CTxDestination) (hd : bool) : Prop :=
  if decide (name_ = "data"%string) then
    has_data s = false ∧ hd = true ∧ dests = destinations s
  else if decide (is_address_key name_) then
    hd = has_data s
    ∧ IsValidDestination (DecodeDestination name_) = true
    ∧ ¬ (DecodeDestination name_ ∈ destinations s)
    ∧ dests = {[DecodeDestination name_]} ∪ destinations s
  else hd = has_data s ∧ dests = destinations s.

(** One successful turn of the output loop: the fee key only sets
    [fee_out]; any other key appends one output and, with a collector, one
    key. *)
Lemma ConstructTransaction_output_effect outputs assets name_ s s' :
  ConstructTransaction_output outputs assets name_ s = (Ok tt, s') →
  ∃ asset,
    output_asset assets name_ = Ok asset
    ∧ ((name_ = "fee"%string
        ∧ ∃ nAmount, s' = set_fee_out (CTxOut_new asset nAmount []) s)
       ∨ (name_ ≠ "fee"%string
          ∧ ∃ out key dests hd,
              s' = mkCt (set_vout (fun v => v ++ [out]) (rawTx s))
                     ((fun v => v ++ [key]) <$> output_pubkeys_out s) (fee_out s) dests hd
              ∧ nAsset out = Some asset
              ∧ (is_Some (output_pubkeys_out s) → nNonce out = [])
              ∧ key_effect name_ s dests hd)).
Proof.
  unfold ConstructTransaction_output, key_effect, is_address_key, push_vout, push_pubkey.
  monad_unfold.
  destruct (output_asset assets name_) as [asset|e] eqn:Hasset; [|done].
  intros H. exists asset. split; [done|]. revert H.
  destruct (decide (name_ = "data"%string)) as [->|Hdata].
  { destruct (has_data s) eqn:Hhd; [done|]. simpl.
    destruct (ParseHexV _ _) as [data|]; [|done].
    intros [= <-]. right. split; [done|]. eexists _, _, _, _. split; [done|].
    simpl. by repeat split. }
  destruct (decide (name_ = "vdata"%string)) as [->|Hvdata].
  { destruct (get_array _) as [vdata|]; [|done].
    destruct (vdata_pushes _ _) as [ds|]; [|done].
    intros [= <-]. right. split; [done|]. eexists _, _, _, _. split; [done|].
    simpl. repeat case_decide; naive_solver. }
  destruct (decide (name_ = "fee"%string)) as [->|Hfee].
  { destruct (AmountFromValue _) as [a|]; [|done].
    intros [= <-]. left. split; [done|]. by exists a. }
  destruct (decide (name_ = "burn"%string)) as [->|Hburn].
  { destruct (AmountFromValue _) as [a|]; [|done].
    intros [= <-]. right. split; [done|]. eexists _, _, _, _. split; [done|].
    simpl. repeat case_decide; naive_solver. }
  destruct (IsValidDestination _) eqn:Hvalid; simpl; [|done].
  destruct (bool_decide (_ ∈ _)) eqn:Hdup; [done|]. simpl.
  apply bool_decide_eq_false in Hdup.
  destruct (AmountFromValue _) as [a|]; [|done].
  intros [= <-]. right. split; [done|]. eexists _, _, _, _. split; [done|].
  simpl. rewrite decide_True by done. split.
  { by destruct (IsBlindDestination _ && _). }
  split; [|done].
  intros [pk Hpk]. rewrite Hpk. simpl. rewrite andb_false_r. done.
Qed.

(** The addresses among [keys], decoded, in order. *)
Definition address_destinations (keys : list string) : list CTxDestination :=
  DecodeDestination <$> filter is_address_key keys.

(** The output loop as a whole. *)
Lemma output_loop_effect outputs assets keys s s' :
  forM_ (ConstructTransaction_output outputs assets) keys s = (Ok tt, s') →
  ∃ outs pubkeys,
    rawTx s' = set_vout (fun v => v ++ outs) (rawTx s)
    ∧ output_pubkeys_out s' = (fun v => v ++ pubkeys) <$> output_pubkeys_out s
    ∧ length pubkeys = length outs
    ∧ length outs = length (filter (fun k => k ≠ "fee"%string) keys)
    ∧ (is_Some (output_pubkeys_out s) → Forall (fun out => nNonce out = []) outs)
    ∧ (assets = VNULL → Forall (fun out => nAsset out = Some policyAsset) outs)
    ∧ NoDup (address_destinations keys)
    ∧ Forall (fun d => IsValidDestination d = true ∧ d ∉ destinations s)
        (address_destinations keys)
    ∧ destinations s' = list_to_set (address_destinations keys) ∪ destinations s
    ∧ (length (filter (fun k => k = "data"%string) keys)
       ≤ if has_data s then 0 else 1)%nat
    ∧ (fee_out s' = fee_out s
       ∨ ∃ asset nAmount, output_asset assets "fee" = Ok asset
                          ∧ fee_out s' = CTxOut_new asset nAmount []).
Proof.
  revert s. induction keys as [|name_ keys IH]; intros s; simpl.
  - intros [= <-]. exists [], []. unfold address_destinations. simpl.
    split; [by destruct s as [[] ? ? ? ?]; unfold set_vout; simpl; rewrite app_nil_r|].
    split; [by destruct (output_pubkeys_out s); simpl; rewrite ?app_nil_r|].
    split; [done|]. split; [done|]. split; [done|]. split; [done|].
    split; [apply NoDup_nil_2|]. split; [apply Forall_nil_2|].
    split; [by rewrite union_empty_l_L|]. split; [destruct (has_data s); lia|]. by left.
  - intros H. apply bind_Ok_inv in H as ([] & s1 & Hstep & H).
    apply ConstructTransaction_output_effect in Hstep as (asset & Hasset & Hstep).
    destruct (IH s1 H) as (outs & pks & Hraw & Hpk & Hlen & Hcount & Hnonce & Hassets & Hnodup
                           & Hvalid & Hdests & Hdata & Hfee).
    destruct Hstep as [(-> & a & ->)|(Hne & out & key & dests & hd & -> & Hout & Hn & Heffect)].
    + (* fee *)
      exists outs, pks. simpl in *.
      rewrite filter_cons_False by (intros Hx; by apply Hx).
      unfold address_destinations in *.
      rewrite (filter_cons_False is_address_key) by (intros (_ & _ & Hx & _); by apply Hx).
      rewrite (filter_cons_False (fun k => k = "data"%string)) by done.
      repeat (split; [done|]).
      destruct Hfee as [->|Hfee]; [|by right]. right. by exists asset, a.
    + exists (out :: outs), (key :: pks). simpl in *.
      rewrite filter_cons_True by done.
      split.
      { rewrite Hraw. unfold set_vout. simpl. by rewrite <- app_assoc. }
      split.
      { rewrite Hpk. destruct (output_pubkeys_out s); simpl; [|done]. by rewrite <- app_assoc. }
      split; [simpl; lia|]. split; [simpl; lia|].
      split.
      { intros Hsome. constructor; [by apply Hn|]. apply Hnonce.
        destruct Hsome as [pk ->]. by eexists. }
      split.
      { intros ->. constructor; [|by apply Hassets].
        rewrite Hout. unfold output_asset in Hasset. simpl in Hasset. congruence. }
      unfold key_effect in Heffect. unfold address_destinations in *.
      destruct (decide (name_ = "data"%string)) as [->|Hnd].
      { destruct Heffect as (Hfalse & -> & ->).
        rewrite (filter_cons_False is_address_key) by (intros (Hx & _); by apply Hx).
        rewrite (filter_cons_True (fun k => k = "data"%string)) by done.
        rewrite Hfalse. simpl. repeat (split; [done|]).
        split; [lia|]. done. }
      rewrite (filter_cons_False (fun k => k = "data"%string)) by done.
      destruct (decide (is_address_key name_)) as [Haddr|Hnaddr].
      * destruct Heffect as (-> & Hvalid1 & Hfresh & ->).
        rewrite (filter_cons_True is_address_key) by done. simpl.
        apply Forall_and in Hvalid as [Hvalid Hfreshs].
        split.
        { constructor; [|done]. intros Hin.
          rewrite Forall_forall in Hfreshs. apply (Hfreshs _ Hin).
          apply elem_of_union_l. by apply elem_of_singleton. }
        split.
        { constructor; [done|]. apply Forall_and. split; [done|].
          eapply Forall_impl; [exact Hfreshs|]. simpl.
          intros d Hd Hin. apply Hd. by apply elem_of_union_r. }
        split; [|done]. rewrite Hdests.
        rewrite !(assoc_L (∪)). f_equal. apply (comm_L (∪)).
      * destruct Heffect as (-> & ->).
        rewrite (filter_cons_False is_address_key) by done. done.
Qed.

End ConstructorOutputsMore.

(** ** The transaction constructor: what a successful call returns *)

Section ConstructorResult.
Context `{SS : ScriptServices} `{CS : ChainServices} `{RS : RpcServices} `{PCS : ParentChains}.

(** Lines 348-354 on their own: the fee output and its empty key. *)
Lemma append_fee_output_effect s s' :
  append_fee_output s = (Ok tt, s') →
  ∃ outs,
    outs = (if negb (value_IsNull (nValue (fee_out s)))
               && (0 <? value_GetAmount (nValue (fee_out s)))
            then [fee_out s] else [])
    ∧ rawTx s' = set_vout (fun v => v ++ outs) (rawTx s)
    ∧ output_pubkeys_out s'
      = (fun v => v ++ ((fun _ => []) <$> outs)) <$> output_pubkeys_out s.
Proof.
  unfold append_fee_output, push_vout, push_pubkey. monad_unfold.
  destruct (negb _ && _); intros [= <-]; eexists; (split; [done|]); simpl.
  - done.
  - split; [by destruct (rawTx s); unfold set_vout; simpl; rewrite app_nil_r|].
    destruct (output_pubkeys_out s); simpl; [|done]. by rewrite app_nil_r.
Qed.

(** The shape of everything a successful call built. *)
Lemma ConstructTransaction_Ok_shape inputs_in outputs_in locktime rbf assets_in pubkeys_out
    allow_peg_in tx pubkeys :
  ConstructTransaction inputs_in outputs_in locktime rbf assets_in pubkeys_out allow_peg_in
    = (Ok tx, pubkeys) →
  ∃ inputs outputs assets keys lock_time outs fee,
    inputs_array inputs_in = Ok inputs
    ∧ normalized_outputs outputs_in = Ok outputs
    ∧ assets_object assets_in = Ok assets
    ∧ getKeys outputs = Ok keys
    ∧ locktime_value locktime = Ok lock_time
    ∧ nLockTime tx = lock_time
    ∧ Forall2 (input_built rbf lock_time allow_peg_in) (values inputs) (vin tx)
    ∧ witness_slots_ok tx
    ∧ vout tx = outs ++ fee
    ∧ length outs = length (filter (fun k => k ≠ "fee"%string) keys)
    ∧ (length fee ≤ 1)%nat
    ∧ (∃ ks, pubkeys = (fun v => v ++ ks) <$> pubkeys_out
             ∧ length ks = length (vout tx))
    ∧ (is_Some pubkeys_out → Forall (fun out => nNonce out = []) (vout tx))
    ∧ (assets = VNULL → Forall (fun out => nAsset out = Some policyAsset) (vout tx))
    ∧ NoDup (address_destinations keys)
    ∧ Forall (fun d => IsValidDestination d = true) (address_destinations keys)
    ∧ (length (filter (fun k => k = "data"%string) keys) ≤ 1)%nat.
Proof.
  intros H. apply ConstructTransaction_Ok_build in H as (s & Hbuild & <- & <-).
  apply ConstructTransaction_build_phases in Hbuild
    as (inputs & outputs & assets & keys & lock_time & tx1 & s3 & _ & Hin & Hout & Hassets
        & Hkeys & Hlock & Hinputs & Houtputs & Hfee).
  apply (input_loop_appends rbf allow_peg_in (values inputs) (mkTx [] [] [] lock_time)) in Hinputs
    as (new & Hvin & Hbuilt & Hvout1 & Hlock1 & Hslots);
    [|split; [done|]; intros i txin Hi; destruct i; discriminate Hi].
  simpl in Hvin, Hbuilt, Hvout1, Hlock1.
  apply output_loop_effect in Houtputs
    as (outs & pks & Hraw3 & Hpk3 & Hlen & Hcount & Hnonce & Hasset & Hnodup & Hvalid & _
        & Hdata & Hfee3).
  simpl in Hraw3, Hpk3, Hnonce, Hvalid, Hdata, Hfee3.
  apply append_fee_output_effect in Hfee as (fee & Hfee_def & Hraw & Hpk).
  exists inputs, outputs, assets, keys, lock_time, outs, fee.
  assert (vout (rawTx s) = outs ++ fee) as Hvout.
  { rewrite Hraw, Hraw3. simpl. by rewrite Hvout1. }
  assert (fee = [] ∨ ∃ asset nAmount, output_asset assets "fee" = Ok asset
                                     ∧ fee = [CTxOut_new asset nAmount []]) as Hfee_shape.
  { rewrite Hfee_def. destruct Hfee3 as [->|(asset & nAmount & Ha & ->)]; [simpl; by left|].
    simpl. destruct (0 <? nAmount); [|by left]. right. by exists asset, nAmount. }
  repeat (split; [done|]).
  split; [rewrite Hraw, Hraw3; simpl; congruence|].
  split; [rewrite Hraw, Hraw3; simpl; by rewrite Hvin|].
  split.
  { destruct Hslots as [Hle Hslots]. rewrite Hraw, Hraw3. simpl. by split. }
  split; [done|]. split; [done|].
  split; [destruct Hfee_shape as [->|(? & ? & _ & ->)]; simpl; lia|].
  split.
  { exists (pks ++ ((fun _ => []) <$> fee)). rewrite Hpk, Hpk3, Hvout.
    split; [destruct pubkeys_out; simpl; [by rewrite <- app_assoc|done]|].
    rewrite !length_app, length_fmap. lia. }
  split.
  { intros Hsome. rewrite Hvout. apply Forall_app. split; [by apply Hnonce|].
    destruct Hfee_shape as [->|(? & ? & _ & ->)]; [constructor|]. by repeat constructor. }
  split.
  { intros ->. rewrite Hvout. apply Forall_app. split; [by apply Hasset|].
    destruct Hfee_shape as [->|(asset & ? & Ha & ->)]; [constructor|].
    unfold output_asset in Ha. simpl in Ha. injection Ha as <-. by repeat constructor. }
  split; [done|].
  split; [eapply Forall_impl; [exact Hvalid|]; by intros d [? _]|]. done.
Qed.

(** X8. Lines 164-169 and 360: the lock-time of the transaction a
    successful call returns is 0 when the [locktime] argument is null, and
    otherwise the int64 value of the argument, which then lies between 0 and
    [LOCKTIME_MAX]; a value outside that range never gives a transaction. *)
Theorem ConstructTransaction_locktime inputs_in outputs_in locktime rbf assets_in pubkeys_out
    allow_peg_in tx pubkeys :
  ConstructTransaction inputs_in outputs_in locktime rbf assets_in pubkeys_out allow_peg_in
    = (Ok tx, pubkeys) →
  (isNull locktime = true ∧ nLockTime tx = 0)
  ∨ (isNull locktime = false
     ∧ get_int64 locktime = Ok (nLockTime tx)
     ∧ 0 ≤ nLockTime tx ≤ LOCKTIME_MAX).
Proof.
  intros H. apply ConstructTransaction_Ok_shape in H
    as (inputs & outputs & assets & keys & lock_time & outs & fee & _ & _ & _ & _ & Hlock & <- & _).
  unfold locktime_value in Hlock. destruct (isNull locktime); [left; by simplify_eq|].
  right. destruct (get_int64 locktime) as [v|]; [|done].
  destruct ((v <? 0) || (LOCKTIME_MAX <? v)) eqn:Hrange; [done|]. injection Hlock as <-.
  apply orb_false_elim in Hrange as [Hlo Hhi]. apply Z.ltb_ge in Hlo, Hhi. done.
Qed.

(** X9. Lines 176-247: the inputs of the transaction a successful call
    returns correspond one to one, in order, to the input objects: each is
    either the plain input read from an object without peg-in fields
    (its txid, its non-negative vout, the sequence number of lines 189-207
    for the call's lock-time) or, when the object has all three peg-in
    fields and peg-ins are allowed, a peg-in input with the final sequence
    number. An object with only some of the peg-in fields, or with any when
    peg-ins are not allowed, never gives a transaction. *)
Theorem ConstructTransaction_inputs_in_order inputs_in outputs_in locktime rbf assets_in
    pubkeys_out allow_peg_in tx pubkeys :
  ConstructTransaction inputs_in outputs_in locktime rbf assets_in pubkeys_out allow_peg_in
    = (Ok tx, pubkeys) →
  ∃ inputs,
    inputs_array inputs_in = Ok inputs
    ∧ Forall2 (input_built rbf (nLockTime tx) allow_peg_in) (values inputs) (vin tx).
Proof.
  intros H. apply ConstructTransaction_Ok_shape in H
    as (inputs & outputs & assets & keys & lock_time & outs & fee & Hin & _ & _ & _ & _ & <- & Hbuilt & _).
  by exists inputs.
Qed.

(** X10. Lines 110-124 with 176-247: in the transaction a successful call
    returns there are never more witness slots than inputs, every peg-in
    input has a witness slot (with an empty script witness), and the slot
    of any other input, where it exists, is the null witness. *)
Theorem ConstructTransaction_witness_slots inputs_in outputs_in locktime rbf assets_in
    pubkeys_out allow_peg_in tx pubkeys :
  ConstructTransaction inputs_in outputs_in locktime rbf assets_in pubkeys_out allow_peg_in
    = (Ok tx, pubkeys) →
  witness_slots_ok tx.
Proof.
  intros H. apply ConstructTransaction_Ok_shape in H
    as (inputs & outputs & assets & keys & lock_time & outs & fee & _ & _ & _ & _ & _ & _ & _ & Hslots & _).
  done.
Qed.

(** X11. Lines 281-285 and 320-327: a successful call never had two keys
    that decode to the same destination, nor an address key that decodes to
    an invalid destination, nor more than one [data] key. *)
Theorem ConstructTransaction_no_duplicates inputs_in outputs_in locktime rbf assets_in
    pubkeys_out allow_peg_in tx pubkeys :
  ConstructTransaction inputs_in outputs_in locktime rbf assets_in pubkeys_out allow_peg_in
    = (Ok tx, pubkeys) →
  ∃ outputs keys,
    normalized_outputs outputs_in = Ok outputs
    ∧ getKeys outputs = Ok keys
    ∧ NoDup (address_destinations keys)
    ∧ Forall (fun d => IsValidDestination d = true) (address_destinations keys)
    ∧ (length (filter (fun k => k = "data"%string) keys) ≤ 1)%nat.
Proof.
  intros H. apply ConstructTransaction_Ok_shape in H
    as (inputs & outputs & assets & keys & lock_time & outs & fee & _ & Hout & _ & Hkeys & _ & _ & _
        & _ & _ & _ & _ & _ & _ & _ & Hnodup & Hvalid & Hdata).
  by exists outputs, keys.
Qed.

(** X12. Lines 290-292, 304-306, 316-318, 333-344 and 348-354: the
    caller's key vector. Without a collector nothing is collected; with
    one, the call appends exactly one key per output of the returned
    transaction to what the vector held, and no output carries a key in its
    nonce. *)
Theorem ConstructTransaction_pubkeys_collector inputs_in outputs_in locktime rbf assets_in
    pubkeys_out allow_peg_in tx pubkeys :
  ConstructTransaction inputs_in outputs_in locktime rbf assets_in pubkeys_out allow_peg_in
    = (Ok tx, pubkeys) →
  match pubkeys_out with
  | None => pubkeys = None
  | Some before =>
      (∃ ks, pubkeys = Some (before ++ ks) ∧ length ks = length (vout tx))
      ∧ Forall (fun out => nNonce out = []) (vout tx)
  end.
Proof.
  intros H. apply ConstructTransaction_Ok_shape in H
    as (inputs & outputs & assets & keys & lock_time & outs & fee & _ & _ & _ & _ & _ & _ & _
        & _ & _ & _ & _ & (ks & -> & Hlen) & Hnonce & _).
  destruct pubkeys_out as [before|]; simpl; [|done].
  split; [by exists ks|]. apply Hnonce. by eexists.
Qed.

(** X13. Lines 171-174 and 272-279: with a null [assets_in] every output
    of the returned transaction, the fee output included, carries the
    policy asset. *)
Theorem ConstructTransaction_default_asset inputs_in outputs_in locktime rbf assets_in
    pubkeys_out allow_peg_in tx pubkeys :
  ConstructTransaction inputs_in outputs_in locktime rbf assets_in pubkeys_out allow_peg_in
    = (Ok tx, pubkeys) →
  isNull assets_in = true →
  Forall (fun out => nAsset out = Some policyAsset) (vout tx).
Proof.
  intros H Hnull. apply ConstructTransaction_Ok_shape in H
    as (inputs & outputs & assets & keys & lock_time & outs & fee & _ & _ & Hassets & _ & _ & _ & _
        & _ & _ & _ & _ & _ & _ & Hasset & _).
  apply Hasset. unfold assets_object in Hassets. rewrite Hnull in Hassets. simpl in Hassets.
  congruence.
Qed.

(** The caller's key vector holds what it held, with keys appended. *)
Definition collector_grows (s s' : CtState) : Prop :=
  ∃ ks, output_pubkeys_out s' = (fun v => v ++ ks) <$> output_pubkeys_out s.

#[global] Instance collector_grows_reflexive : Reflexive collector_grows.
Proof. intros s. exists []. destruct (output_pubkeys_out s); simpl; by rewrite ?app_nil_r. Qed.

#[global] Instance collector_grows_transitive : Transitive collector_grows.
Proof.
  intros s1 s2 s3 [ks1 H1] [ks2 H2]. exists (ks1 ++ ks2). rewrite H2, H1.
  destruct (output_pubkeys_out s1); simpl; by rewrite ?app_assoc.
Qed.

Lemma collector_grows_same s s' :
  output_pubkeys_out s' = output_pubkeys_out s → collector_grows s s'.
Proof.
  intros H. exists []. rewrite H. destruct (output_pubkeys_out s); simpl; by rewrite ?app_nil_r.
Qed.

Lemma ConstructTransaction_output_collector outputs assets name_ :
  frame collector_grows (ConstructTransaction_output outputs assets name_).
Proof.
  unfold ConstructTransaction_output, push_vout, push_pubkey. frame_steps.
  all: first [by apply collector_grows_same | by eexists].
Qed.

Lemma ConstructTransaction_build_collector inputs_in outputs_in locktime rbf assets_in
    allow_peg_in :
  frame collector_grows
    (ConstructTransaction_build inputs_in outputs_in locktime rbf assets_in allow_peg_in).
Proof.
  unfold ConstructTransaction_build, append_fee_output, push_vout, push_pubkey.
  frame_steps.
  all: try (by apply collector_grows_same).
  all: try (by eexists).
  - intros s r s'. unfold on_rawTx. intros [= _ <-]. by apply collector_grows_same.
  - apply frame_forM_; try apply _. apply ConstructTransaction_output_collector.
Qed.

(** X14. Lines 146-361: whatever the call returns, also when it throws
    after some outputs were built, the caller's key vector holds what it
    held before with keys appended at the end; nothing is removed or
    changed, and a null pointer stays null. *)
Theorem ConstructTransaction_collector_only_grows inputs_in outputs_in locktime rbf assets_in
    pubkeys_out allow_peg_in r pubkeys :
  ConstructTransaction inputs_in outputs_in locktime rbf assets_in pubkeys_out allow_peg_in
    = (r, pubkeys) →
  ∃ ks, pubkeys = (fun v => v ++ ks) <$> pubkeys_out.
Proof.
  destruct (ConstructTransaction_build inputs_in outputs_in locktime rbf assets_in allow_peg_in
              (CtState_init pubkeys_out)) as [r0 s] eqn:Hbuild.
  rewrite (ConstructTransaction_after_build _ _ _ _ _ _ _ _ _ Hbuild).
  apply ConstructTransaction_build_collector in Hbuild as [ks Hks]. simpl in Hks.
  intros H. exists ks. rewrite <- Hks.
  destruct r0 as [[]|e]; [destruct (rbf && _ && _)|]; by injection H as _ <-.
Qed.

End ConstructorResult.

(** ** The transaction constructor: the outputs argument and the peg-in
    fields *)

Section ConstructorArguments.
Context `{SS : ScriptServices} `{CS : ChainServices} `{RS : RpcServices} `{PCS : ParentChains}.

Definition pair_not_object : exn :=
  JSONRPCError RPC_INVALID_PARAMETER "Invalid parameter, key-value pair not an object as expected".

Definition pair_not_single : exn :=
  JSONRPCError RPC_INVALID_PARAMETER
    "Invalid parameter, key-value pair must contain exactly one key".

Lemma bind_ext {St A B} (c : M St A) (f g : A → M St B) (s : St) :
  (∀ a s', f a s' = g a s') → (x <- c ;; f x) s = (x <- c ;; g x) s.
Proof. intros Hfg. unfold bind. destruct (c s) as [[a|e] s']; [apply Hfg|done]. Qed.

Lemma translate_outputs_pairs pairs acc :
  translate_outputs (single_pair <$> pairs) (VOBJ acc) = Ok (VOBJ (acc ++ pairs)).
Proof.
  revert acc. induction pairs as [|p pairs IH]; intros acc; simpl.
  - by rewrite app_nil_r.
  - rewrite IH. by rewrite <- app_assoc.
Qed.

(** X15. Lines 249-263: the translation of the array form of the
    outputs succeeds exactly when every entry is an object with exactly one
    pair, and the dictionary is then the pairs in order (a repeated key is
    kept twice); the first entry that is not an object, or not a single
    pair, decides the error. *)
Theorem translate_outputs_spec (outputs : list UniValue) (acc : list (string * UniValue)) :
  (∀ dict, translate_outputs outputs (VOBJ acc) = Ok dict ↔
           ∃ pairs, outputs = single_pair <$> pairs ∧ dict = VOBJ (acc ++ pairs))
  ∧ (∀ e, translate_outputs outputs (VOBJ acc) = Throw e →
          ∃ pairs bad rest,
            outputs = (single_pair <$> pairs) ++ bad :: rest
            ∧ ((isObject bad = false ∧ e = pair_not_object)
               ∨ (isObject bad = true ∧ length (values bad) ≠ 1%nat ∧ e = pair_not_single))).
Proof.
  revert acc. induction outputs as [|output outputs IH]; intros acc.
  - split.
    + intros dict. simpl. split.
      * intros [= <-]. exists []. by rewrite app_nil_r.
      * intros (pairs & Hout & ->). destruct pairs; [|done]. by rewrite app_nil_r.
    + intros e. simpl. done.
  - assert (∀ pairs, output :: outputs = single_pair <$> pairs →
                     ∃ p pairs', pairs = p :: pairs' ∧ output = VOBJ [p]
                                 ∧ outputs = single_pair <$> pairs') as Hcons.
    { intros [|p pairs'] Heq; [done|]. simpl in Heq. injection Heq as -> ->.
      by exists p, pairs'. }
    simpl. destruct (isObject output) eqn:Hobj; simpl.
    2:{ split.
        - intros dict. split; [done|]. intros (pairs & Hout & _).
          apply Hcons in Hout as (p & pairs' & _ & -> & _). done.
        - intros e [= <-]. exists [], output, outputs. split; [done|]. by left. }
    destruct (bool_decide (length (values output) ≠ 1%nat)) eqn:Hlen.
    { apply bool_decide_eq_true in Hlen. split.
      - intros dict. split; [done|]. intros (pairs & Hout & _).
        apply Hcons in Hout as (p & pairs' & _ & -> & _). done.
      - intros e [= <-]. exists [], output, outputs. split; [done|]. right. by repeat split. }
    apply bool_decide_eq_false in Hlen.
    destruct output as [|kvs| | | |]; try done.
    destruct kvs as [|p [|p' kvs]]; simpl in Hlen;
      [exfalso; by apply Hlen| |exfalso; by apply Hlen].
    simpl. destruct (IH (acc ++ [p])) as [IHok IHerr]. split.
    + intros dict. rewrite IHok. split.
      * intros (pairs & -> & ->). exists (p :: pairs). by rewrite <- app_assoc.
      * intros (pairs & Hout & ->).
        apply Hcons in Hout as (q & pairs' & -> & [= <-] & ->).
        exists pairs'. by rewrite <- app_assoc.
    + intros e He. apply IHerr in He as (pairs & bad & rest & -> & Hbad).
      by exists (p :: pairs), bad, rest.
Qed.

(** X16. Lines 159-160 and 249-263: the array form of the outputs gives
    the same result as the object holding its pairs in order, whatever the
    other arguments. *)
Theorem ConstructTransaction_array_as_object (inputs_in : UniValue)
    (pairs : list (string * UniValue)) (locktime : UniValue) (rbf : bool) (assets_in : UniValue)
    (pubkeys_out : option (list CPubKey)) (allow_peg_in : bool) :
  ConstructTransaction inputs_in (VARR (single_pair <$> pairs)) locktime rbf assets_in
    pubkeys_out allow_peg_in
  = ConstructTransaction inputs_in (VOBJ pairs) locktime rbf assets_in pubkeys_out allow_peg_in.
Proof.
  assert (ConstructTransaction_build inputs_in (VARR (single_pair <$> pairs)) locktime rbf
            assets_in allow_peg_in (CtState_init pubkeys_out)
          = ConstructTransaction_build inputs_in (VOBJ pairs) locktime rbf assets_in allow_peg_in
              (CtState_init pubkeys_out)) as Hbuild.
  { unfold ConstructTransaction_build.
    change (isNull (VARR (single_pair <$> pairs))) with false.
    change (isNull (VOBJ pairs)) with false.
    change (isObject (VARR (single_pair <$> pairs))) with false.
    change (isObject (VOBJ pairs)) with true.
    cbv iota.
    apply bind_ext; intros [] s0.
    apply bind_ext; intros inputs s1.
    change (get_array (VARR (single_pair <$> pairs))) with (Ok (VARR (single_pair <$> pairs))).
    change (get_obj (VOBJ pairs)) with (Ok (VOBJ pairs)).
    unfold bind at 1. unfold bind at 9. unfold lift at 1. unfold lift at 5.
    apply bind_ext; intros [] s2.
    apply bind_ext; intros assets s3.
    apply bind_ext; intros [] s4.
    change (values (VARR (single_pair <$> pairs))) with (single_pair <$> pairs).
    by rewrite (translate_outputs_pairs pairs []). }
  destruct (ConstructTransaction_build inputs_in (VOBJ pairs) locktime rbf assets_in
              allow_peg_in (CtState_init pubkeys_out)) as [r s] eqn:Hobject.
  rewrite (ConstructTransaction_after_build _ _ _ _ _ _ _ _ _ Hbuild).
  by rewrite (ConstructTransaction_after_build _ _ _ _ _ _ _ _ _ Hobject).
Qed.

Definition pegin_fields_partial : exn :=
  JSONRPCError RPC_INVALID_PARAMETER "Some but not all pegin_ arguments provided".

Definition pegin_fields_unsupported : exn :=
  JSONRPCError RPC_INVALID_PARAMETER
    "pegin_ arguments provided but this command does not support peg-ins".

(** X17. Lines 177-246: an input object that is otherwise well formed
    and carries some peg-in field, but not all three or in a command that
    does not allow peg-ins, makes the turn throw after the plain input has
    been pushed: the error says which of the two it was, and the
    transaction holds the pushed input. *)
Theorem ConstructTransaction_input_rejects_pegin_fields (rbf allow_peg_in : bool) (idx : nat)
    (input o : UniValue) (txid : uint256) (nOutput seq : Z) (tx : CMutableTransaction) :
  get_obj input = Ok o →
  ParseHashO o "txid" = Ok txid →
  isNum (find_value o "vout") = true →
  get_int (find_value o "vout") = Ok nOutput →
  0 ≤ nOutput →
  input_nSequence rbf (nLockTime tx) o = Ok seq →
  ¬ no_pegin_fields o →
  ¬ has_pegin_fields o ∨ allow_peg_in = false →
  ConstructTransaction_input rbf allow_peg_in idx input tx
  = (Throw (if allow_peg_in then pegin_fields_partial else pegin_fields_unsupported),
     set_vin (fun v => v ++ [CTxIn_new (mkOutPoint txid nOutput) [] seq]) tx).
Proof.
  intros Hobj Htxid Hnum Hvout Hpos Hseq Hsome Hnot.
  rewrite (ConstructTransaction_input_pushes _ _ _ _ o txid nOutput) by done.
  rewrite Hseq. unfold ConstructTransaction_pegin, no_pegin_fields, has_pegin_fields in *.
  rewrite <- !isNull_VNULL in Hsome.
  destruct (isNull (find_value o "pegin_bitcoin_tx")),
    (isNull (find_value o "pegin_txout_proof")),
    (isNull (find_value o "pegin_claim_script")), allow_peg_in; simpl; try done;
    try (exfalso; apply Hsome; by repeat split);
    destruct Hnot as [Hnot|Hnot]; try done; exfalso; apply Hnot; by repeat split.
Qed.

End ConstructorArguments.

(** ** Previous outputs: the script block and the loop over the records *)

Section PrevoutsMore.
Context `{SS : ScriptServices} `{RS : RpcServices} `{SG : SigningServices}.

(** The coin that a record with script [scriptPubKey] and amount [nValue]
    leaves at its outpoint. *)
Definition record_coin (scriptPubKey : CScript) (nValue : CConfidentialValue) : Coin :=
  mkCoin (mkTxOut None nValue [] scriptPubKey) false 1.

(** Lines 437-454: the script the block works from, the witness script
    when it is given. *)
Definition supplied_script (prevOut : UniValue) : result CScript :=
  if negb (isNull (find_value prevOut "witnessScript"))
  then ParseHexV (find_value prevOut "witnessScript") "witnessScript"
  else ParseHexV (find_value prevOut "redeemScript") "redeemScript".

(** Line 458: the P2WSH script of [script]. *)
Definition witness_output_script (script : CScript) : CScript :=
  GetScriptForDestination (WitnessV0ScriptHash script).

(** Lines 455-459: both scripts are added to the key store. *)
Definition add_both (script : CScript) (k : Keystore) : Keystore :=
  AddCScript (AddCScript k script) (witness_output_script script).

Definition scripts_missing : exn :=
  JSONRPCError RPC_INVALID_PARAMETER "Missing redeemScript/witnessScript".

(** Lines 474-498: what the script block requires of [scriptPubKey]. *)
Definition script_matches (scriptPubKey : CScript) (is_p2sh is_p2wsh : bool) (script : CScript)
    : Prop :=
  if is_p2sh then
    scriptPubKey = GetScriptForDestination (ScriptHash script)
    ∨ scriptPubKey = GetScriptForDestination (ScriptHash (witness_output_script script))
  else if is_p2wsh then scriptPubKey = witness_output_script script
  else True.

(** Lines 461-472: when both fields are given they are the same string, or
    the redeem script is the P2WSH script of the witness script. *)
Definition fields_agree (prevOut : UniValue) (script : CScript) : Prop :=
  let rs := find_value prevOut "redeemScript" in
  let ws := find_value prevOut "witnessScript" in
  isNull ws = false → isNull rs = false →
  ∃ ws_str rs_str,
    get_str ws = Ok ws_str ∧ get_str rs = Ok rs_str
    ∧ (ws_str = rs_str ∨ ParseHexV rs "redeemScript" = Ok (witness_output_script script)).

(** The states before and after some records: the key store is still
    there or still absent, and every outpoint holds the coin it held or a
    coin recorded by a record. *)
Definition coins_recorded (st st' : PrevoutsState) : Prop :=
  (is_Some (keystore st') ↔ is_Some (keystore st))
  ∧ ∀ op, coins st' !! op = coins st !! op
          ∨ ∃ scriptPubKey nValue, coins st' !! op = Some (record_coin scriptPubKey nValue).

#[global] Instance coins_recorded_reflexive : Reflexive coins_recorded.
Proof. intros st. split; [done|]. intros op. by left. Qed.

#[global] Instance coins_recorded_transitive : Transitive coins_recorded.
Proof.
  intros st1 st2 st3 [Hk12 H12] [Hk23 H23]. split; [by rewrite Hk23|].
  intros op. destruct (H23 op) as [->|Hnew]; [apply H12|by right].
Qed.

Lemma ParsePrevouts_coin_cases op scriptPubKey prevOut coins0 r coins' :
  ParsePrevouts_coin op scriptPubKey prevOut coins0 = (r, coins') →
  coins' = coins0
  ∨ ∃ nValue, r = Ok tt ∧ coins' = <[op := record_coin scriptPubKey nValue]> coins0.
Proof.
  unfold ParsePrevouts_coin. monad_unfold. intros H.
  repeat case_match; simplify_eq; try (by left); right; by eexists.
Qed.

Lemma ParsePrevouts_record_frame p : frame coins_recorded (ParsePrevouts_record p).
Proof.
  unfold ParsePrevouts_record, add_script. frame_steps.
  all: try (split; [simpl; by rewrite fmap_is_Some|intros op; by left]).
  intros st r st'. unfold on_coins.
  destruct (ParsePrevouts_coin _ _ _ _) as [r0 coins'] eqn:Hcoin. simpl. intros [= _ <-].
  split; [done|]. intros op. simpl.
  apply ParsePrevouts_coin_cases in Hcoin as [->|(nValue & _ & ->)]; [by left|].
  match goal with
  | |- context [<[?o := _]> _] => destruct (decide (op = o)) as [->|Hne]
  end.
  - right. rewrite lookup_insert_eq. by eexists _, _.
  - left. by rewrite lookup_insert_ne.
Qed.

(** X18. Lines 381-503: whatever [ParsePrevouts] returns, also when it
    throws at a later record, no coin has been removed: every outpoint
    holds the coin it held before or one recorded by a record (height 1, not
    a coinbase, null asset and nonce), and a null key store pointer stays
    null. *)
Theorem ParsePrevouts_only_records (prevTxsUnival : UniValue) (st st' : PrevoutsState)
    (r : result unit) :
  ParsePrevouts prevTxsUnival st = (r, st') →
  (is_Some (keystore st') ↔ is_Some (keystore st))
  ∧ ∀ op,
      (is_Some (coins st !! op) → is_Some (coins st' !! op))
      ∧ (coins st' !! op = coins st !! op
         ∨ ∃ coin, coins st' !! op = Some coin
                   ∧ nHeight coin = 1 ∧ fCoinBase coin = false
                   ∧ nAsset (out coin) = None ∧ nNonce (out coin) = []).
Proof.
  intros H.
  assert (frame coins_recorded (ParsePrevouts prevTxsUnival)) as Hframe.
  { unfold ParsePrevouts. frame_steps. apply frame_forM_; try apply _.
    apply ParsePrevouts_record_frame. }
  apply Hframe in H as [Hk Hcoins]. split; [done|]. intros op.
  destruct (Hcoins op) as [->|(spk & v & ->)].
  - split; [done|by left].
  - split; [by eexists|]. right. by eexists.
Qed.

(** X19. Lines 432-435: without a key store, or for a script that is
    neither pay-to-script-hash nor pay-to-witness-script-hash, a record
    whose header parses does what its coin block does and nothing more:
    the redeemScript and witnessScript fields are not even type-checked. *)
Theorem ParsePrevouts_record_without_scripts (p : UniValue) (op : COutPoint)
    (scriptPubKey : CScript) (st : PrevoutsState) :
  record_header p op scriptPubKey →
  keystore st = None
  ∨ (IsPayToScriptHash scriptPubKey = false ∧ IsPayToWitnessScriptHash scriptPubKey = false) →
  ParsePrevouts_record p st
  = ((ParsePrevouts_coin op scriptPubKey p (coins st)).1,
     mkPrevouts (keystore st) (ParsePrevouts_coin op scriptPubKey p (coins st)).2).
Proof.
  intros Hheader Hskip. rewrite (ParsePrevouts_record_header p op scriptPubKey) by done.
  cbv zeta. destruct (ParsePrevouts_coin op scriptPubKey p (coins st)) as [[[]|e] coins'];
    simpl; [|done].
  destruct Hskip as [->|[-> ->]]; simpl; [done|]. by rewrite andb_false_r.
Qed.

(** X20. Lines 436-499: when the script block returns, the script it
    worked from (the witness script when given, else the redeem script) and
    its P2WSH script have both been added to the key store, in that order,
    and nothing else has changed; at least one of the two fields is given,
    and when both are given they agree; and [scriptPubKey] is the
    script-hash of the script or of its P2WSH script (for a
    pay-to-script-hash output), or its P2WSH script (for a
    pay-to-witness-script-hash output). *)
Theorem ParsePrevouts_scripts_accepted (scriptPubKey : CScript) (is_p2sh is_p2wsh : bool)
    (prevOut : UniValue) (st st' : PrevoutsState) :
  ParsePrevouts_scripts scriptPubKey is_p2sh is_p2wsh prevOut st = (Ok tt, st') →
  ∃ script,
    supplied_script prevOut = Ok script
    ∧ st' = mkPrevouts (add_both script <$> keystore st) (coins st)
    ∧ ¬ (find_value prevOut "redeemScript" = VNULL ∧ find_value prevOut "witnessScript" = VNULL)
    ∧ fields_agree prevOut script
    ∧ script_matches scriptPubKey is_p2sh is_p2wsh script.
Proof.
  unfold ParsePrevouts_scripts. intros H.
  apply bind_Ok_inv in H as (? & s0 & H0 & H). apply lift_Ok_inv in H0 as [Hcheck Hs0]; subst s0.
  apply bind_Ok_inv in H as (? & s0 & H0 & H). apply throw_if_Ok_inv in H0 as [Hnull Hs0]; subst s0.
  apply bind_Ok_inv in H as (script & s0 & H0 & H). apply lift_Ok_inv in H0 as [Hscript Hs0]; subst s0.
  apply bind_Ok_inv in H as ([] & s1 & H1 & H). injection H1 as <-.
  apply bind_Ok_inv in H as ([] & s2 & H2 & H). injection H2 as <-.
  apply bind_Ok_inv in H as ([] & s3 & Hagree & H).
  exists script. split; [done|].
  assert (s3 = mkPrevouts (add_both script <$> keystore st) (coins st)
          ∧ fields_agree prevOut script) as [-> Hfields].
  { unfold fields_agree. cbv zeta.
    destruct (isNull (find_value prevOut "witnessScript")),
      (isNull (find_value prevOut "redeemScript")); simpl in Hagree;
      try (injection Hagree as <-; split; [simpl; by destruct (keystore st)|done]).
    apply bind_Ok_inv in Hagree as (ws_str & s0 & H0 & Hagree).
    apply lift_Ok_inv in H0 as [Hws Hs0]; subst s0.
    apply bind_Ok_inv in Hagree as (rs_str & s0 & H0 & Hagree).
    apply lift_Ok_inv in H0 as [Hrs Hs0]; subst s0.
    destruct (bool_decide (ws_str ≠ rs_str)) eqn:Hne.
    - apply bind_Ok_inv in Hagree as (redeemScript & s0 & H0 & Hagree).
      apply lift_Ok_inv in H0 as [Hredeem Hs0]; subst s0.
      apply throw_if_Ok_inv in Hagree as [Hsame ->].
      apply bool_decide_eq_false in Hsame. apply dec_stable in Hsame. subst redeemScript.
      split; [simpl; by destruct (keystore st)|]. intros _ _. exists ws_str, rs_str.
      split; [done|]. split; [done|]. by right.
    - apply bool_decide_eq_false in Hne. apply dec_stable in Hne. injection Hagree as <-.
      split; [simpl; by destruct (keystore st)|]. intros _ _. exists ws_str, rs_str.
      split; [done|]. split; [done|]. by left. }
  assert (st' = mkPrevouts (add_both script <$> keystore st) (coins st)
          ∧ script_matches scriptPubKey is_p2sh is_p2wsh script) as [-> Hmatch].
  { revert H. unfold script_matches, witness_output_script.
    destruct is_p2sh; [|destruct is_p2wsh].
    - destruct (decide _); [intros [= <-]; split; [done|by left]|].
      destruct (decide _); [intros [= <-]; split; [done|by right]|]. done.
    - intros H. apply throw_if_Ok_inv in H as [H ->]. split; [done|].
      apply bool_decide_eq_false in H. by apply dec_stable in H.
    - by intros [= <-]. }
  split; [done|]. split; [|done].
  intros [Hrs Hws]. rewrite Hrs, Hws in Hnull. done.
Qed.

(** X21. Lines 411-450: the record is not atomic. For a script-hash
    output with a key store, a record with neither redeemScript nor
    witnessScript is rejected, and the coin of its outpoint has already
    been recorded when it is. *)
Theorem ParsePrevouts_record_missing_scripts (p : UniValue) (op : COutPoint)
    (scriptPubKey : CScript) (nValue : CConfidentialValue) (k : Keystore)
    (coins0 : gmap COutPoint Coin) :
  record_header p op scriptPubKey →
  recordable coins0 op scriptPubKey →
  supplied_amount p nValue →
  IsPayToScriptHash scriptPubKey || IsPayToWitnessScriptHash scriptPubKey = true →
  RPCTypeCheckObj p [("redeemScript"%string, T_VSTR); ("witnessScript"%string, T_VSTR)] true
  = Ok tt →
  find_value p "redeemScript" = VNULL →
  find_value p "witnessScript" = VNULL →
  ParsePrevouts_record p (mkPrevouts (Some k) coins0)
  = (Throw scripts_missing,
     mkPrevouts (Some k) (<[op := record_coin scriptPubKey nValue]> coins0)).
Proof.
  intros Hheader Hrec Hamount Hhash Hcheck Hrs Hws.
  rewrite (ParsePrevouts_record_header p op scriptPubKey) by done. cbv zeta. simpl coins.
  rewrite (ParsePrevouts_coin_records coins0 op scriptPubKey p nValue) by done. simpl.
  rewrite Hhash. simpl.
  unfold ParsePrevouts_scripts. monad_unfold. rewrite Hcheck, Hrs, Hws. done.
Qed.

(** X22. Lines 385-430: two records for one outpoint with different
    scripts. The first is recorded; the second is rejected against the coin
    the first one left (an unspent coin), and that coin stays. *)
Theorem ParsePrevouts_same_outpoint_twice (p1 p2 : UniValue) (op : COutPoint)
    (scriptPubKey1 scriptPubKey2 : CScript) (nValue : CConfidentialValue)
    (coins0 : gmap COutPoint Coin) :
  record_header p1 op scriptPubKey1 →
  record_header p2 op scriptPubKey2 →
  recordable coins0 op scriptPubKey1 →
  supplied_amount p1 nValue →
  Coin_IsSpent (record_coin scriptPubKey1 nValue) = false →
  scriptPubKey1 ≠ scriptPubKey2 →
  ParsePrevouts (VARR [p1; p2]) (mkPrevouts None coins0)
  = (Throw (scriptPubKey_mismatch scriptPubKey1 scriptPubKey2),
     mkPrevouts None (<[op := record_coin scriptPubKey1 nValue]> coins0)).
Proof.
  intros Hheader1 Hheader2 Hrec Hamount Hunspent Hne.
  assert (ParsePrevouts_record p1 (mkPrevouts None coins0)
          = (Ok tt, mkPrevouts None (<[op := record_coin scriptPubKey1 nValue]> coins0)))
    as Hfirst.
  { rewrite (ParsePrevouts_record_header p1 op scriptPubKey1) by done. cbv zeta. simpl coins.
    by rewrite (ParsePrevouts_coin_records coins0 op scriptPubKey1 p1 nValue). }
  assert (ParsePrevouts_record p2
            (mkPrevouts None (<[op := record_coin scriptPubKey1 nValue]> coins0))
          = (Throw (scriptPubKey_mismatch scriptPubKey1 scriptPubKey2),
             mkPrevouts None (<[op := record_coin scriptPubKey1 nValue]> coins0)))
    as Hsecond.
  { rewrite (ParsePrevouts_record_header p2 op scriptPubKey2) by done. cbv zeta. simpl coins.
    rewrite (ParsePrevouts_coin_conflict _ op scriptPubKey2 p2
               (record_coin scriptPubKey1 nValue)); [done|].
    split; [by rewrite lookup_insert_eq|]. by split. }
  change (ParsePrevouts (VARR [p1; p2]) (mkPrevouts None coins0))
    with (match ParsePrevouts_record p1 (mkPrevouts None coins0) with
          | (Ok _, st1) =>
              match ParsePrevouts_record p2 st1 with
              | (Ok _, st2) => (Ok tt, st2)
              | (Throw e, st2) => (Throw e, st2)
              end
          | (Throw e, st1) => (Throw e, st1)
          end).
  by rewrite Hfirst, Hsecond.
Qed.

End PrevoutsMore.

(** ** Validation of the peg-in inputs *)

Section ValidationMore.
Context `{SS : ScriptServices} `{CS : ChainServices} `{RS : RpcServices} `{SG : SigningServices}.

(** The message of line 516. *)
Definition invalid_proof_message : string := "Peg-in input has invalid proof.".

(** Lines 515: input [i] is a peg-in without a witness slot, or with a
    witness that fails verification without the depth check. *)
Definition invalid_pegin_at (mtx : CMutableTransaction) (feds : list (CScript * CScript))
    (i : nat) : Prop :=
  ∃ txin,
    vin mtx !! i = Some txin ∧ m_is_pegin txin = true
    ∧ (vtxinwit mtx !! i = None
       ∨ ∃ txinwit,
           vtxinwit mtx !! i = Some txinwit
           ∧ (IsValidPeginWitness (m_pegin_witness txinwit) feds (prevout txin) false).1 = false).

(** Line 520: input [i] is a peg-in whose witness passes without the depth
    check and fails with it, leaving the message [msg]. *)
Definition fails_depth_check_at (mtx : CMutableTransaction) (feds : list (CScript * CScript))
    (i : nat) (msg : string) : Prop :=
  ∃ txin txinwit,
    vin mtx !! i = Some txin ∧ m_is_pegin txin = true ∧ vtxinwit mtx !! i = Some txinwit
    ∧ (IsValidPeginWitness (m_pegin_witness txinwit) feds (prevout txin) false).1 = true
    ∧ IsValidPeginWitness (m_pegin_witness txinwit) feds (prevout txin) true = (false, msg).

Lemma validate_pegin_loop_Ok mtx feds ins i immature errs b errs' :
  ins = drop i (vin mtx) →
  validate_pegin_loop mtx feds i ins immature errs = (Ok b, errs') →
  (∀ j, (i ≤ j)%nat → invalid_pegin_at mtx feds j →
        errs' !! Z.of_nat j = Some invalid_proof_message)
  ∧ (∀ k, (∀ j, (i ≤ j)%nat → invalid_pegin_at mtx feds j → k ≠ Z.of_nat j) →
          errs' !! k = errs !! k)
  ∧ (b = true ↔ immature = true ∨ ∃ j msg, (i ≤ j)%nat ∧ fails_depth_check_at mtx feds j msg)
  ∧ (∀ j msg, (i ≤ j)%nat → fails_depth_check_at mtx feds j msg →
              msg = "Needs more confirmations."%string).
Proof.
  revert i immature errs. induction ins as [|txin rest IH]; intros i immature errs Hins; simpl.
  - intros [= <- <-].
    assert (∀ j, (i ≤ j)%nat → vin mtx !! j = None) as Hnone.
    { intros j Hj. apply lookup_ge_None. symmetry in Hins. apply drop_nil_inv in Hins. lia. }
    split; [intros j Hj (txin & Hv & _); by rewrite Hnone in Hv|].
    split; [done|]. split.
    + split; [by left|]. intros [->|(j & msg & Hj & txin & w & Hv & _)]; [done|].
      by rewrite Hnone in Hv.
    + intros j msg Hj (txin & w & Hv & _). by rewrite Hnone in Hv.
  - assert (vin mtx !! i = Some txin) as Hi.
    { rewrite <- (Nat.add_0_r i), <- lookup_drop, <- Hins. done. }
    assert (rest = drop (S i) (vin mtx)) as Hrest.
    { rewrite (drop_S _ _ _ Hi) in Hins. by injection Hins. }
    (* what the rest of the loop gives, put together with the turn at [i] *)
    assert (∀ immature0 errs0,
      validate_pegin_loop mtx feds (S i) rest immature0 errs0 = (Ok b, errs') →
      (errs0 = errs
       ∨ (invalid_pegin_at mtx feds i ∧ errs0 = <[Z.of_nat i := invalid_proof_message]> errs)) →
      (invalid_pegin_at mtx feds i → errs0 !! Z.of_nat i = Some invalid_proof_message) →
      (immature0 = true ↔ immature = true ∨ ∃ msg, fails_depth_check_at mtx feds i msg) →
      (∀ msg, fails_depth_check_at mtx feds i msg → msg = "Needs more confirmations."%string) →
      (∀ j, (i ≤ j)%nat → invalid_pegin_at mtx feds j →
            errs' !! Z.of_nat j = Some invalid_proof_message)
      ∧ (∀ k, (∀ j, (i ≤ j)%nat → invalid_pegin_at mtx feds j → k ≠ Z.of_nat j) →
              errs' !! k = errs !! k)
      ∧ (b = true ↔ immature = true
                    ∨ ∃ j msg, (i ≤ j)%nat ∧ fails_depth_check_at mtx feds j msg)
      ∧ (∀ j msg, (i ≤ j)%nat → fails_depth_check_at mtx feds j msg →
                  msg = "Needs more confirmations."%string)) as Hext.
    { intros immature0 errs0 Hloop Herrs0 Hwritten Himm Hmsg.
      destruct (IH (S i) immature0 errs0 Hrest Hloop) as (IH1 & IH2 & IH3 & IH4).
      split.
      { intros j Hj Hinv. destruct (decide (j = i)) as [->|Hne].
        - rewrite IH2; [by apply Hwritten|]. intros j' Hj' _. lia.
        - apply IH1; [lia|done]. }
      split.
      { intros k Hk. rewrite IH2 by (intros j Hj; apply Hk; lia).
        destruct Herrs0 as [->|[Hinv ->]]; [done|].
        apply lookup_insert_ne. intros Heq. by apply (Hk i (Nat.le_refl i) Hinv). }
      split.
      { rewrite IH3, Himm. split.
        - intros [[?|(msg & Hfail)]|(j & msg & Hj & Hfail)]; [by left| |].
          + right. by exists i, msg.
          + right. exists j, msg. split; [lia|done].
        - intros [?|(j & msg & Hj & Hfail)]; [left; by left|].
          destruct (decide (j = i)) as [->|Hne].
          + left. right. by exists msg.
          + right. exists j, msg. split; [lia|done]. }
      intros j msg Hj Hfail. destruct (decide (j = i)) as [->|Hne].
      - by apply Hmsg.
      - apply (IH4 j msg); [lia|done]. }
    destruct (m_is_pegin txin) eqn:Hpegin.
    2:{ intros Hloop. apply (Hext immature errs Hloop).
        - by left.
        - intros (txin' & Hv & Hp & _). congruence.
        - split; [by left|]. intros [?|(msg & txin' & w & Hv & Hp & _)]; [done|congruence].
        - intros msg (txin' & w & Hv & Hp & _). congruence. }
    destruct (vtxinwit mtx !! i) as [txinwit|] eqn:Hwit.
    2:{ unfold bind, modify. intros Hloop.
        assert (invalid_pegin_at mtx feds i) as Hinv by (exists txin; by repeat split; try left).
        apply (Hext immature _ Hloop).
        - by right.
        - intros _. apply lookup_insert_eq.
        - split; [by left|]. intros [?|(msg & txin' & w & _ & _ & Hw & _)]; [done|congruence].
        - intros msg (txin' & w & _ & _ & Hw & _). congruence. }
    destruct (IsValidPeginWitness (m_pegin_witness txinwit) feds (prevout txin) false)
      as [shallow err0] eqn:Hshallow.
    destruct shallow; simpl.
    2:{ unfold bind, modify. intros Hloop.
        assert (invalid_pegin_at mtx feds i) as Hinv.
        { exists txin. split; [done|]. split; [done|]. right. exists txinwit.
          by rewrite Hshallow. }
        apply (Hext immature _ Hloop).
        - by right.
        - intros _. apply lookup_insert_eq.
        - split; [by left|].
          intros [?|(msg & txin' & w & Hv & _ & Hw & Hok & _)]; [done|].
          assert (txin' = txin) as -> by congruence. assert (w = txinwit) as -> by congruence.
          rewrite Hshallow in Hok. done.
        - intros msg (txin' & w & Hv & _ & Hw & Hok & _).
          assert (txin' = txin) as -> by congruence. assert (w = txinwit) as -> by congruence.
          rewrite Hshallow in Hok. done. }
    assert (¬ invalid_pegin_at mtx feds i) as Hvalid.
    { intros (txin' & Hv & _ & [Hnone|(w & Hw & Hbad)]); [congruence|].
      assert (txin' = txin) as -> by congruence. assert (w = txinwit) as -> by congruence.
      rewrite Hshallow in Hbad. done. }
    destruct (IsValidPeginWitness (m_pegin_witness txinwit) feds (prevout txin) true)
      as [deep err1] eqn:Hdeep.
    destruct deep; simpl.
    + intros Hloop. apply (Hext immature errs Hloop).
      * by left.
      * done.
      * split; [by left|].
        intros [?|(msg & txin' & w & Hv & _ & Hw & _ & Hbad)]; [done|].
        assert (txin' = txin) as -> by congruence. assert (w = txinwit) as -> by congruence.
        rewrite Hdeep in Hbad. done.
      * intros msg (txin' & w & Hv & _ & Hw & _ & Hbad).
        assert (txin' = txin) as -> by congruence. assert (w = txinwit) as -> by congruence.
        rewrite Hdeep in Hbad. done.
    + intros Hloop. apply bind_Ok_inv in Hloop as ([] & errs0 & Hcheck & Hloop).
      apply throw_if_Ok_inv in Hcheck as [Hmsg ->].
      apply bool_decide_eq_false in Hmsg. apply dec_stable in Hmsg. subst err1.
      apply (Hext true errs Hloop).
      * by left.
      * done.
      * split; [|done]. intros _. right. exists "Needs more confirmations."%string, txin, txinwit.
        rewrite Hshallow. by repeat split.
      * intros msg (txin' & w & Hv & _ & Hw & _ & Hbad).
        assert (txin' = txin) as -> by congruence. assert (w = txinwit) as -> by congruence.
        rewrite Hdeep in Hbad. by injection Hbad.
Qed.

(** X23. Lines 506-526: when validation returns, [input_errors] holds
    the invalid-proof message at exactly the peg-in inputs that have no
    witness slot or whose witness fails without the depth check, every
    other key is as it was, and the returned flag is set exactly when some
    peg-in input passes without the depth check and fails with it (which it
    then does with the message of line 521). *)
Theorem ValidateTransactionPeginInputs_returns (mtx : CMutableTransaction)
    (errs errs' : gmap Z string) (b : bool) :
  ValidateTransactionPeginInputs mtx errs = (Ok b, errs') →
  let feds := GetValidFedpegScripts true in
  (∀ i, invalid_pegin_at mtx feds i → errs' !! Z.of_nat i = Some invalid_proof_message)
  ∧ (∀ k, (∀ i, invalid_pegin_at mtx feds i → k ≠ Z.of_nat i) → errs' !! k = errs !! k)
  ∧ (b = true ↔ ∃ i msg, fails_depth_check_at mtx feds i msg)
  ∧ (∀ i msg, fails_depth_check_at mtx feds i msg → msg = "Needs more confirmations."%string).
Proof.
  intros H feds. unfold ValidateTransactionPeginInputs in H.
  apply validate_pegin_loop_Ok in H as (H1 & H2 & H3 & H4); [|done].
  split; [intros i; apply H1; lia|].
  split; [intros k Hk; apply H2; intros j _; apply Hk|].
  split.
  - rewrite H3. split.
    + intros [?|(j & msg & _ & Hfail)]; [done|]. by exists j, msg.
    + intros (j & msg & Hfail). right. exists j, msg. split; [lia|done].
  - intros i msg. apply H4. lia.
Qed.

Lemma validate_pegin_loop_Throw mtx feds ins i immature errs e errs' :
  ins = drop i (vin mtx) →
  validate_pegin_loop mtx feds i ins immature errs = (Throw e, errs') →
  e = NonFatalCheckError
  ∧ ∃ j msg, (i ≤ j)%nat ∧ fails_depth_check_at mtx feds j msg
             ∧ msg ≠ "Needs more confirmations."%string.
Proof.
  revert i immature errs. induction ins as [|txin rest IH]; intros i immature errs Hins; simpl.
  - done.
  - assert (vin mtx !! i = Some txin) as Hi.
    { rewrite <- (Nat.add_0_r i), <- lookup_drop, <- Hins. done. }
    assert (rest = drop (S i) (vin mtx)) as Hrest.
    { rewrite (drop_S _ _ _ Hi) in Hins. by injection Hins. }
    assert (∀ immature0 errs0,
      validate_pegin_loop mtx feds (S i) rest immature0 errs0 = (Throw e, errs') →
      e = NonFatalCheckError
      ∧ ∃ j msg, (i ≤ j)%nat ∧ fails_depth_check_at mtx feds j msg
                 ∧ msg ≠ "Needs more confirmations."%string) as Hnext.
    { intros immature0 errs0 Hloop.
      destruct (IH (S i) immature0 errs0 Hrest Hloop) as (-> & j & msg & Hj & Hfail & Hmsg).
      split; [done|]. exists j, msg. split; [lia|done]. }
    destruct (m_is_pegin txin) eqn:Hpegin; [|apply Hnext].
    destruct (vtxinwit mtx !! i) as [txinwit|] eqn:Hwit; [|unfold bind, modify; apply Hnext].
    destruct (IsValidPeginWitness (m_pegin_witness txinwit) feds (prevout txin) false)
      as [shallow err0] eqn:Hshallow.
    destruct shallow; simpl; [|unfold bind, modify; apply Hnext].
    destruct (IsValidPeginWitness (m_pegin_witness txinwit) feds (prevout txin) true)
      as [deep err1] eqn:Hdeep.
    destruct deep; simpl; [apply Hnext|].
    unfold bind, throw_if.
    destruct (bool_decide (err1 ≠ "Needs more confirmations."%string)) eqn:Hmsg.
    + apply bool_decide_eq_true in Hmsg. intros [= <- <-]. split; [done|].
      exists i, err1. split; [lia|]. split; [|done].
      exists txin, txinwit. rewrite Hshallow. by repeat split.
    + apply Hnext.
Qed.

Lemma validate_pegin_loop_unexpected mtx feds ins i immature errs j msg :
  ins = drop i (vin mtx) →
  (i ≤ j)%nat →
  fails_depth_check_at mtx feds j msg →
  msg ≠ "Needs more confirmations."%string →
  ∃ errs', validate_pegin_loop mtx feds i ins immature errs = (Throw NonFatalCheckError, errs').
Proof.
  intros Hins Hj Hfail Hmsg.
  destruct (validate_pegin_loop mtx feds i ins immature errs) as [[b|e] errs'] eqn:Hloop.
  - apply validate_pegin_loop_Ok in Hloop as (_ & _ & _ & H4); [|done].
    by specialize (H4 j msg Hj Hfail).
  - apply validate_pegin_loop_Throw in Hloop as (-> & _); [|done]. by exists errs'.
Qed.

(** X24. Line 521: validation throws exactly when some peg-in input
    passes verification without the depth check and fails it with the
    depth check for a reason other than too few confirmations; what it
    throws is then the CHECK_NONFATAL error. *)
Theorem ValidateTransactionPeginInputs_throws (mtx : CMutableTransaction) (errs : gmap Z string) :
  let feds := GetValidFedpegScripts true in
  ((∃ i msg, fails_depth_check_at mtx feds i msg ∧ msg ≠ "Needs more confirmations."%string)
   ↔ ∃ e errs', ValidateTransactionPeginInputs mtx errs = (Throw e, errs'))
  ∧ ∀ e errs', ValidateTransactionPeginInputs mtx errs = (Throw e, errs') →
               e = NonFatalCheckError.
Proof.
  intros feds. unfold ValidateTransactionPeginInputs. split; [split|].
  - intros (i & msg & Hfail & Hmsg).
    destruct (validate_pegin_loop_unexpected mtx feds (vin mtx) 0 false errs i msg)
      as (errs' & Hthrow); [done|lia|done|done|].
    by exists NonFatalCheckError, errs'.
  - intros (e & errs' & Hthrow).
    apply validate_pegin_loop_Throw in Hthrow as (_ & j & msg & _ & Hfail & Hmsg); [|done].
    by exists j, msg.
  - intros e errs' Hthrow.
    by apply validate_pegin_loop_Throw in Hthrow as (-> & _).
Qed.

End ValidationMore.

(** ** The JSON result of signing *)

Section SigningResultMore.
Context `{SS : ScriptServices} `{CS : ChainServices} `{RS : RpcServices} `{SG : SigningServices}.

(** Lines 366-377: the object pushed for one input error. *)
Definition error_entry (txin : CTxIn) (txinwit : CTxInWitness) (strMessage : string) : UniValue :=
  VOBJ [("txid"%string, VSTR (uint256_ToString (hash (prevout txin))));
        ("vout"%string, VNUM (itostr (n (prevout txin))));
        ("witness"%string, VARR ((fun item => VSTR (HexStr item)) <$> scriptWitness txinwit));
        ("scriptSig"%string, VSTR (HexStr (scriptSig txin)));
        ("sequence"%string, VNUM (itostr (nSequence txin)));
        ("error"%string, VSTR strMessage)].

(** [entry] is the object for the error [err_pair] of [mtx]. *)
Definition rendered (mtx : CMutableTransaction) (err_pair : Z * string) (entry : UniValue)
    : Prop :=
  err_pair.2 ≠ "Missing amount"%string
  ∧ ∃ txin txinwit,
      vector_at (vin mtx) err_pair.1 = Some txin
      ∧ vector_at (vtxinwit mtx) err_pair.1 = Some txinwit
      ∧ entry = error_entry txin txinwit err_pair.2.

(** The exception of line 548. *)
Definition missing_amount_for (coin : Coin) : exn :=
  JSONRPCError RPC_TYPE_ERROR ("Missing amount for " +:+ CTxOut_ToString (out coin)).

Lemma witness_items_pushed (stack : list bytes) (acc : list UniValue) :
  foldl (fun w item => push_back (VSTR (HexStr item)) w) (VARR acc) stack
  = VARR (acc ++ ((fun item => VSTR (HexStr item)) <$> stack)).
Proof.
  revert acc. induction stack as [|item stack IH]; intros acc; simpl.
  - by rewrite app_nil_r.
  - rewrite IH. by rewrite <- app_assoc.
Qed.

Lemma TxInErrorToJSON_entry txin txinwit vs strMessage :
  TxInErrorToJSON txin txinwit (VARR vs) strMessage
  = VARR (vs ++ [error_entry txin txinwit strMessage]).
Proof.
  unfold TxInErrorToJSON, error_entry. cbv zeta. by rewrite witness_items_pushed.
Qed.

(** The loop over the errors, when it returns. *)
Lemma errors_to_json_Ok (mtx : CMutableTransaction) (coins0 : gmap COutPoint Coin)
    (input_errors : list (Z * string)) (vs : list UniValue) (vErrors : UniValue) :
  errors_to_json mtx coins0 input_errors (VARR vs) = Ok vErrors →
  ∃ entries, Forall2 (rendered mtx) input_errors entries ∧ vErrors = VARR (vs ++ entries).
Proof.
  revert vs. induction input_errors as [|[k msg] rest IH]; intros vs;
    cbn [errors_to_json fst snd].
  - intros [= <-]. exists []. split; [constructor|]. by rewrite app_nil_r.
  - destruct (decide (msg = "Missing amount"%string)) as [->|Hmsg]; [by repeat case_match|].
    destruct (vector_at (vin mtx) k) as [txin|] eqn:Hin; [|done].
    destruct (vector_at (vtxinwit mtx) k) as [txinwit|] eqn:Hwit; [|done].
    rewrite TxInErrorToJSON_entry. intros H.
    apply IH in H as (entries & Hall & ->). exists (error_entry txin txinwit msg :: entries).
    split; [|by rewrite <- app_assoc].
    constructor; [|done]. split; [done|]. by exists txin, txinwit.
Qed.

(** X25. Lines 365-379 and 544-550: the loop over the errors returns
    exactly when no error is the missing-amount message and each names an
    input that exists and has a witness slot; the array then holds, after
    what it held, one object per error in the order of the errors, with the
    keys txid, vout, witness, scriptSig, sequence and error. *)
Theorem errors_to_json_spec (mtx : CMutableTransaction) (coins0 : gmap COutPoint Coin)
    (input_errors : list (Z * string)) (vs : list UniValue) (vErrors : UniValue) :
  errors_to_json mtx coins0 input_errors (VARR vs) = Ok vErrors
  ↔ ∃ entries, Forall2 (rendered mtx) input_errors entries ∧ vErrors = VARR (vs ++ entries).
Proof.
  split; [apply errors_to_json_Ok|].
  intros (entries & Hall & ->). revert vs.
  induction Hall as [|[k msg] entry rest entries (Hmsg & txin & txinwit & Hin & Hwit & ->) _ IH];
    intros vs; cbn [errors_to_json fst snd].
  - by rewrite app_nil_r.
  - simpl in Hmsg, Hin, Hwit. rewrite decide_False by done. rewrite Hin, Hwit.
    rewrite TxInErrorToJSON_entry, IH. by rewrite <- app_assoc.
Qed.

Lemma errors_to_json_missing_amount mtx coins0 input_errors vs k :
  (k, "Missing amount"%string) ∈ input_errors →
  ∃ e, errors_to_json mtx coins0 input_errors (VARR vs) = Throw e
       ∧ (e = out_of_range ∨ ∃ coin, e = missing_amount_for coin).
Proof.
  revert vs. induction input_errors as [|[k' msg] rest IH]; intros vs Hin.
  - by apply elem_of_nil in Hin.
  - cbn [errors_to_json fst snd].
    destruct (decide (msg = "Missing amount"%string)) as [->|Hmsg].
    + destruct (vector_at (vin mtx) k') as [txin|]; [|eexists; split; [done|by left]].
      destruct (coins0 !! prevout txin) as [coin|]; [|eexists; split; [done|by left]].
      eexists. split; [done|]. right. by exists coin.
    + apply elem_of_cons in Hin as [[= _ Heq]|Hin]; [by symmetry in Heq|].
      destruct (vector_at (vin mtx) k') as [txin|]; [|eexists; split; [done|by left]].
      destruct (vector_at (vtxinwit mtx) k') as [txinwit|]; [|eexists; split; [done|by left]].
      rewrite TxInErrorToJSON_entry. by apply IH.
Qed.

(** X26. Lines 544-550: a missing-amount error anywhere among the input
    errors makes the call throw before anything is pushed: [result] is left
    as it was, and the exception is the missing-amount error of some coin
    or the out-of-range error of [at]. *)
Theorem SignTransactionResultToJSON_missing_amount (mtx : CMutableTransaction) (complete : bool)
    (coins0 : gmap COutPoint Coin) (input_errors : gmap Z string) (immature_pegin : bool)
    (result0 : UniValue) (k : Z) :
  input_errors !! k = Some "Missing amount"%string →
  ∃ e,
    SignTransactionResultToJSON mtx complete coins0 input_errors immature_pegin result0
    = (Throw e, result0)
    ∧ (e = out_of_range ∨ ∃ coin, e = missing_amount_for coin).
Proof.
  intros Hk.
  destruct (errors_to_json_missing_amount mtx coins0 (map_entries input_errors) [] k)
    as (e & He & Hform).
  { unfold map_entries. rewrite merge_sort_Permutation. by apply elem_of_map_to_list. }
  exists e. split; [|done].
  unfold SignTransactionResultToJSON, bind, lift. by rewrite He.
Qed.

Lemma map_entries_ascending (input_errors : gmap Z string) :
  Sorted entry_le (map_entries input_errors)
  ∧ map_entries input_errors ≡ₚ map_to_list input_errors.
Proof.
  split; [|apply merge_sort_Permutation].
  assert (Total entry_le) as Htotal by (intros a b; unfold entry_le; lia).
  apply (Sorted_merge_sort entry_le).
Qed.

(** The errors already in [result0]. *)
Definition previous_errors (result0 : UniValue) : list UniValue :=
  values (find_value result0 "errors").

(** Lines 554-559: [result] with the new entries put before its errors. *)
Definition with_errors (entries : list UniValue) (result : UniValue) : UniValue :=
  if decide (entries = []) then result
  else pushKV "errors" (VARR (entries ++ previous_errors result)) result.

(** Lines 560-562: [result] with the warning of an immature peg-in. *)
Definition with_warning (immature_pegin : bool) (result : UniValue) : UniValue :=
  if immature_pegin
  then pushKV "warning"
         (VSTR "Possibly immature peg-in input(s) detected, signed anyways.") result
  else result.

Lemma find_value_with_errors_ne entries result key :
  key ≠ "errors"%string → find_value (with_errors entries result) key = find_value result key.
Proof.
  intros Hne. unfold with_errors. destruct (decide (entries = [])); [done|].
  by apply find_value_pushKV_ne.
Qed.

Lemma find_value_with_warning_ne immature_pegin result key :
  key ≠ "warning"%string →
  find_value (with_warning immature_pegin result) key = find_value result key.
Proof.
  intros Hne. unfold with_warning. destruct immature_pegin; [|done].
  by apply find_value_pushKV_ne.
Qed.

(** The call, when it returns: the object it leaves. *)
Lemma SignTransactionResultToJSON_Ok (mtx : CMutableTransaction) (complete : bool)
    (coins0 : gmap COutPoint Coin) (input_errors : gmap Z string) (immature_pegin : bool)
    (result0 result : UniValue) :
  SignTransactionResultToJSON mtx complete coins0 input_errors immature_pegin result0
  = (Ok tt, result) →
  ∃ entries,
    Forall2 (rendered mtx) (map_entries input_errors) entries
    ∧ result
      = with_warning immature_pegin
          (with_errors entries
             (pushKV "complete" (VBOOL complete)
                (pushKV "hex" (VSTR (EncodeHexTx mtx)) result0))).
Proof.
  intros H. unfold SignTransactionResultToJSON in H.
  apply bind_Ok_inv in H as (vErrors & s0 & H0 & H). apply lift_Ok_inv in H0 as [Herrs Hs0]; subst s0.
  apply errors_to_json_Ok in Herrs as (entries & Hall & ->). simpl in H.
  apply bind_Ok_inv in H as ([] & r1 & H1 & H). injection H1 as <-.
  apply bind_Ok_inv in H as ([] & r2 & H2 & H). injection H2 as <-.
  apply bind_Ok_inv in H as ([] & r3 & Hpush & H).
  set (r2 := pushKV "complete" (VBOOL complete) (pushKV "hex" (VSTR (EncodeHexTx mtx)) result0))
    in *.
  exists entries. split; [done|].
  assert (r3 = with_errors entries r2) as ->.
  { unfold push_errors in Hpush. simpl in Hpush. unfold with_errors.
    destruct entries as [|entry entries]; simpl in Hpush.
    - injection Hpush as <-. by rewrite decide_True.
    - rewrite decide_False by done.
      apply bind_Ok_inv in Hpush as (r & s0 & H0 & Hpush). injection H0 as <- <-.
      apply bind_Ok_inv in Hpush as (merged & s0 & Hmerge & Hpush). injection Hpush as <-.
      unfold previous_errors.
      destruct (exists_key r2 "errors") eqn:Hex.
      + apply bind_Ok_inv in Hmerge as (more & s1 & H1 & Hmerge).
        apply lift_Ok_inv in H1 as [Hmore ->]. injection Hmerge as <- <-.
        unfold getValues in Hmore. by destruct (find_value r2 "errors"); simplify_eq.
      + injection Hmerge as <- <-.
        assert (find_value r2 "errors" = VNULL) as ->.
        { destruct r2 as [|kvs| | | |]; try done. simpl in *.
          apply bool_decide_eq_false in Hex. rewrite <- eq_None_not_Some in Hex.
          by rewrite Hex. }
        simpl. by rewrite app_nil_r. }
  unfold with_warning. destruct immature_pegin; by injection H as <-.
Qed.

(** X27. Lines 540-563: when the call returns on an object [result0],
    the entries of the input errors were rendered in ascending order of
    their positions; [result] holds the hex and the completeness flag; its
    errors are the new entries followed by those already there, and are
    left as they were when there is no new entry; the warning is pushed
    when [immature_pegin] is set and left as it was when it is not. *)
Theorem SignTransactionResultToJSON_returns (mtx : CMutableTransaction) (complete : bool)
    (coins0 : gmap COutPoint Coin) (input_errors : gmap Z string) (immature_pegin : bool)
    (result0 result : UniValue) :
  isObject result0 = true →
  SignTransactionResultToJSON mtx complete coins0 input_errors immature_pegin result0
  = (Ok tt, result) →
  ∃ entries,
    Forall2 (rendered mtx) (map_entries input_errors) entries
    ∧ Sorted entry_le (map_entries input_errors)
    ∧ map_entries input_errors ≡ₚ map_to_list input_errors
    ∧ find_value result "hex" = VSTR (EncodeHexTx mtx)
    ∧ find_value result "complete" = VBOOL complete
    ∧ find_value result "errors"
      = (if decide (entries = []) then find_value result0 "errors"
         else VARR (entries ++ previous_errors result0))
    ∧ find_value result "warning"
      = (if immature_pegin
         then VSTR "Possibly immature peg-in input(s) detected, signed anyways."
         else find_value result0 "warning").
Proof.
  intros Hobj H. apply SignTransactionResultToJSON_Ok in H as (entries & Hall & ->).
  set (r2 := pushKV "complete" (VBOOL complete) (pushKV "hex" (VSTR (EncodeHexTx mtx)) result0)).
  assert (isObject r2 = true) as Hobj2 by (unfold r2; by rewrite !isObject_pushKV).
  assert (isObject (with_errors entries r2) = true) as Hobj3.
  { unfold with_errors. destruct (decide _); [done|]. by rewrite isObject_pushKV. }
  assert (find_value r2 "errors" = find_value result0 "errors") as Hprev.
  { unfold r2. by rewrite !find_value_pushKV_ne. }
  exists entries. split; [done|].
  split; [apply map_entries_ascending|]. split; [apply map_entries_ascending|].
  split.
  { rewrite find_value_with_warning_ne, find_value_with_errors_ne by done.
    unfold r2. rewrite find_value_pushKV_ne by done. by apply find_value_pushKV_eq. }
  split.
  { rewrite find_value_with_warning_ne, find_value_with_errors_ne by done.
    unfold r2. apply find_value_pushKV_eq. by rewrite isObject_pushKV. }
  split.
  { rewrite find_value_with_warning_ne by done. unfold with_errors, previous_errors.
    rewrite Hprev. destruct (decide (entries = [])); [done|].
    by apply find_value_pushKV_eq. }
  unfold with_warning. destruct immature_pegin.
  - by apply find_value_pushKV_eq.
  - rewrite find_value_with_errors_ne by done. unfold r2. by rewrite !find_value_pushKV_ne.
Qed.

End SigningResultMore.

(** ** Signing: the three steps together *)

Section SigningMore.
Context `{SS : ScriptServices} `{CS : ChainServices} `{RS : RpcServices} `{SG : SigningServices}.

Lemma invalid_pegin_at_dec mtx feds i :
  invalid_pegin_at mtx feds i ∨ ¬ invalid_pegin_at mtx feds i.
Proof.
  unfold invalid_pegin_at.
  destruct (vin mtx !! i) as [txin|] eqn:Hin; [|right; by intros (? & ? & _)].
  destruct (m_is_pegin txin) eqn:Hpegin; [|right; intros (? & ? & ? & _); congruence].
  destruct (vtxinwit mtx !! i) as [txinwit|] eqn:Hwit; [|left; exists txin; by repeat split; try left].
  destruct (IsValidPeginWitness (m_pegin_witness txinwit) feds (prevout txin) false).1 eqn:Hok.
  - right. intros (txin' & [= <-] & _ & [?|(w & [= <-] & Hbad)]); congruence.
  - left. exists txin. split; [done|]. split; [done|]. right. by exists txinwit.
Qed.

(** The errors of validation started on an empty map: the invalid-proof
    message at the invalid peg-in inputs, nothing elsewhere. *)
Lemma ValidateTransactionPeginInputs_errors mtx b errs' k :
  ValidateTransactionPeginInputs mtx ∅ = (Ok b, errs') →
  errs' !! k
  = None ∧ (∀ i, invalid_pegin_at mtx (GetValidFedpegScripts true) i → k ≠ Z.of_nat i)
  ∨ errs' !! k = Some invalid_proof_message
    ∧ ∃ i, k = Z.of_nat i ∧ invalid_pegin_at mtx (GetValidFedpegScripts true) i.
Proof.
  intros H. unfold ValidateTransactionPeginInputs in H.
  apply validate_pegin_loop_Ok in H as (H1 & H2 & _); [|done].
  destruct (decide (0 ≤ k)) as [Hpos|Hneg].
  - destruct (invalid_pegin_at_dec mtx (GetValidFedpegScripts true) (Z.to_nat k)) as [Hinv|Hvalid].
    + right. split.
      * rewrite <- (Z2Nat.id k) by done. apply H1; [lia|done].
      * exists (Z.to_nat k). split; [lia|done].
    + left. assert (∀ i, invalid_pegin_at mtx (GetValidFedpegScripts true) i → k ≠ Z.of_nat i)
        as Hnone.
      { intros i Hinv ->. by rewrite Nat2Z.id in Hvalid. }
      split; [|done]. rewrite H2; [done|]. intros j _. apply Hnone.
  - left. assert (∀ i, invalid_pegin_at mtx (GetValidFedpegScripts true) i → k ≠ Z.of_nat i)
      as Hnone by (intros i _; lia).
    split; [|done]. rewrite H2; [done|]. intros j _. apply Hnone.
Qed.

(** X28. Lines 528-538: when [SignTransaction] returns on an object
    [result0], the sighash string parsed, validation returned, and the
    signer was run on the unsigned transaction with exactly the errors of
    validation: the invalid-proof message at the invalid peg-in inputs and
    nothing else. The transaction left in [mtx] is the signer's, and
    [result] carries its hex and the signer's completeness flag. *)
Theorem SignTransaction_returns (keystore0 : option Keystore) (coins0 : gmap COutPoint Coin)
    (hashType : UniValue) (mtx mtx' : CMutableTransaction) (result0 result : UniValue) :
  isObject result0 = true →
  SignTransaction keystore0 coins0 hashType (mtx, result0) = (Ok tt, (mtx', result)) →
  ∃ nHashType immature_pegin pegin_errors complete input_errors,
    ParseSighashString hashType = Ok nHashType
    ∧ ValidateTransactionPeginInputs mtx ∅ = (Ok immature_pegin, pegin_errors)
    ∧ (∀ k msg, pegin_errors !! k = Some msg ↔
                msg = invalid_proof_message
                ∧ ∃ i, k = Z.of_nat i ∧ invalid_pegin_at mtx (GetValidFedpegScripts true) i)
    ∧ SignTransaction_sign mtx keystore0 coins0 nHashType pegin_errors
      = (complete, mtx', input_errors)
    ∧ SignTransactionResultToJSON mtx' complete coins0 input_errors immature_pegin result0
      = (Ok tt, result)
    ∧ find_value result "hex" = VSTR (EncodeHexTx mtx')
    ∧ find_value result "complete" = VBOOL complete.
Proof.
  intros Hobj H. unfold SignTransaction in H. simpl in H.
  destruct (ParseSighashString hashType) as [nHashType|] eqn:Hparse; [|done].
  destruct (ValidateTransactionPeginInputs mtx ∅) as [[immature_pegin|] pegin_errors] eqn:Hvalid;
    [|done].
  destruct (SignTransaction_sign mtx keystore0 coins0 nHashType pegin_errors)
    as [[complete mtx1] input_errors] eqn:Hsign. simpl in H.
  destruct (SignTransactionResultToJSON mtx1 complete coins0 input_errors immature_pegin result0)
    as [r result1] eqn:Hjson. simpl in H. injection H as -> <- <-.
  exists nHashType, immature_pegin, pegin_errors, complete, input_errors.
  split; [done|]. split; [done|]. split.
  { intros k msg. destruct (ValidateTransactionPeginInputs_errors mtx _ _ k Hvalid)
      as [[Hnone Hno]|[Hsome (i & -> & Hinv)]].
    - rewrite Hnone. split; [done|]. intros (_ & i & -> & Hinv). by destruct (Hno i Hinv).
    - rewrite Hsome. split.
      + intros [= <-]. split; [done|]. by exists i.
      + by intros [-> _]. }
  split; [done|]. split; [done|].
  pose proof Hjson as Hresult.
  apply SignTransactionResultToJSON_Ok in Hresult as (entries & _ & ->).
  rewrite !find_value_with_warning_ne, !find_value_with_errors_ne by done. split.
  - rewrite find_value_pushKV_ne by done. by apply find_value_pushKV_eq.
  - apply find_value_pushKV_eq. by rewrite isObject_pushKV.
Qed.

End SigningMore.

(** ** The statements above on the small chain *)

Section MoreSampleChecks.
#[local] Existing Instance Sample.scripts.
#[local] Existing Instance Sample.chain.
#[local] Existing Instance Sample.services.

(** A claim script nobody paid to. *)
Definition claim_unpaid : CScript := [x00; x0c].

Lemma sample_proof_accepted :
  proof_accepted (PC := Sample.chain) CMutableTransaction_default 0 [x01] [x01] Sample.tx1
    Sample.block1.
Proof. by repeat split. Qed.

(** X2 on the small chain: an unknown transaction buffer, then an unknown
    proof buffer. *)
Lemma CreatePegInInput_malformed_buffers_witness :
  CreatePegInInput (PC := Sample.chain) 0 [Sample.claim_a] [x09] [x01] CMutableTransaction_default
  = (Throw tx_malformed, CMutableTransaction_default)
  ∧ CreatePegInInput (PC := Sample.chain) 0 [Sample.claim_a] [x01] [x09] CMutableTransaction_default
    = (Throw txoutproof_malformed, CMutableTransaction_default).
Proof.
  destruct (CreatePegInInput_malformed_buffers (PC := Sample.chain) CMutableTransaction_default 0
              [Sample.claim_a] [x09] [x01] eq_refl) as [Htx _].
  destruct (CreatePegInInput_malformed_buffers (PC := Sample.chain) CMutableTransaction_default 0
              [Sample.claim_a] [x01] [x09] eq_refl) as [_ Hproof].
  split.
  - apply Htx. reflexivity.
  - apply Hproof; [by eexists | reflexivity].
Defined.

(** X3 on the small chain: one claim script that no output pays to. *)
Lemma CreatePegInInput_no_claim_script_matches_witness :
  CreatePegInInput (PC := Sample.chain) 0 [claim_unpaid] [x01] [x01] CMutableTransaction_default
  = (Throw claim_script_mismatch, CMutableTransaction_default).
Proof.
  apply (CreatePegInInput_no_claim_script_matches (PC := Sample.chain) CMutableTransaction_default 0
           [claim_unpaid] [x01] [x01] Sample.tx1 Sample.block1).
  - by repeat split.
  - intros s Hs. apply list_elem_of_singleton in Hs as ->. reflexivity.
Defined.

(** A second parent transaction: an output paying to a version-1 program,
    one paying to [claim_a] without an explicit amount, and one paying to
    the empty claim script. *)
Definition claim_v1 : CScript := [x51; x0a].

Definition tx2 : Sample.tx :=
  Sample.mkSampleTx 8%N
    [(Sample.pays_to claim_v1, Some 1); (Sample.pays_to Sample.claim_a, None);
     (Sample.pays_to [], Some 2)].

Definition block2 : Sample.merkle_block := Sample.mkSampleBlock 99%N 99%N [8%N].

Definition chain2 : ParentChain := {|
  T_tx := Sample.tx;
  T_merkle_block := Sample.merkle_block;
  tx_vout := fun t => (Sample.tx_outs t).*1;
  tx_GetHash := Sample.tx_hash;
  decode_tx := fun data => match data with [x02] => Some tx2 | _ => None end;
  decode_merkle_block := fun data =>
    match data with
    | x05 :: rest => Some (block2, rest)
    | _ => None
    end;
  ExtractMatches := fun b =>
    (Sample.tree_root b, Sample.tree_matches b, seq 0 (length (Sample.tree_matches b)));
  hashMerkleRoot := Sample.header_root;
  GetAmountFromParentChainPegin := fun t nOut => (Sample.tx_outs t !! nOut) ≫= snd;
  CreatePeginWitness := fun value asset genesis claim t b => [claim]
|}.

Lemma sample_proof_accepted2 :
  proof_accepted (PC := chain2) CMutableTransaction_default 0 [x02] [x05] tx2 block2.
Proof. by repeat split. Qed.

(** X4 on the small chain: the empty claim script, a version-1 program and
    an output without an explicit amount. *)
Lemma CreatePegInInput_rejects_selected_script_witness :
  CreatePegInInput (PC := chain2) 0 [[]] [x02] [x05] CMutableTransaction_default
  = (Throw NonFatalCheckError, CMutableTransaction_default)
  ∧ CreatePegInInput (PC := chain2) 0 [claim_v1] [x02] [x05] CMutableTransaction_default
    = (Throw not_v0_program, CMutableTransaction_default)
  ∧ CreatePegInInput (PC := chain2) 0 [Sample.claim_a] [x02] [x05] CMutableTransaction_default
    = (Throw amount_not_explicit, CMutableTransaction_default).
Proof.
  destruct (CreatePegInInput_rejects_selected_script (PC := chain2) CMutableTransaction_default
              0 [[]] [x02] [x05] tx2 block2 2 [] sample_proof_accepted2)
    as (Hempty & _ & _); [split; [reflexivity | discriminate]|].
  destruct (CreatePegInInput_rejects_selected_script (PC := chain2) CMutableTransaction_default
              0 [claim_v1] [x02] [x05] tx2 block2 0 claim_v1 sample_proof_accepted2)
    as (_ & Hversion & _); [split; [reflexivity | discriminate]|].
  destruct (CreatePegInInput_rejects_selected_script (PC := chain2) CMutableTransaction_default
              0 [Sample.claim_a] [x02] [x05] tx2 block2 1 Sample.claim_a sample_proof_accepted2)
    as (_ & _ & Hamount); [split; [reflexivity | discriminate]|].
  split; [|split].
  - by apply Hempty.
  - apply Hversion; [discriminate|]. intros program. discriminate.
  - apply Hamount; [discriminate | by eexists | reflexivity].
Defined.

(** A verifier that rejects every witness. *)
Definition services_strict : ChainServices := {|
  GetValidFedpegScripts := fun _ => [(Sample.pays_to [], Sample.fedpegscript)];
  IsValidPeginWitness := fun _ _ _ _ => (false, "bad"%string);
  CTxInWitness_IsNull := fun w =>
    is_empty (vchIssuanceAmountRangeproof w) && is_empty (vchInflationKeysRangeproof w)
    && is_empty (scriptWitness w) && is_empty (m_pegin_witness w);
  pegged_asset := 1%N;
  parent_pegged_asset_hex := "01";
  ParentGenesisBlockHash := 2%N;
  ParentChainHasPow := true;
  policyAsset := 1%N
|}.

(** X5 on the small chain: the constructed witness is rejected by the
    verifier with the message "bad"; the behaviour is defined, the input
    slot holds the peg-in outpoint, no witness is attached and the
    exception carries the verifier's message. *)
Lemma CreatePegInInput_failure_state_witness :
  let mtx := CMutableTransaction_default in
  let mtx' := with_pegin_outpoint mtx 0 7%N 2 in
  CreatePegInInput (PC := Sample.chain) (CS := services_strict) 0 [Sample.claim_a] [x01] [x01] mtx
    = (Throw (witness_invalid "bad"), mtx')
  ∧ vtxinwit mtx' = vtxinwit mtx ∧ vout mtx' = vout mtx ∧ nLockTime mtx' = nLockTime mtx
  ∧ (mtx' = mtx
     ∨ ∃ tx mb nOut script value err,
         proof_accepted (PC := Sample.chain) (CS := services_strict) mtx 0 [x01] [x01] tx mb
         ∧ selected (SS := Sample.scripts) (PC := Sample.chain) (CS := services_strict)
             tx [Sample.claim_a] nOut script
         ∧ GetAmountFromParentChainPegin (ParentChain := Sample.chain) tx nOut = Some value
         ∧ IsValidPeginWitness (ChainServices := services_strict)
             (CreatePeginWitness (ParentChain := Sample.chain) value
                (pegged_asset (ChainServices := services_strict))
                (ParentGenesisBlockHash (ChainServices := services_strict)) script tx mb)
             (GetValidFedpegScripts (ChainServices := services_strict) true)
             (mkOutPoint (tx_GetHash tx) (Z.of_nat nOut)) false = (false, err)
         ∧ witness_invalid "bad" = witness_invalid err
         ∧ mtx' = with_pegin_outpoint mtx 0 (tx_GetHash tx) nOut
         ∧ vin mtx' !! 0%nat
           = Some (CTxIn_new (mkOutPoint (tx_GetHash tx) (Z.of_nat nOut)) [] SEQUENCE_FINAL)).
Proof.
  split; [reflexivity|].
  apply (CreatePegInInput_failure_state (PC := Sample.chain) (CS := services_strict)
           CMutableTransaction_default 0 [Sample.claim_a] [x01] [x01] (witness_invalid "bad")).
  - reflexivity.
  - intros He; inversion He.
Defined.

Definition outpoint6 : COutPoint := mkOutPoint 6%N 1.

(** A transaction with one plain input, one output and a lock-time. *)
Definition plain_tx : CMutableTransaction :=
  mkTx [CTxIn_new outpoint6 [] 7] [CTxOut_new 1%N 4 [x51]] [] 9.

(** The peg-in of [claim_a] built at position 1 of [plain_tx]. *)
Definition plain_tx_pegin : CMutableTransaction :=
  (CreatePegInInput (PC := Sample.chain) 1 [Sample.claim_a] [x01] [x01] plain_tx).2.

(** X6 on the small chain: a peg-in input built past the end of the
    inputs. *)
Lemma CreatePegInInput_success_frame_witness :
  length (vin plain_tx_pegin) = (length (vin plain_tx) `max` 2)%nat
  ∧ length (vtxinwit plain_tx_pegin) = (length (vtxinwit plain_tx) `max` 2)%nat
  ∧ (∀ j, j ≠ 1%nat → (j < length (vin plain_tx))%nat →
          vin plain_tx_pegin !! j = vin plain_tx !! j)
  ∧ (∀ j, j ≠ 1%nat → (j < length (vtxinwit plain_tx))%nat →
          vtxinwit plain_tx_pegin !! j = vtxinwit plain_tx !! j)
  ∧ vout plain_tx_pegin = vout plain_tx ∧ nLockTime plain_tx_pegin = nLockTime plain_tx
  ∧ (UINT32_MAX ≤ Z.of_nat 1 →
     (1 < length (vin plain_tx))%nat ∧ (1 < length (vtxinwit plain_tx))%nat).
Proof.
  apply (CreatePegInInput_success_frame (PC := Sample.chain) plain_tx 1 [Sample.claim_a]
           [x01] [x01] (Sample.tx1, Sample.block1)).
  reflexivity.
Defined.

(** X7 on the small chain: the same construction. *)
Lemma CreatePegInInput_success_guarantees_witness :
  proof_accepted (PC := Sample.chain) plain_tx 1 [x01] [x01] Sample.tx1 Sample.block1
  ∧ ∃ nOut script program value scripts,
      script ∈ [Sample.claim_a]
      ∧ IsWitnessProgram script = Some (0, program)
      ∧ nOut = GetPeginTxnOutputIndex (PC := Sample.chain) Sample.tx1 script
                 (GetValidFedpegScripts true)
      ∧ scripts ∈ GetValidFedpegScripts true
      ∧ tx_vout (ParentChain := Sample.chain) Sample.tx1 !! nOut
        = Some (mainchain_script_of scripts script)
      ∧ GetAmountFromParentChainPegin (ParentChain := Sample.chain) Sample.tx1 nOut = Some value
      ∧ vin plain_tx_pegin !! 1%nat = Some (pegin_txin 7%N nOut)
      ∧ ∃ txinwit,
          vtxinwit plain_tx_pegin !! 1%nat = Some txinwit
          ∧ m_pegin_witness txinwit
            = CreatePeginWitness (ParentChain := Sample.chain) value pegged_asset
                ParentGenesisBlockHash script Sample.tx1 Sample.block1
          ∧ (IsValidPeginWitness (m_pegin_witness txinwit) (GetValidFedpegScripts true)
               (mkOutPoint 7%N (Z.of_nat nOut)) false).1 = true.
Proof.
  apply (CreatePegInInput_success_guarantees (PC := Sample.chain) plain_tx 1 [Sample.claim_a]
           [x01] [x01] Sample.tx1 Sample.block1).
  reflexivity.
Defined.

(** X29 on the small chain: the construction of X7 at position
    0xffffffff of a transaction without inputs. *)
Lemma CreatePegInInput_index_wraps_witness :
  uint32_succ (Z.to_nat UINT32_MAX) = 0%nat
  ∧ CreatePegInInput (PC := Sample.chain) (Z.to_nat UINT32_MAX) [Sample.claim_a] [x01] [x01]
      CMutableTransaction_default
    = (Throw undefined_behaviour, set_vin (fun _ => []) CMutableTransaction_default).
Proof.
  apply (CreatePegInInput_index_wraps (PC := Sample.chain) CMutableTransaction_default
           (Z.to_nat UINT32_MAX) [Sample.claim_a] [x01] [x01] Sample.tx1 Sample.block1
           2 Sample.claim_a [x0a] 30).
  - apply Z2Nat.id. unfold UINT32_MAX. lia.
  - apply Nat.le_0_l.
  - repeat split.
  - split; [reflexivity | discriminate].
  - discriminate.
  - reflexivity.
  - reflexivity.
Defined.

#[local] Existing Instance Sample.rpc.
#[local] Existing Instance Sample.signing.
#[local] Existing Instance Sample.chains.

(** A construction with a plain input, a peg-in input, two addresses, a
    data entry, a fee in the middle, a lock-time and a key collector. *)
Definition sample_outputs : UniValue :=
  VOBJ [("addr1"%string, VNUM "10"); ("fee"%string, VNUM "5"); ("data"%string, VSTR "ab");
        ("addr2"%string, VNUM "1")].

Definition sample_tx : CMutableTransaction :=
  mkTx [CTxIn_new (mkOutPoint 5%N 0) [] 7; pegin_txin 7%N 2]
    [CTxOut_new 1%N 10 (String.list_byte_of_string "addr1");
     CTxOut_new 1%N 0 (x6a :: String.list_byte_of_string "ab");
     CTxOut_new 1%N 1 (String.list_byte_of_string "addr2");
     CTxOut_new 1%N 5 []]
    [CTxInWitness_default; mkTxInWitness [] [] [] [Sample.claim_a]] 5.

Lemma sample_construction :
  ConstructTransaction (SS := Sample.scripts) (CS := Sample.services) (RS := Sample.rpc)
    (PCS := Sample.chains) (VARR [input_plain; input_pegin]) sample_outputs (VNUM "5") false
    VNULL (Some []) true
  = (Ok sample_tx, Some [[]; []; []; []]).
Proof. vm_compute. reflexivity. Qed.

(** X8 on the small chain: the lock-time 5. *)
Lemma ConstructTransaction_locktime_witness :
  (isNull (VNUM "5") = true ∧ nLockTime sample_tx = 0)
  ∨ (isNull (VNUM "5") = false
     ∧ get_int64 (VNUM "5") = Ok (nLockTime sample_tx)
     ∧ 0 ≤ nLockTime sample_tx ≤ LOCKTIME_MAX).
Proof.
  exact (ConstructTransaction_locktime (SS := Sample.scripts) (CS := Sample.services)
           (RS := Sample.rpc) (PCS := Sample.chains) _ _ _ _ _ _ _ _ _ sample_construction).
Defined.

(** X9 on the small chain: a plain input, then a peg-in input. *)
Lemma ConstructTransaction_inputs_in_order_witness :
  ∃ inputs,
    inputs_array (VARR [input_plain; input_pegin]) = Ok inputs
    ∧ Forall2 (input_built false (nLockTime sample_tx) true) (values inputs) (vin sample_tx).
Proof.
  exact (ConstructTransaction_inputs_in_order (SS := Sample.scripts) (CS := Sample.services)
           (RS := Sample.rpc) (PCS := Sample.chains) _ _ _ _ _ _ _ _ _ sample_construction).
Defined.

(** X10 on the small chain: a null slot for the plain input, the peg-in
    witness for the other. *)
Lemma ConstructTransaction_witness_slots_witness : witness_slots_ok sample_tx.
Proof.
  exact (ConstructTransaction_witness_slots (SS := Sample.scripts) (CS := Sample.services)
           (RS := Sample.rpc) (PCS := Sample.chains) _ _ _ _ _ _ _ _ _ sample_construction).
Defined.

(** X11 on the small chain: two different addresses and one data entry. *)
Lemma ConstructTransaction_no_duplicates_witness :
  ∃ outputs keys,
    normalized_outputs sample_outputs = Ok outputs
    ∧ getKeys outputs = Ok keys
    ∧ NoDup (address_destinations keys)
    ∧ Forall (fun d => IsValidDestination d = true) (address_destinations keys)
    ∧ (length (filter (fun k => k = "data"%string) keys) ≤ 1)%nat.
Proof.
  exact (ConstructTransaction_no_duplicates (SS := Sample.scripts) (CS := Sample.services)
           (RS := Sample.rpc) (PCS := Sample.chains) _ _ _ _ _ _ _ _ _ sample_construction).
Defined.

(** X12 on the small chain: four outputs, four keys. *)
Lemma ConstructTransaction_pubkeys_collector_witness :
  (∃ ks : list CPubKey,
     Some [[]; []; []; []] = Some ([] ++ ks) ∧ length ks = length (vout sample_tx))
  ∧ Forall (fun out => nNonce out = []) (vout sample_tx).
Proof.
  exact (ConstructTransaction_pubkeys_collector (SS := Sample.scripts) (CS := Sample.services)
           (RS := Sample.rpc) (PCS := Sample.chains) _ _ _ _ _ _ _ _ _ sample_construction).
Defined.

(** X13 on the small chain: no asset map, the policy asset everywhere. *)
Lemma ConstructTransaction_default_asset_witness :
  Forall (fun out => nAsset out = Some (policyAsset (ChainServices := Sample.services)))
    (vout sample_tx).
Proof.
  exact (ConstructTransaction_default_asset (SS := Sample.scripts) (CS := Sample.services)
           (RS := Sample.rpc) (PCS := Sample.chains) _ _ _ _ _ _ _ _ _ sample_construction
           eq_refl).
Defined.

(** An input object with one of the three peg-in fields. *)
Definition input_partial : UniValue :=
  VOBJ [("txid"%string, VSTR "5"); ("vout"%string, VNUM "0");
        ("pegin_bitcoin_tx"%string, VSTR "x")].

(** X17 on the small chain: one peg-in field alone, and all three in a
    command that does not allow peg-ins. *)
Lemma ConstructTransaction_input_rejects_pegin_fields_witness :
  ConstructTransaction_input false true 0 input_partial CMutableTransaction_default
  = (Throw pegin_fields_partial,
     set_vin (fun v => v ++ [CTxIn_new (mkOutPoint 5%N 0) [] SEQUENCE_FINAL])
       CMutableTransaction_default)
  ∧ ConstructTransaction_input false false 0 input_pegin CMutableTransaction_default
    = (Throw pegin_fields_unsupported,
       set_vin (fun v => v ++ [CTxIn_new (mkOutPoint 5%N 0) [] 7]) CMutableTransaction_default).
Proof.
  split.
  - apply (ConstructTransaction_input_rejects_pegin_fields (SS := Sample.scripts)
             (CS := Sample.services) (RS := Sample.rpc) (PCS := Sample.chains)
             false true 0 input_partial input_partial 5%N 0 SEQUENCE_FINAL);
      try reflexivity; try lia.
    + intros (H & _). discriminate H.
    + left. intros (_ & H & _). discriminate H.
  - apply (ConstructTransaction_input_rejects_pegin_fields (SS := Sample.scripts)
             (CS := Sample.services) (RS := Sample.rpc) (PCS := Sample.chains)
             false false 0 input_pegin input_pegin 5%N 0 7);
      try reflexivity; try lia.
    intros (H & _). discriminate H.
Defined.

Lemma sample_record_header : record_header prevout_record outpoint5 script_ab.
Proof. repeat split; try reflexivity; simpl; lia. Qed.

Definition empty_prevouts : PrevoutsState := mkPrevouts None ∅.

Definition coin_ab : Coin := record_coin script_ab (ValueExplicit 3).

(** X18 on the small chain: one record on an empty coin map. *)
Lemma ParsePrevouts_only_records_witness :
  let st' := mkPrevouts None (<[outpoint5 := coin_ab]> ∅) in
  (is_Some (keystore st') ↔ is_Some (keystore empty_prevouts))
  ∧ ∀ op,
      (is_Some (coins empty_prevouts !! op) → is_Some (coins st' !! op))
      ∧ (coins st' !! op = coins empty_prevouts !! op
         ∨ ∃ coin, coins st' !! op = Some coin
                   ∧ nHeight coin = 1 ∧ fCoinBase coin = false
                   ∧ nAsset (out coin) = None ∧ nNonce (out coin) = []).
Proof.
  apply (ParsePrevouts_only_records (SS := Sample.scripts) (RS := Sample.rpc)
           (SG := Sample.signing) (VARR [prevout_record]) empty_prevouts _ (Ok tt)).
  reflexivity.
Defined.

(** X19 on the small chain: no key store. *)
Lemma ParsePrevouts_record_without_scripts_witness :
  ParsePrevouts_record prevout_record empty_prevouts
  = ((ParsePrevouts_coin outpoint5 script_ab prevout_record (coins empty_prevouts)).1,
     mkPrevouts (keystore empty_prevouts)
       (ParsePrevouts_coin outpoint5 script_ab prevout_record (coins empty_prevouts)).2).
Proof.
  apply (ParsePrevouts_record_without_scripts (SS := Sample.scripts) (RS := Sample.rpc)
           (SG := Sample.signing) prevout_record outpoint5 script_ab empty_prevouts).
  - exact sample_record_header.
  - by left.
Defined.

(** The pay-to-witness-script-hash script of [script_ab]. *)
Definition p2wsh_ab : CScript := x00 :: script_ab.

Definition prevout_with_witness_script : UniValue :=
  VOBJ [("txid"%string, VSTR "5"); ("vout"%string, VNUM "0");
        ("scriptPubKey"%string, VSTR (String.string_of_list_byte p2wsh_ab));
        ("amount"%string, VNUM "3"); ("witnessScript"%string, VSTR "ab")].

Definition prevout_without_scripts : UniValue :=
  VOBJ [("txid"%string, VSTR "5"); ("vout"%string, VNUM "0");
        ("scriptPubKey"%string, VSTR (String.string_of_list_byte p2wsh_ab));
        ("amount"%string, VNUM "3")].

Definition empty_keystore : PrevoutsState := mkPrevouts (SG := Sample.signing) (Some []) ∅.

(** X20 on the small chain: a witness script for a P2WSH output. *)
Lemma ParsePrevouts_scripts_accepted_witness :
  let st' := mkPrevouts (SG := Sample.signing) (Some [script_ab; p2wsh_ab]) ∅ in
  ∃ script,
    supplied_script prevout_with_witness_script = Ok script
    ∧ st' = mkPrevouts (add_both script <$> keystore empty_keystore) (coins empty_keystore)
    ∧ ¬ (find_value prevout_with_witness_script "redeemScript" = VNULL
         ∧ find_value prevout_with_witness_script "witnessScript" = VNULL)
    ∧ fields_agree prevout_with_witness_script script
    ∧ script_matches p2wsh_ab false true script.
Proof.
  apply (ParsePrevouts_scripts_accepted (SS := Sample.scripts) (RS := Sample.rpc)
           (SG := Sample.signing) p2wsh_ab false true prevout_with_witness_script
           empty_keystore).
  reflexivity.
Defined.

(** X21 on the small chain: a P2WSH output without either script. *)
Lemma ParsePrevouts_record_missing_scripts_witness :
  ParsePrevouts_record prevout_without_scripts empty_keystore
  = (Throw scripts_missing,
     mkPrevouts (SG := Sample.signing) (Some [])
       (<[outpoint5 := record_coin p2wsh_ab (ValueExplicit 3)]> ∅)).
Proof.
  apply (ParsePrevouts_record_missing_scripts (SS := Sample.scripts) (RS := Sample.rpc)
           (SG := Sample.signing) prevout_without_scripts outpoint5 p2wsh_ab (ValueExplicit 3)
           [] ∅).
  - repeat split; try reflexivity; simpl; lia.
  - left. apply lookup_empty.
  - apply supplied_explicit; reflexivity.
  - reflexivity.
  - reflexivity.
  - reflexivity.
  - reflexivity.
Defined.

Definition script_cd : CScript := String.list_byte_of_string "cd".

Definition prevout_record_cd : UniValue :=
  VOBJ [("txid"%string, VSTR "5"); ("vout"%string, VNUM "0");
        ("scriptPubKey"%string, VSTR "cd")].

(** X22 on the small chain: the outpoint of [prevout_record] again, with
    another script. *)
Lemma ParsePrevouts_same_outpoint_twice_witness :
  ParsePrevouts (VARR [prevout_record; prevout_record_cd]) empty_prevouts
  = (Throw (scriptPubKey_mismatch script_ab script_cd),
     mkPrevouts None (<[outpoint5 := coin_ab]> ∅)).
Proof.
  apply (ParsePrevouts_same_outpoint_twice (SS := Sample.scripts) (RS := Sample.rpc)
           (SG := Sample.signing) prevout_record prevout_record_cd outpoint5 script_ab
           script_cd (ValueExplicit 3) ∅).
  - exact sample_record_header.
  - repeat split; try reflexivity; simpl; lia.
  - left. apply lookup_empty.
  - apply supplied_explicit; reflexivity.
  - reflexivity.
  - discriminate.
Defined.

(** A transaction with two peg-in inputs: the first with a witness slot,
    the second without. *)
Definition two_pegins : CMutableTransaction :=
  mkTx [pegin_txin 7%N 2; pegin_txin 7%N 1] []
    [mkTxInWitness [] [] [] [Sample.claim_a]] 0.

(** X23 on the small chain: the first input is immature, the second has
    no witness. *)
Lemma ValidateTransactionPeginInputs_returns_witness :
  let feds := GetValidFedpegScripts (ChainServices := Sample.services) true in
  let errs' : gmap Z string := {[1 := invalid_proof_message]} in
  (∀ i, invalid_pegin_at two_pegins feds i → errs' !! Z.of_nat i = Some invalid_proof_message)
  ∧ (∀ k, (∀ i, invalid_pegin_at two_pegins feds i → k ≠ Z.of_nat i) →
          errs' !! k = (∅ : gmap Z string) !! k)
  ∧ (true = true ↔ ∃ i msg, fails_depth_check_at two_pegins feds i msg)
  ∧ (∀ i msg, fails_depth_check_at two_pegins feds i msg →
              msg = "Needs more confirmations."%string).
Proof.
  apply (ValidateTransactionPeginInputs_returns (CS := Sample.services)
           two_pegins ∅ {[1 := invalid_proof_message]} true).
  reflexivity.
Defined.

(** X26 on the small chain: the signer reports a missing amount. *)
Lemma SignTransactionResultToJSON_missing_amount_witness :
  ∃ e,
    SignTransactionResultToJSON pegin_tx true ∅ {[0 := "Missing amount"%string]} false (VOBJ [])
    = (Throw e, VOBJ [])
    ∧ (e = out_of_range ∨ ∃ coin, e = missing_amount_for coin).
Proof.
  apply (SignTransactionResultToJSON_missing_amount (RS := Sample.rpc)
           pegin_tx true ∅ {[0 := "Missing amount"%string]} false (VOBJ []) 0).
  reflexivity.
Defined.

(** A result that already holds an error. *)
Definition result_with_error : UniValue := VOBJ [("errors"%string, VARR [VSTR "old"])].

Definition one_error : gmap Z string := {[0 := "bad signature"%string]}.

Definition sample_result : UniValue :=
  (SignTransactionResultToJSON pegin_tx false ∅ one_error false result_with_error).2.

(** X27 on the small chain: one signing error on top of an old one. *)
Lemma SignTransactionResultToJSON_returns_witness :
  ∃ entries,
    Forall2 (rendered pegin_tx) (map_entries one_error) entries
    ∧ Sorted entry_le (map_entries one_error)
    ∧ map_entries one_error ≡ₚ map_to_list one_error
    ∧ find_value sample_result "hex" = VSTR (EncodeHexTx pegin_tx)
    ∧ find_value sample_result "complete" = VBOOL false
    ∧ find_value sample_result "errors"
      = (if decide (entries = []) then find_value result_with_error "errors"
         else VARR (entries ++ previous_errors result_with_error))
    ∧ find_value sample_result "warning"
      = (if false
         then VSTR "Possibly immature peg-in input(s) detected, signed anyways."
         else find_value result_with_error "warning").
Proof.
  apply (SignTransactionResultToJSON_returns (RS := Sample.rpc) pegin_tx false ∅ one_error false
           result_with_error sample_result).
  - reflexivity.
  - vm_compute. reflexivity.
Defined.

Definition signed_result : UniValue :=
  (SignTransaction None ∅ VNULL (pegin_tx, VOBJ [])).2.2.

(** X28 on the small chain: signing the transaction with the immature
    peg-in input. *)
Lemma SignTransaction_returns_witness :
  ∃ nHashType immature_pegin pegin_errors complete input_errors,
    ParseSighashString VNULL = Ok nHashType
    ∧ ValidateTransactionPeginInputs pegin_tx ∅ = (Ok immature_pegin, pegin_errors)
    ∧ (∀ k msg, pegin_errors !! k = Some msg ↔
                msg = invalid_proof_message
                ∧ ∃ i, k = Z.of_nat i
                       ∧ invalid_pegin_at pegin_tx (GetValidFedpegScripts true) i)
    ∧ SignTransaction_sign pegin_tx None ∅ nHashType pegin_errors
      = (complete, pegin_tx, input_errors)
    ∧ SignTransactionResultToJSON pegin_tx complete ∅ input_errors immature_pegin (VOBJ [])
      = (Ok tt, signed_result)
    ∧ find_value signed_result "hex" = VSTR (EncodeHexTx pegin_tx)
    ∧ find_value signed_result "complete" = VBOOL complete.
Proof.
  apply (SignTransaction_returns (CS := Sample.services) (RS := Sample.rpc)
           (SG := Sample.signing) None ∅ VNULL pegin_tx pegin_tx (VOBJ [])
           signed_result).
  - reflexivity.
  - vm_compute. reflexivity.
Defined.

(** The address [addr1] twice. *)
Definition outputs_twice : UniValue :=
  VOBJ [("addr1"%string, VNUM "10"); ("addr1"%string, VNUM "5")].

(** X14 on the small chain: the second entry is rejected as a duplicate
    after the key of the first was collected. *)
Lemma ConstructTransaction_collector_only_grows_witness :
  ∃ ks : list CPubKey, Some [[x01]; []] = (fun v => v ++ ks) <$> Some [[x01]].
Proof.
  apply (ConstructTransaction_collector_only_grows (SS := Sample.scripts)
           (CS := Sample.services) (RS := Sample.rpc) (PCS := Sample.chains)
           (VARR []) outputs_twice VNULL false VNULL (Some [[x01]]) true
           (Throw (JSONRPCError RPC_INVALID_PARAMETER
                     "Invalid parameter, duplicated address: addr1"))).
  vm_compute. reflexivity.
Defined.

End MoreSampleChecks.
